(** * VOLK byte kernels, kernel registry and profiling harness

    A shallow embedding of the byte-oriented kernels of the repository
    (bit packing, bit unpacking, exclusive or), of the implementation
    variants declared by its kernel headers, and of the buffer layout set
    up by the profiling harness, together with the properties proved about
    them.

    The kernels are C functions that walk raw pointers.  They are embedded
    in a small state-and-error monad over a block memory: a pointer is a
    block index and an offset, a load or store outside its block is a
    [Fault], and every byte access is appended to a trace so that the
    footprint of a kernel can be stated. *)

From stdpp Require Import base list strings gmap.
From Stdlib Require Import ZArith Lia.

Local Open Scope Z_scope.

(* ===================================================================== *)
(** * Part I: definitions *)
(* ===================================================================== *)

(** ** Integer types of the C sources, with their wrap-around *)

Definition u8 (z : Z) : Z := z mod 2 ^ 8.      (* unsigned char *)
Definition u16 (z : Z) : Z := z mod 2 ^ 16.    (* uint16_t *)
Definition s16 (z : Z) : Z := (z + 2 ^ 15) mod 2 ^ 16 - 2 ^ 15.   (* short *)
Definition u32 (z : Z) : Z := z mod 2 ^ 32.    (* unsigned int *)
Definition s32 (z : Z) : Z := (z + 2 ^ 31) mod 2 ^ 32 - 2 ^ 31.   (* int *)
Definition size_t (z : Z) : Z := z mod 2 ^ 64.

Definition is_byte (z : Z) : Prop := 0 <= z < 256.

(** ** Memory, pointers and the kernel monad *)

(** A buffer is a block of byte cells placed at address [base]. *)
Record block := Block { base : Z; cells : list Z }.

Record ptr := Ptr { blk : nat; off : nat }.

Definition ptr_add (p : ptr) (n : nat) : ptr := Ptr (blk p) (off p + n).
Infix "+ₚ" := ptr_add (at level 50, left associativity).

(** Byte accesses, newest first in the trace. *)
Inductive event := Ld (p : ptr) | St (p : ptr).

Record mem := Mem { blocks : list block; trace : list event }.

Inductive outcome (A : Type) :=
| Done (a : A) (m : mem)
| Fault          (* access outside a block, or a misaligned aligned access *)
| Timeout.       (* loop fuel exhausted *)
Arguments Done {A} a m.
Arguments Fault {A}.
Arguments Timeout {A}.

Definition M (A : Type) : Type := mem -> outcome A.

Definition ret {A} (a : A) : M A := fun m => Done a m.

Definition bind {A B} (c : M A) (f : A -> M B) : M B := fun m =>
  match c m with
  | Done a m' => f a m'
  | Fault => Fault
  | Timeout => Timeout
  end.

#[local] Notation "'do' x <- c ; k" := (bind c (fun x => k))
  (at level 10, x pattern, c at level 100, k at level 200).
#[local] Notation "'do_' c ; k" := (bind c (fun _ => k))
  (at level 10, c at level 100, k at level 200).

Definition load (p : ptr) : M Z := fun m =>
  match blocks m !! blk p with
  | Some b =>
      match cells b !! off p with
      | Some v => Done v (Mem (blocks m) (Ld p :: trace m))
      | None => Fault
      end
  | None => Fault
  end.

(** A store through an [unsigned char*] keeps the low eight bits. *)
Definition store (p : ptr) (v : Z) : M unit := fun m =>
  match blocks m !! blk p with
  | Some b =>
      if (off p <? length (cells b))%nat
      then Done tt (Mem (<[blk p := Block (base b) (<[off p := u8 v]> (cells b))]> (blocks m))
                        (St p :: trace m))
      else Fault
  | None => Fault
  end.

(** [*p |= v] *)
Definition or_store (p : ptr) (v : Z) : M unit :=
  do o <- load p; store p (Z.lor o v).

(** [while (cond) body], with fuel. *)
Fixpoint while {S : Type} (fuel : nat) (cond : S -> bool) (body : S -> M S) (s : S) : M S :=
  match fuel with
  | O => fun _ => Timeout
  | Datatypes.S fuel' =>
      if cond s then do s' <- body s; while fuel' cond body s' else ret s
  end.

(** Fuel that suffices for every loop bounded by [n]. *)
Definition fuel_for (n : Z) : nat := S (Z.to_nat n).

Fixpoint load_bytes (n : nat) (p : ptr) : M (list Z) :=
  match n with
  | O => ret []
  | S n' => do v <- load p; do vs <- load_bytes n' (p +ₚ 1); ret (v :: vs)
  end.

Fixpoint store_bytes (p : ptr) (vs : list Z) : M unit :=
  match vs with
  | [] => ret tt
  | v :: vs' => do_ store p v; store_bytes (p +ₚ 1) vs'
  end.

(** Address of a pointer, when its block exists. *)
Definition address (p : ptr) (m : mem) : option Z :=
  match blocks m !! blk p with
  | Some b => Some (base b + Z.of_nat (off p))
  | None => None
  end.

(** An access that requires its address to be a multiple of [a]. *)
Definition require_aligned (a : Z) (p : ptr) : M unit := fun m =>
  match address p m with
  | Some x => if x mod a =? 0 then Done tt m else Fault
  | None => Fault
  end.

(** ** Vector intrinsics

    The kernels use SSSE3 and AVX compiler intrinsics, which are not part
    of the repository.  A vector register is the list of its bytes, least
    significant first; the definitions follow the operation sections of
    the Intel intrinsics reference. *)

Definition _mm_set_epi8 (e15 e14 e13 e12 e11 e10 e9 e8 e7 e6 e5 e4 e3 e2 e1 e0 : Z) : list Z :=
  u8 <$> [e0; e1; e2; e3; e4; e5; e6; e7; e8; e9; e10; e11; e12; e13; e14; e15].

Definition _mm_set1_epi8 (a : Z) : list Z := replicate 16 (u8 a).

Definition _mm_set1_epi16 (a : Z) : list Z :=
  concat (replicate 8 [u8 a; u8 (Z.shiftr a 8)]).

Definition _mm_shuffle_epi8 (a b : list Z) : list Z :=
  (fun c => if Z.testbit c 7 then 0 else nth (Z.to_nat (Z.land c 0x0F)) a 0) <$> b.

Definition _mm_and_si128 (a b : list Z) : list Z := zip_with Z.land a b.

Definition _mm_cmpeq_epi8 (a b : list Z) : list Z :=
  zip_with (fun x y => if x =? y then 0xFF else 0x00) a b.

Definition _mm_movemask_epi8 (a : list Z) : Z :=
  foldr (fun x acc => Z.b2z (Z.testbit x 7) + 2 * acc) 0 a.

Definition _mm_loadu_si128 (p : ptr) : M (list Z) := load_bytes 16 p.
Definition _mm_storeu_si128 (p : ptr) (v : list Z) : M unit := store_bytes p v.

Definition _mm256_loadu_ps (p : ptr) : M (list Z) := load_bytes 32 p.
Definition _mm256_load_ps (p : ptr) : M (list Z) :=
  do_ require_aligned 32 p; load_bytes 32 p.
Definition _mm256_xor_ps (a b : list Z) : list Z := zip_with Z.lxor a b.
Definition _mm256_storeu_ps (p : ptr) (v : list Z) : M unit := store_bytes p v.
Definition _mm256_store_ps (p : ptr) (v : list Z) : M unit :=
  do_ require_aligned 32 p; store_bytes p v.

(** [*((uint16_t* ) p) = v] and [*((short* ) p)] on a little-endian host. *)
Definition store_u16 (p : ptr) (v : Z) : M unit :=
  do_ store p (u16 v); store (p +ₚ 1) (Z.shiftr (u16 v) 8).

Definition load_s16 (p : ptr) : M Z :=
  do lo <- load p; do hi <- load (p +ₚ 1); ret (s16 (lo + 256 * hi)).

(** ** volk_8u_pack8_8u *)

Definition pack_byte (out_buf in_buf : ptr) : M unit :=
  let inputPtr := in_buf in
  let outputPtr := out_buf in
  do_ store outputPtr 0x00;
  do x <- load inputPtr; let inputPtr := inputPtr +ₚ 1 in
  do_ or_store outputPtr (Z.shiftl (Z.land x 0x01) 7);
  do x <- load inputPtr; let inputPtr := inputPtr +ₚ 1 in
  do_ or_store outputPtr (Z.shiftl (Z.land x 0x01) 6);
  do x <- load inputPtr; let inputPtr := inputPtr +ₚ 1 in
  do_ or_store outputPtr (Z.shiftl (Z.land x 0x01) 5);
  do x <- load inputPtr; let inputPtr := inputPtr +ₚ 1 in
  do_ or_store outputPtr (Z.shiftl (Z.land x 0x01) 4);
  do x <- load inputPtr; let inputPtr := inputPtr +ₚ 1 in
  do_ or_store outputPtr (Z.shiftl (Z.land x 0x01) 3);
  do x <- load inputPtr; let inputPtr := inputPtr +ₚ 1 in
  do_ or_store outputPtr (Z.shiftl (Z.land x 0x01) 2);
  do x <- load inputPtr; let inputPtr := inputPtr +ₚ 1 in
  do_ or_store outputPtr (Z.shiftl (Z.land x 0x01) 1);
  do x <- load inputPtr;
  or_store outputPtr (Z.land x 0x01).

(** One turn of the scalar loop shared by the generic kernel and the tail
    of the vector kernels; the state is [(byte, inputPtr, outputPtr)]. *)
Definition pack_scalar_body : Z * ptr * ptr -> M (Z * ptr * ptr) :=
  fun '(byte, inputPtr, outputPtr) =>
    do_ pack_byte outputPtr inputPtr;
    let outputPtr := outputPtr +ₚ 1 in
    let inputPtr := inputPtr +ₚ 8 in
    ret (u32 (byte + 1), inputPtr, outputPtr).

Definition volk_8u_pack8_8u_generic (out_buf in_buf : ptr) (num_bytes : Z) : M unit :=
  let inputPtr := in_buf in
  let outputPtr := out_buf in
  do_ while (fuel_for num_bytes)
        (fun '(byte, _, _) => byte <? num_bytes)
        pack_scalar_body
        (0, inputPtr, outputPtr);
  ret tt.

Definition pack_reverse_mask : list Z :=
  _mm_set_epi8 8 9 10 11 12 13 14 15 0 1 2 3 4 5 6 7.

(** One turn of the vector loop: sixteen input bytes give two output bytes. *)
Definition pack_ssse3_body : Z * ptr * ptr -> M (Z * ptr * ptr) :=
  let reverse_mask := pack_reverse_mask in
  let bit_mask := _mm_set1_epi8 0x01 in
  fun '(byte, inputPtr, outputPtr) =>
    do loaded <- _mm_loadu_si128 inputPtr;
    let loaded := _mm_shuffle_epi8 loaded reverse_mask in
    let loaded := _mm_and_si128 loaded bit_mask in
    let compared := _mm_cmpeq_epi8 loaded bit_mask in
    do_ store_u16 outputPtr (_mm_movemask_epi8 compared);
    let outputPtr := outputPtr +ₚ 2 in
    let inputPtr := inputPtr +ₚ 16 in
    ret (u32 (byte + 2), inputPtr, outputPtr).

Definition volk_8u_pack8_8u_u_ssse3 (out_buf in_buf : ptr) (num_bytes : Z) : M unit :=
  let fast_num_bytes := Z.land num_bytes 0xFFFFFFFE in
  let byte := 0 in
  let inputPtr := in_buf in
  let outputPtr := out_buf in
  do s <- while (fuel_for num_bytes)
        (fun '(byte, _, _) => byte <? fast_num_bytes)
        pack_ssse3_body
        (byte, inputPtr, outputPtr);
  do_ while (fuel_for num_bytes)
        (fun '(byte, _, _) => byte <? num_bytes)
        pack_scalar_body
        s;
  ret tt.

(** ** volk_8u_pack8puppet_8u *)

Definition volk_8u_pack8puppet_8u_generic (out_buf in_buf : ptr) (num_bytes : Z) : M unit :=
  volk_8u_pack8_8u_generic out_buf in_buf (num_bytes / 8).

(** ** volk_8u_unpack8_8u *)

Definition unpack_byte (out_buf in_buf : ptr) : M unit :=
  let inputPtr := in_buf in
  let outputPtr := out_buf in
  do x <- load inputPtr;
  do_ store outputPtr (Z.shiftr (Z.land x 0x80) 7); let outputPtr := outputPtr +ₚ 1 in
  do x <- load inputPtr;
  do_ store outputPtr (Z.shiftr (Z.land x 0x40) 6); let outputPtr := outputPtr +ₚ 1 in
  do x <- load inputPtr;
  do_ store outputPtr (Z.shiftr (Z.land x 0x20) 5); let outputPtr := outputPtr +ₚ 1 in
  do x <- load inputPtr;
  do_ store outputPtr (Z.shiftr (Z.land x 0x10) 4); let outputPtr := outputPtr +ₚ 1 in
  do x <- load inputPtr;
  do_ store outputPtr (Z.shiftr (Z.land x 0x08) 3); let outputPtr := outputPtr +ₚ 1 in
  do x <- load inputPtr;
  do_ store outputPtr (Z.shiftr (Z.land x 0x04) 2); let outputPtr := outputPtr +ₚ 1 in
  do x <- load inputPtr;
  do_ store outputPtr (Z.shiftr (Z.land x 0x02) 1); let outputPtr := outputPtr +ₚ 1 in
  do x <- load inputPtr;
  store outputPtr (Z.land x 0x01).

Definition unpack_scalar_body : Z * ptr * ptr -> M (Z * ptr * ptr) :=
  fun '(byte, inputPtr, outputPtr) =>
    do_ unpack_byte outputPtr inputPtr;
    let outputPtr := outputPtr +ₚ 8 in
    let inputPtr := inputPtr +ₚ 1 in
    ret (u32 (byte + 1), inputPtr, outputPtr).

Definition volk_8u_unpack8_8u_generic (out_buf in_buf : ptr) (num_bytes : Z) : M unit :=
  let inputPtr := in_buf in
  let outputPtr := out_buf in
  do_ while (fuel_for num_bytes)
        (fun '(byte, _, _) => byte <? num_bytes)
        unpack_scalar_body
        (0, inputPtr, outputPtr);
  ret tt.

Definition unpack_reverse_mask : list Z :=
  _mm_set_epi8 1 3 5 7 9 11 13 15 0 2 4 6 8 10 12 14.

Definition unpack_bit_mask : list Z :=
  _mm_set_epi8 0x01 0x02 0x04 0x08 0x10 0x20 0x40 0x80
               0x01 0x02 0x04 0x08 0x10 0x20 0x40 0x80.

(** One turn of the vector loop: two input bytes give sixteen output bytes. *)
Definition unpack_ssse3_body : Z * ptr * ptr -> M (Z * ptr * ptr) :=
  let reverse_mask := unpack_reverse_mask in
  let bit_mask := unpack_bit_mask in
  let ones := _mm_set1_epi8 1 in
  fun '(byte, inputPtr, outputPtr) =>
    do w <- load_s16 inputPtr;
    let loaded := _mm_set1_epi16 w in
    let loaded := _mm_shuffle_epi8 loaded reverse_mask in
    let loaded := _mm_and_si128 loaded bit_mask in
    let loaded := _mm_cmpeq_epi8 loaded bit_mask in
    let loaded := _mm_and_si128 loaded ones in
    do_ _mm_storeu_si128 outputPtr loaded;
    let inputPtr := inputPtr +ₚ 2 in
    let outputPtr := outputPtr +ₚ 16 in
    ret (u32 (byte + 2), inputPtr, outputPtr).

Definition volk_8u_unpack8_8u_u_ssse3 (out_buf in_buf : ptr) (num_bytes : Z) : M unit :=
  let fast_num_bytes := Z.land num_bytes 0xFFFFFFFE in
  let inputPtr := in_buf in
  let outputPtr := out_buf in
  do s <- while (fuel_for num_bytes)
        (fun '(byte, _, _) => byte <? fast_num_bytes)
        unpack_ssse3_body
        (0, inputPtr, outputPtr);
  do_ while (fuel_for num_bytes)
        (fun '(byte, _, _) => byte <? num_bytes)
        unpack_scalar_body
        s;
  ret tt.

(** ** volk_8u_x2_exor_8u

    The loop counter [i] is an [int] compared against an [unsigned int]:
    the comparison converts it to unsigned, and its increment wraps in two's
    complement.  The loop state is
    [(i, outputVector, inputVector0, inputVector1)]. *)

Definition exor_scalar_body : Z * ptr * ptr * ptr -> M (Z * ptr * ptr * ptr) :=
  fun '(i, outputVector, inputVector0, inputVector1) =>
    do a <- load inputVector0; let inputVector0 := inputVector0 +ₚ 1 in
    do b <- load inputVector1; let inputVector1 := inputVector1 +ₚ 1 in
    do_ store outputVector (Z.lxor a b); let outputVector := outputVector +ₚ 1 in
    ret (s32 (i + 1), outputVector, inputVector0, inputVector1).

Definition volk_8u_x2_exor_8u_generic
    (outputVector inputVector0 inputVector1 : ptr) (num_bytes : Z) : M unit :=
  do_ while (fuel_for num_bytes)
        (fun '(i, _, _, _) => u32 i <? num_bytes)
        exor_scalar_body
        (0, outputVector, inputVector0, inputVector1);
  ret tt.

Definition exor_u_avx_body : Z * ptr * ptr * ptr -> M (Z * ptr * ptr * ptr) :=
  fun '(i, outputVector, inputVector0, inputVector1) =>
    do src0 <- _mm256_loadu_ps inputVector0;
    do src1 <- _mm256_loadu_ps inputVector1;
    let dst := _mm256_xor_ps src0 src1 in
    do_ _mm256_storeu_ps outputVector dst;
    let inputVector0 := inputVector0 +ₚ 32 in
    let inputVector1 := inputVector1 +ₚ 32 in
    let outputVector := outputVector +ₚ 32 in
    ret (s32 (i + 32), outputVector, inputVector0, inputVector1).

Definition volk_8u_x2_exor_8u_u_avx
    (outputVector inputVector0 inputVector1 : ptr) (num_bytes : Z) : M unit :=
  let num_32_bytes := num_bytes / 32 in
  do s <- while (fuel_for num_bytes)
        (fun '(i, _, _, _) => u32 i <? num_32_bytes)
        exor_u_avx_body
        (0, outputVector, inputVector0, inputVector1);
  do_ while (fuel_for num_bytes)
        (fun '(i, _, _, _) => u32 i <? num_bytes)
        exor_scalar_body
        s;
  ret tt.

Definition exor_a_avx_body : Z * ptr * ptr * ptr -> M (Z * ptr * ptr * ptr) :=
  fun '(i, outputVector, inputVector0, inputVector1) =>
    do src0 <- _mm256_load_ps inputVector0;
    do src1 <- _mm256_load_ps inputVector1;
    let dst := _mm256_xor_ps src0 src1 in
    do_ _mm256_store_ps outputVector dst;
    let inputVector0 := inputVector0 +ₚ 32 in
    let inputVector1 := inputVector1 +ₚ 32 in
    let outputVector := outputVector +ₚ 32 in
    ret (s32 (i + 32), outputVector, inputVector0, inputVector1).

Definition volk_8u_x2_exor_8u_a_avx
    (outputVector inputVector0 inputVector1 : ptr) (num_bytes : Z) : M unit :=
  let num_32_bytes := num_bytes / 32 in
  do s <- while (fuel_for num_bytes)
        (fun '(i, _, _, _) => u32 i <? num_32_bytes)
        exor_a_avx_body
        (0, outputVector, inputVector0, inputVector1);
  do_ while (fuel_for num_bytes)
        (fun '(i, _, _, _) => u32 i <? num_bytes)
        exor_scalar_body
        s;
  ret tt.

(** ** Functional descriptions used in the statements *)

(** The byte whose bits, most significant first, are the least significant
    bits of the elements of [l]. *)
Definition pack_bits (l : list Z) : Z :=
  foldl (fun acc x => 2 * acc + Z.land x 1) 0 l.

(** Output cells after [k] turns of the scalar packing loop started at
    output offset [o] and input offset [i]. *)
Fixpoint pack_out (k o i : nat) (inb out : list Z) : list Z :=
  match k with
  | O => out
  | S k' => pack_out k' (o + 1) (i + 8) inb (<[o := pack_bits (take 8 (drop i inb))]> out)
  end.

Definition pack_byte_events (po pi : ptr) : list event :=
  [St po; Ld po; Ld (pi +ₚ 7); St po; Ld po; Ld (pi +ₚ 6);
   St po; Ld po; Ld (pi +ₚ 5); St po; Ld po; Ld (pi +ₚ 4);
   St po; Ld po; Ld (pi +ₚ 3); St po; Ld po; Ld (pi +ₚ 2);
   St po; Ld po; Ld (pi +ₚ 1); St po; Ld po; Ld pi; St po].

Fixpoint pack_events (k : nat) (po pi : ptr) : list event :=
  match k with
  | O => []
  | S k' => pack_events k' (po +ₚ 1) (pi +ₚ 8) ++ pack_byte_events po pi
  end.

Fixpoint ld_events (n : nat) (p : ptr) : list event :=
  match n with
  | O => []
  | S n' => ld_events n' (p +ₚ 1) ++ [Ld p]
  end.

Fixpoint st_events (n : nat) (p : ptr) : list event :=
  match n with
  | O => []
  | S n' => st_events n' (p +ₚ 1) ++ [St p]
  end.

(** Cells after [store_bytes] of [vs] at offset [o]. *)
Fixpoint write_bytes (o : nat) (vs out : list Z) : list Z :=
  match vs with
  | [] => out
  | v :: vs' => write_bytes (o + 1) vs' (<[o := u8 v]> out)
  end.

Fixpoint pack_ssse3_events (k : nat) (po pi : ptr) : list event :=
  match k with
  | O => []
  | S k' => pack_ssse3_events k' (po +ₚ 2) (pi +ₚ 16)
            ++ [St (po +ₚ 1); St po] ++ ld_events 16 pi
  end.

(** What the comparison against the bit mask leaves in a lane. *)
Definition cmp_lsb (x : Z) : Z := if Z.land x 1 =? 1 then 0xFF else 0x00.

(** The first [k] groups of eight bytes of [l]. *)
Fixpoint chunks8 (k : nat) (l : list Z) : list (list Z) :=
  match k with
  | O => []
  | S k' => take 8 l :: chunks8 k' (drop 8 l)
  end.

(** Pointers stored through, and loaded from, newest first. *)
Fixpoint stores (tr : list event) : list ptr :=
  match tr with
  | [] => []
  | St p :: tr' => p :: stores tr'
  | Ld _ :: tr' => stores tr'
  end.

Fixpoint loads (tr : list event) : list ptr :=
  match tr with
  | [] => []
  | Ld p :: tr' => p :: loads tr'
  | St _ :: tr' => loads tr'
  end.

(** The eight bits of [x] as bytes, most significant first. *)
Definition unpack_bits (x : Z) : list Z :=
  (fun k => Z.b2z (Z.testbit x k)) <$> [7; 6; 5; 4; 3; 2; 1; 0].

(** Output cells after [k] turns of the scalar unpacking loop. *)
Fixpoint unpack_out (k o i : nat) (inb out : list Z) : list Z :=
  match k with
  | O => out
  | S k' => unpack_out k' (o + 8) (i + 1) inb (write_bytes o (unpack_bits (inb !!! i)) out)
  end.

Definition unpack_byte_events (po pi : ptr) : list event :=
  [St (po +ₚ 7); Ld pi; St (po +ₚ 6); Ld pi; St (po +ₚ 5); Ld pi; St (po +ₚ 4); Ld pi;
   St (po +ₚ 3); Ld pi; St (po +ₚ 2); Ld pi; St (po +ₚ 1); Ld pi; St po; Ld pi].

Fixpoint unpack_events (k : nat) (po pi : ptr) : list event :=
  match k with
  | O => []
  | S k' => unpack_events k' (po +ₚ 8) (pi +ₚ 1) ++ unpack_byte_events po pi
  end.

Fixpoint unpack_ssse3_events (k : nat) (po pi : ptr) : list event :=
  match k with
  | O => []
  | S k' => unpack_ssse3_events k' (po +ₚ 16) (pi +ₚ 2)
            ++ st_events 16 po ++ [Ld (pi +ₚ 1); Ld pi]
  end.

(** What the mask comparison of the unpacking kernel leaves in a lane. *)
Definition bit_lane (x m : Z) : Z := Z.land (if Z.land x m =? m then 0xFF else 0x00) 1.

(** Unpacking [n] bytes of [x] into [tmp] and packing [tmp] into [y]. *)
Definition unpack_then_pack (y tmp x : ptr) (n : Z) : M unit :=
  do_ volk_8u_unpack8_8u_generic tmp x n;
  volk_8u_pack8_8u_generic y tmp n.

(** Output cells after [k] turns of the scalar exclusive-or loop. *)
Fixpoint exor_out (k o i0 i1 : nat) (in0 in1 out : list Z) : list Z :=
  match k with
  | O => out
  | S k' => exor_out k' (o + 1) (i0 + 1) (i1 + 1) in0 in1
              (<[o := u8 (Z.lxor (in0 !!! i0) (in1 !!! i1))]> out)
  end.

Fixpoint exor_events (k : nat) (po p0 p1 : ptr) : list event :=
  match k with
  | O => []
  | S k' => exor_events k' (po +ₚ 1) (p0 +ₚ 1) (p1 +ₚ 1) ++ [St po; Ld p1; Ld p0]
  end.

Fixpoint exor_avx_events (k : nat) (po p0 p1 : ptr) : list event :=
  match k with
  | O => []
  | S k' => exor_avx_events k' (po +ₚ 32) (p0 +ₚ 32) (p1 +ₚ 32)
            ++ st_events 32 po ++ ld_events 32 p1 ++ ld_events 32 p0
  end.

(** Base addresses of the blocks; no kernel operation changes them. *)
Definition bases (m : mem) : list Z := base <$> blocks m.

Definition aligned32 (m : mem) (p : ptr) : Prop :=
  exists x, address p m = Some x /\ x mod 32 = 0.

(** ** Implementation variants declared by the kernel headers

    A kernel header declares one function per implementation variant, each
    inside a preprocessor block that tests the [LV_HAVE_...] macros of the
    instruction sets it needs; the variant is named by what follows the
    kernel name in the function name.  [LV_HAVE_GENERIC] is the guard of
    plain C code.  Helper functions outside such blocks ([pack_byte],
    [unpack_byte], the printing helpers) are not variants. *)

Inductive arch := GENERIC | SSSE3 | SSE4_1 | AVX | AVX2 | FMA | NEON | RVV | RVVSEG.

Record impl := Impl { impl_name : string; deps : list arch }.

Record kernel := Kernel { kernel_name : string; impls : list impl }.

Definition volk_32fc_32f_add_32fc : kernel :=
  Kernel "volk_32fc_32f_add_32fc"
    [Impl "generic" [GENERIC]; Impl "u_avx" [AVX]; Impl "a_avx" [AVX];
     Impl "neon" [NEON]; Impl "rvv" [RVV]].

Definition volk_32fc_s32f_atan2_32f : kernel :=
  Kernel "volk_32fc_s32f_atan2_32f"
    [Impl "generic" [GENERIC]; Impl "polynomial" [GENERIC];
     Impl "a_avx2_fma" [AVX2; FMA]; Impl "a_avx2" [AVX2];
     Impl "u_avx2_fma" [AVX2; FMA]; Impl "u_avx2" [AVX2];
     Impl "rvv" [RVV]; Impl "rvvseg" [RVVSEG]].

Definition volk_8u_pack8_8u : kernel :=
  Kernel "volk_8u_pack8_8u"
    [Impl "generic" [GENERIC]; Impl "u_ssse3" [SSSE3]; Impl "a_ssse3" [SSSE3]].

Definition volk_8u_x2_exor_8u : kernel :=
  Kernel "volk_8u_x2_exor_8u"
    [Impl "generic" [GENERIC]; Impl "u_avx" [AVX]; Impl "a_avx" [AVX]].

Definition volk_8u_unpack8_8u : kernel :=
  Kernel "volk_8u_unpack8_8u"
    [Impl "generic" [GENERIC]; Impl "u_ssse3" [SSSE3]].

Definition volk_32f_asin_32f : kernel :=
  Kernel "volk_32f_asin_32f"
    [Impl "a_avx2_fma" [AVX2; FMA]; Impl "a_avx" [AVX]; Impl "a_sse4_1" [SSE4_1];
     Impl "u_avx2_fma" [AVX2; FMA]; Impl "u_avx" [AVX]; Impl "u_sse4_1" [SSE4_1];
     Impl "generic" [GENERIC]; Impl "rvv" [RVV]].

Definition volk_8u_pack8puppet_8u : kernel :=
  Kernel "volk_8u_pack8puppet_8u"
    [Impl "generic" [GENERIC]; Impl "u_ssse3" [SSSE3]; Impl "a_ssse3" [SSSE3]].

Definition volk_8u_unpack8puppet_8u : kernel :=
  Kernel "volk_8u_unpack8puppet_8u"
    [Impl "generic" [GENERIC]; Impl "u_ssse3" [SSSE3]].

(** The kernel headers of the repository. *)
Definition kernels : list kernel :=
  [volk_32fc_32f_add_32fc; volk_32fc_s32f_atan2_32f; volk_8u_pack8_8u;
   volk_8u_x2_exor_8u; volk_8u_unpack8_8u; volk_32f_asin_32f;
   volk_8u_pack8puppet_8u; volk_8u_unpack8puppet_8u].

Definition is_generic_arch (a : arch) : bool :=
  match a with GENERIC => true | _ => false end.

(** A variant needs no instruction-set extension when every macro of its
    guard is [LV_HAVE_GENERIC]. *)
Definition extension_free (i : impl) : bool := forallb is_generic_arch (deps i).

Definition count_extension_free (k : kernel) : nat :=
  length (filter (fun i => extension_free i = true) (impls k)).

Definition count_named (name : string) (k : kernel) : nat :=
  length (filter (fun i => impl_name i = name) (impls k)).

(** ** Selector *)

Module Selector.

(** Modelled from the spec: the Selector, its data model (Extension,
    AlignmentRequirement, Variant, Kernel Descriptor, Capability Set) and
    its [rank] operation are not among the sources; the definitions follow
    sections 3 and 4.2 of the specification. *)

Definition Extension := string.

Inductive AlignmentRequirement := AlignNone | RequiresAligned.

Record Variant := {
  impl_name : string;
  required_extension : option Extension;
  alignment : AlignmentRequirement
}.

Record KernelDescriptor := {
  operation_name : string;
  variants : list Variant
}.

Record CapabilitySet := {
  extensions : gset Extension;
  alignment_boundary : positive
}.

Inductive rank_result :=
| Ranked (l : list Variant)
| RegistryInvariantViolation.

(** Registry invariant: exactly one variant has no required extension. *)
Definition is_fallback (v : Variant) : bool :=
  match required_extension v with None => true | Some _ => false end.

Definition registry_invariant (d : KernelDescriptor) : Prop :=
  length (filter (fun v => is_fallback v = true) (variants d)) = 1%nat.

(** Step 1: the required extension is absent or supported. *)
Definition extension_ok (caps : CapabilitySet) (v : Variant) : bool :=
  match required_extension v with
  | None => true
  | Some e => bool_decide (e ∈ extensions caps)
  end.

(** Step 2: without an alignment guarantee, aligned-only variants are
    excluded. *)
Definition alignment_ok (hint : AlignmentRequirement) (v : Variant) : bool :=
  match hint, alignment v with
  | AlignNone, RequiresAligned => false
  | _, _ => true
  end.

Section Rank.
(** Topological ranking of the extension preference graph: a dominant
    extension has the larger rank. *)
Variable topo_rank : Extension -> nat.

Definition preference (v : Variant) : nat :=
  match required_extension v with
  | None => O
  | Some e => S (topo_rank e)
  end.

(** Step 3: stable insertion by descending preference, so that ties
    keep the declaration order. *)
Fixpoint insert_by_preference (v : Variant) (l : list Variant) : list Variant :=
  match l with
  | [] => [v]
  | w :: l' =>
      if (preference v <? preference w)%nat
      then w :: insert_by_preference v l'
      else v :: w :: l'
  end.

Definition sort_by_preference (l : list Variant) : list Variant :=
  foldr insert_by_preference [] l.

(** Modelled from the spec: the Selector is not among the sources; the
    three steps and the edge case follow section 4.2. *)
Definition rank (d : KernelDescriptor) (caps : CapabilitySet)
    (hint : AlignmentRequirement) : rank_result :=
  let supported := filter (fun v => extension_ok caps v = true) (variants d) in
  match supported with
  | [] => RegistryInvariantViolation
  | _ =>
      let eligible := filter (fun v => alignment_ok hint v = true) supported in
      Ranked (sort_by_preference eligible)
  end.
End Rank.

(** A variant without required extension that the alignment hint admits. *)
Definition has_usable_fallback (d : KernelDescriptor) (hint : AlignmentRequirement) : bool :=
  existsb (fun v => is_fallback v && alignment_ok hint v) (variants d).

(** A descriptor whose only variant is an aligned-only generic one. *)
Definition aligned_only_generic : KernelDescriptor :=
  {| operation_name := "op";
     variants := [ {| impl_name := "generic"; required_extension := None;
                      alignment := RequiresAligned |} ] |}.

Definition no_extensions : CapabilitySet :=
  {| extensions := ∅; alignment_boundary := 32 |}.

(** The descriptor of the end-to-end scenario of the specification. *)
Definition generic_and_fast : KernelDescriptor :=
  {| operation_name := "op";
     variants := [ {| impl_name := "generic"; required_extension := None;
                      alignment := AlignNone |};
                   {| impl_name := "fast"; required_extension := Some "X";
                      alignment := AlignNone |} ] |}.

End Selector.

(** ** Profiling harness

    Both benchmark functions allocate [ref_length] elements per buffer,
    advance the data pointers by one element for implementations that are
    not aligned, and call the kernel on [vector_length] elements.  The
    record keeps, per buffer, the number of elements allocated, the element
    offset of the pointer handed to the kernel, and the length handed to
    the kernel. *)

Record bench_buffers := {
  allocated : Z;
  ptr_offset : Z;
  call_length : Z
}.

(** [impl_name.find(needle) != std::string::npos] *)
Definition contains (needle s : string) : bool :=
  match String.index 0 needle s with
  | Some _ => true
  | None => false
  end.

Definition BM_volk_32fc_x2_multiply_32fc (impl_name : string) (vector_length : Z)
    : bench_buffers :=
  let is_aligned := false in
  let ref_length := vector_length in
  let '(is_aligned, ref_length) :=
    if contains "a_" impl_name then (true, size_t (ref_length + 1))
    else (is_aligned, ref_length) in
  let res_ptr := 0 in
  let res_ptr := if negb is_aligned then res_ptr + 1 else res_ptr in
  {| allocated := ref_length; ptr_offset := res_ptr; call_length := vector_length |}.

Definition BM_volk_32f_s32f_multiply_32f (impl_name : string) (vector_length : Z)
    : bench_buffers :=
  let is_aligned := false in
  let ref_length := vector_length in
  let '(is_aligned, ref_length) :=
    if contains "a_" impl_name then (true, size_t (ref_length + 1))
    else (is_aligned, ref_length) in
  let res_ptr := 0 in
  let res_ptr := if negb is_aligned then res_ptr + 1 else res_ptr in
  {| allocated := ref_length; ptr_offset := res_ptr; call_length := vector_length |}.

(** Modelled from the spec: the multiply kernels are not among the sources;
    a kernel called with a pointer and a length reads or writes the
    elements [0 .. length - 1] from that pointer. *)
Definition accessed (b : bench_buffers) (index : Z) : Prop :=
  ptr_offset b <= index < ptr_offset b + call_length b.

Definition in_bounds (b : bench_buffers) : Prop :=
  forall index, accessed b index -> index < allocated b.

(** ** volk_8u_pack8_8u, aligned variant, and the remaining puppets *)

Definition _mm_load_si128 (p : ptr) : M (list Z) :=
  do_ require_aligned 16 p; load_bytes 16 p.

Definition pack_a_ssse3_body : Z * ptr * ptr -> M (Z * ptr * ptr) :=
  let reverse_mask := _mm_set_epi8 8 9 10 11 12 13 14 15 0 1 2 3 4 5 6 7 in
  let bit_mask := _mm_set_epi8 0x01 0x01 0x01 0x01 0x01 0x01 0x01 0x01
                               0x01 0x01 0x01 0x01 0x01 0x01 0x01 0x01 in
  fun '(byte, inputPtr, outputPtr) =>
    do loaded <- _mm_load_si128 inputPtr;
    let reversed := _mm_shuffle_epi8 loaded reverse_mask in
    let masked := _mm_and_si128 reversed bit_mask in
    let compared := _mm_cmpeq_epi8 masked bit_mask in
    do_ store_u16 outputPtr (_mm_movemask_epi8 compared);
    let outputPtr := outputPtr +ₚ 2 in
    let inputPtr := inputPtr +ₚ 16 in
    ret (u32 (byte + 2), inputPtr, outputPtr).

Definition volk_8u_pack8_8u_a_ssse3 (out_buf in_buf : ptr) (num_bytes : Z) : M unit :=
  let fast_num_bytes := Z.land num_bytes 0xFFFFFFFE in
  let byte := 0 in
  let inputPtr := in_buf in
  let outputPtr := out_buf in
  do s <- while (fuel_for num_bytes)
        (fun '(byte, _, _) => byte <? fast_num_bytes)
        pack_a_ssse3_body
        (byte, inputPtr, outputPtr);
  do_ while (fuel_for num_bytes)
        (fun '(byte, _, _) => byte <? num_bytes)
        pack_scalar_body
        s;
  ret tt.

Definition volk_8u_pack8puppet_8u_u_ssse3 (out_buf in_buf : ptr) (num_bytes : Z) : M unit :=
  volk_8u_pack8_8u_u_ssse3 out_buf in_buf (num_bytes / 8).

Definition volk_8u_pack8puppet_8u_a_ssse3 (out_buf in_buf : ptr) (num_bytes : Z) : M unit :=
  volk_8u_pack8_8u_a_ssse3 out_buf in_buf (num_bytes / 8).

Definition volk_8u_unpack8puppet_8u_generic (out_buf in_buf : ptr) (num_bytes : Z) : M unit :=
  volk_8u_unpack8_8u_generic out_buf in_buf (num_bytes / 8).

Definition volk_8u_unpack8puppet_8u_u_ssse3 (out_buf in_buf : ptr) (num_bytes : Z) : M unit :=
  volk_8u_unpack8_8u_u_ssse3 out_buf in_buf (num_bytes / 8).

Definition aligned16 (m : mem) (p : ptr) : Prop :=
  exists x, address p m = Some x /\ x mod 16 = 0.

(** Packing [n] bytes from [x] into [tmp] and unpacking [tmp] into [y]. *)
Definition pack_then_unpack (y tmp x : ptr) (n : Z) : M unit :=
  do_ volk_8u_pack8_8u_generic tmp x n;
  volk_8u_unpack8_8u_generic y tmp n.

(** Exclusive or of [a] and [b] into [tmp], then of [tmp] and [b] into [y]. *)
Definition exor_twice (y tmp a b : ptr) (n : Z) : M unit :=
  do_ volk_8u_x2_exor_8u_generic tmp a b n;
  volk_8u_x2_exor_8u_generic y tmp b n.

(** ** Memory envelope of a kernel call *)

(** Block sizes; no kernel operation changes them. *)
Definition sizes (m : mem) : list nat := (fun b => length (cells b)) <$> blocks m.

(** The pointer lies inside its block. *)
Definition in_block (m : mem) (p : ptr) : Prop :=
  exists n, sizes m !! blk p = Some n /\ (off p < n)%nat.

(** An access inside a block of [m] that, when it is a store, goes to
    block [b]. *)
Definition event_within (b : nat) (m : mem) (e : event) : Prop :=
  match e with
  | Ld p => in_block m p
  | St p => in_block m p /\ blk p = b
  end.

(** [m'] comes from [m] by accesses that stay inside the blocks and write
    to block [b] only: the other blocks hold what they held, no block moved
    or changed its size. *)
Definition frame (b : nat) (m m' : mem) : Prop :=
  (forall j, j ≠ b -> blocks m' !! j = blocks m !! j) /\
  sizes m' = sizes m /\ bases m' = bases m /\
  exists ev, trace m' = ev ++ trace m /\ Forall (event_within b m) ev.

(** The command never runs out of fuel, and when it returns it has stayed
    within [frame b] and its result satisfies [Q]. *)
Definition runs_within {A} (b : nat) (Q : A -> Prop) (c : M A) : Prop :=
  forall m, match c m with
            | Done a m' => frame b m m' /\ Q a
            | Fault => True
            | Timeout => False
            end.

(** [n] cells are available from [p] in a memory whose blocks have the
    sizes [sz]. *)
Definition room (sz : list nat) (p : ptr) (n : nat) : bool :=
  match sz !! blk p with
  | Some s => (off p + n <=? s)%nat
  | None => false
  end.

(** Whether the command returns or faults is decided by the block sizes
    alone: with [ok] it returns, keeps the sizes and its result satisfies
    [Q]; without, it faults. *)
Definition outcome_by {A} (sz : list nat) (ok : bool) (Q : A -> Prop) (c : M A) : Prop :=
  forall m, sizes m = sz ->
    if ok then exists a m', c m = Done a m' /\ sizes m' = sz /\ Q a
    else c m = Fault.

(** The state after [k] turns of a loop whose turn maps [s] to [next s],
    and whether each of these turns has the room it needs. *)
Fixpoint after_turns {S} (next : S -> S) (k : nat) (s : S) : S :=
  match k with
  | O => s
  | Datatypes.S k' => after_turns next k' (next s)
  end.

Fixpoint turns_ok {S} (next : S -> S) (turn_ok : S -> bool) (k : nat) (s : S) : bool :=
  match k with
  | O => true
  | Datatypes.S k' => turn_ok s && turns_ok next turn_ok k' (next s)
  end.

(** The state after one turn of each loop, when the turn returns. *)
Definition exor_next (d : nat) (s : Z * ptr * ptr * ptr) : Z * ptr * ptr * ptr :=
  let '(i, outputVector, inputVector0, inputVector1) := s in
  (s32 (i + Z.of_nat d), outputVector +ₚ d, inputVector0 +ₚ d, inputVector1 +ₚ d).

Definition exor_turn_ok (sz : list nat) (d : nat) (s : Z * ptr * ptr * ptr) : bool :=
  let '(_, outputVector, inputVector0, inputVector1) := s in
  room sz inputVector0 d && room sz inputVector1 d && room sz outputVector d.

Definition byte_next (d d_in d_out : nat) (s : Z * ptr * ptr) : Z * ptr * ptr :=
  let '(byte, inputPtr, outputPtr) := s in
  (u32 (byte + Z.of_nat d), inputPtr +ₚ d_in, outputPtr +ₚ d_out).

Definition byte_turn_ok (sz : list nat) (d_in d_out : nat) (s : Z * ptr * ptr) : bool :=
  let '(_, inputPtr, outputPtr) := s in
  room sz inputPtr d_in && room sz outputPtr d_out.

(** The room a call needs: none for an empty call, otherwise the whole
    range behind each pointer. *)
Definition exor_room (m : mem) (outputVector inputVector0 inputVector1 : ptr)
    (num_bytes : Z) : bool :=
  (num_bytes =? 0)
  || room (sizes m) inputVector0 (Z.to_nat num_bytes)
     && room (sizes m) inputVector1 (Z.to_nat num_bytes)
     && room (sizes m) outputVector (Z.to_nat num_bytes).

Definition pack8_room (m : mem) (out_buf in_buf : ptr) (num_bytes : Z) : bool :=
  (num_bytes =? 0)
  || room (sizes m) in_buf (8 * Z.to_nat num_bytes)
     && room (sizes m) out_buf (Z.to_nat num_bytes).

Definition unpack8_room (m : mem) (out_buf in_buf : ptr) (num_bytes : Z) : bool :=
  (num_bytes =? 0)
  || room (sizes m) in_buf (Z.to_nat num_bytes)
     && room (sizes m) out_buf (8 * Z.to_nat num_bytes).

(** Loop invariants and loop measures used for the envelope: the output
    pointer stays in block [b], and [bound] minus the counter decreases. *)
Definition pack_inv (b : nat) (s : Z * ptr * ptr) : Prop :=
  let '(byte, _, outputPtr) := s in 0 <= byte /\ blk outputPtr = b.

Definition pack_left (bound : Z) (s : Z * ptr * ptr) : nat :=
  let '(byte, _, _) := s in Z.to_nat (bound - byte).

Definition exor_inv (b : nat) (s : Z * ptr * ptr * ptr) : Prop :=
  let '(_, outputVector, _, _) := s in blk outputVector = b.

Definition exor_left (bound : Z) (s : Z * ptr * ptr * ptr) : nat :=
  let '(i, _, _, _) := s in Z.to_nat (bound - u32 i).

(** Cells after [k] turns of the scalar exclusive-or loop run in place:
    the output buffer is also the first input. *)
Fixpoint exor_inplace_out (k o i1 : nat) (in1 out : list Z) : list Z :=
  match k with
  | O => out
  | S k' => exor_inplace_out k' (o + 1) (i1 + 1) in1
              (<[o := u8 (Z.lxor (out !!! o) (in1 !!! i1))]> out)
  end.


(** ** Command-line arguments of the profiling program *)

(** [s.substr(pos)]: the characters of [s] from position [pos] to the end. *)
Definition substr (pos : nat) (s : string) : string :=
  String.substring pos (String.length s - pos) s.

Definition get_argument_value (arg_text arg_name : string) : string :=
  let flag_name := ("--" +:+ arg_name) +:+ "=" in
  let flag_pos := String.index 0 flag_name arg_text in
  match flag_pos with
  | None => EmptyString
  | Some flag_pos => substr (flag_pos + String.length flag_name) arg_text
  end.

Section VectorLength.

(** [std::stoi] belongs to the C++ library: it is a parameter here, giving
    the parsed [int], or [None] when it throws. *)
Variable stoi : string -> option Z.

Definition parse_int_argument_value (arg_value : string) : option Z :=
  stoi arg_value.

(** The loop over [argv[0 .. argc - 1]]; the [int] that was parsed is
    converted to [size_t] by the assignment to [vector_length]. *)
Fixpoint find_vector_length_argument (argv : list string) : option Z :=
  let vector_length := 131071 in
  match argv with
  | [] => Some vector_length
  | arg :: argv' =>
      let s := get_argument_value arg "vlen" in
      if (0 <? String.length s)%nat
      then match parse_int_argument_value s with
           | Some v => Some (size_t v)
           | None => None
           end
      else find_vector_length_argument argv'
  end.

End VectorLength.

(** ** In-place runs of the profiling harness

    The in-place benchmarks allocate the inputs only and pass the first
    input as the output.  [initialize_random_complex_vector] and
    [initialize_random_float_vector] take the length as [const unsigned
    size]; [allocated] is the length of the first input. *)



(* ===================================================================== *)
(** * Part II: properties *)
(* ===================================================================== *)

(** ** Integers *)

Lemma u8_small z : 0 <= z < 256 -> u8 z = z.
Proof. intros H. unfold u8. apply Z.mod_small. lia. Qed.

Lemma u32_small z : 0 <= z < 2 ^ 32 -> u32 z = z.
Proof. intros H. unfold u32. apply Z.mod_small. lia. Qed.

Lemma u32_s32 z : u32 (s32 z) = u32 z.
Proof.
  unfold u32, s32.
  change (2 ^ 32) with 4294967296. change (2 ^ 31) with 2147483648.
  Z.div_mod_to_equations. lia.
Qed.

Lemma land_1_cases x : Z.land x 1 = 0 \/ Z.land x 1 = 1.
Proof.
  pose proof (Z.land_ones x 1 ltac:(lia)) as H.
  change (Z.ones 1) with 1 in H. change (2 ^ 1) with 2 in H.
  rewrite H. pose proof (Z.mod_pos_bound x 2). lia.
Qed.

(** ** The monad *)

Lemma bind_done {A B} (c : M A) (f : A -> M B) m a m' :
  c m = Done a m' -> bind c f m = f a m'.
Proof. intros H. unfold bind. by rewrite H. Qed.

Lemma ptr_add_Ptr b o n : Ptr b o +ₚ n = Ptr b (o + n).
Proof. reflexivity. Qed.

Lemma take8_drop (l : list Z) i :
  (i + 8 <= length l)%nat ->
  exists x0 x1 x2 x3 x4 x5 x6 x7,
    take 8 (drop i l) = [x0; x1; x2; x3; x4; x5; x6; x7].
Proof.
  intros H.
  assert (Hl : length (take 8 (drop i l)) = 8%nat).
  { rewrite length_take, length_drop. lia. }
  destruct (take 8 (drop i l)) as [|x0 [|x1 [|x2 [|x3 [|x4 [|x5 [|x6 [|x7 [|? ?]]]]]]]]];
    try discriminate Hl.
  by exists x0, x1, x2, x3, x4, x5, x6, x7.
Qed.

Lemma take_drop_lookup (l : list Z) i n k :
  (k < n)%nat -> l !! (i + k)%nat = take n (drop i l) !! k.
Proof. intros H. rewrite lookup_take_lt by done. by rewrite lookup_drop. Qed.

Lemma pack_fold_ok x0 x1 x2 x3 x4 x5 x6 x7 :
  u8 (Z.lor (u8 (Z.lor (u8 (Z.lor (u8 (Z.lor (u8 (Z.lor (u8 (Z.lor (u8 (Z.lor (u8 (Z.lor (u8 0)
    (Z.shiftl (Z.land x0 1) 7))) (Z.shiftl (Z.land x1 1) 6))) (Z.shiftl (Z.land x2 1) 5)))
    (Z.shiftl (Z.land x3 1) 4))) (Z.shiftl (Z.land x4 1) 3))) (Z.shiftl (Z.land x5 1) 2)))
    (Z.shiftl (Z.land x6 1) 1))) (Z.land x7 1))
  = pack_bits [x0; x1; x2; x3; x4; x5; x6; x7].
Proof.
  unfold pack_bits. cbn [foldl].
  destruct (land_1_cases x0) as [-> | ->], (land_1_cases x1) as [-> | ->],
    (land_1_cases x2) as [-> | ->], (land_1_cases x3) as [-> | ->],
    (land_1_cases x4) as [-> | ->], (land_1_cases x5) as [-> | ->],
    (land_1_cases x6) as [-> | ->], (land_1_cases x7) as [-> | ->]; reflexivity.
Qed.

Lemma pack_out_length k : forall o i inb out, length (pack_out k o i inb out) = length out.
Proof.
  induction k as [|k IH]; intros o i inb out; cbn [pack_out]; [done|].
  by rewrite IH, length_insert.
Qed.

Lemma pack_out_add a : forall b o i inb out,
  pack_out b (o + a) (i + 8 * a) inb (pack_out a o i inb out) = pack_out (a + b) o i inb out.
Proof.
  induction a as [|a IH]; intros b o i inb out.
  - cbn [pack_out Nat.add]. by rewrite Nat.mul_0_r, !Nat.add_0_r.
  - cbn [pack_out Nat.add]. rewrite <- IH. f_equal; lia.
Qed.

Lemma movemask_app l1 l2 :
  _mm_movemask_epi8 (l1 ++ l2)
  = _mm_movemask_epi8 l1 + 2 ^ Z.of_nat (length l1) * _mm_movemask_epi8 l2.
Proof.
  unfold _mm_movemask_epi8. induction l1 as [|x l1 IH]; cbn [app foldr length].
  - change (2 ^ Z.of_nat 0) with 1. lia.
  - rewrite IH, Nat2Z.inj_succ, Z.pow_succ_r by lia. lia.
Qed.

Lemma pack_bits_bound_aux l : forall acc,
  0 <= acc ->
  0 <= foldl (fun acc x => 2 * acc + Z.land x 1) acc l < (acc + 1) * 2 ^ Z.of_nat (length l).
Proof.
  induction l as [|x l IH]; intros acc Hacc; cbn [foldl length].
  - change (2 ^ Z.of_nat 0) with 1. lia.
  - assert (Hb : 0 <= Z.land x 1 <= 1) by (destruct (land_1_cases x); lia).
    specialize (IH (2 * acc + Z.land x 1) ltac:(lia)).
    rewrite Nat2Z.inj_succ, Z.pow_succ_r by lia.
    assert (0 < 2 ^ Z.of_nat (length l)) by (apply Z.pow_pos_nonneg; lia). nia.
Qed.

Lemma pack_bits_bound l : 0 <= pack_bits l < 2 ^ Z.of_nat (length l).
Proof. pose proof (pack_bits_bound_aux l 0 ltac:(lia)) as H. unfold pack_bits. lia. Qed.

Lemma movemask_cmp8 x0 x1 x2 x3 x4 x5 x6 x7 :
  _mm_movemask_epi8 (cmp_lsb <$> [x7; x6; x5; x4; x3; x2; x1; x0])
  = pack_bits [x0; x1; x2; x3; x4; x5; x6; x7].
Proof.
  unfold pack_bits, _mm_movemask_epi8, cmp_lsb. cbn [foldl foldr fmap list_fmap].
  destruct (land_1_cases x0) as [-> | ->], (land_1_cases x1) as [-> | ->],
    (land_1_cases x2) as [-> | ->], (land_1_cases x3) as [-> | ->],
    (land_1_cases x4) as [-> | ->], (land_1_cases x5) as [-> | ->],
    (land_1_cases x6) as [-> | ->], (land_1_cases x7) as [-> | ->]; reflexivity.
Qed.

Lemma pack_ssse3_compared x0 x1 x2 x3 x4 x5 x6 x7 x8 x9 x10 x11 x12 x13 x14 x15 :
  _mm_cmpeq_epi8
    (_mm_and_si128
       (_mm_shuffle_epi8 [x0; x1; x2; x3; x4; x5; x6; x7; x8; x9; x10; x11; x12; x13; x14; x15]
          pack_reverse_mask)
       (_mm_set1_epi8 0x01))
    (_mm_set1_epi8 0x01)
  = (cmp_lsb <$> [x7; x6; x5; x4; x3; x2; x1; x0])
    ++ (cmp_lsb <$> [x15; x14; x13; x12; x11; x10; x9; x8]).
Proof. reflexivity. Qed.

Lemma split_u16 lo hi :
  0 <= lo < 256 -> 0 <= hi < 256 ->
  u8 (u16 (lo + 2 ^ 8 * hi)) = lo /\ u8 (Z.shiftr (u16 (lo + 2 ^ 8 * hi)) 8) = hi.
Proof.
  intros Hlo Hhi. unfold u8, u16. rewrite Z.shiftr_div_pow2 by lia.
  change (2 ^ 8) with 256. change (2 ^ 16) with 65536.
  Z.div_mod_to_equations. lia.
Qed.

Lemma take16_drop (l : list Z) i :
  (i + 16 <= length l)%nat ->
  take 16 (drop i l) = take 8 (drop i l) ++ take 8 (drop (i + 8) l).
Proof. intros _. rewrite <- drop_drop. by rewrite take_take_drop. Qed.

Lemma pack_ssse3_lanes (inb : list Z) i c :
  (i + 16 <= length inb)%nat ->
  c = _mm_cmpeq_epi8
        (_mm_and_si128 (_mm_shuffle_epi8 (take 16 (drop i inb)) pack_reverse_mask)
           (_mm_set1_epi8 0x01))
        (_mm_set1_epi8 0x01) ->
  u8 (u16 (_mm_movemask_epi8 c)) = pack_bits (take 8 (drop i inb)) /\
  u8 (Z.shiftr (u16 (_mm_movemask_epi8 c)) 8) = pack_bits (take 8 (drop (i + 8) inb)).
Proof.
  intros Hi ->. rewrite take16_drop by done.
  destruct (take8_drop inb i ltac:(lia)) as (x0 & x1 & x2 & x3 & x4 & x5 & x6 & x7 & ->).
  destruct (take8_drop inb (i + 8) ltac:(lia)) as (y0 & y1 & y2 & y3 & y4 & y5 & y6 & y7 & ->).
  cbn [app]. rewrite pack_ssse3_compared.
  rewrite movemask_app, !movemask_cmp8. cbn [length fmap list_fmap].
  apply split_u16.
  - apply (pack_bits_bound [x0; x1; x2; x3; x4; x5; x6; x7]).
  - apply (pack_bits_bound [y0; y1; y2; y3; y4; y5; y6; y7]).
Qed.

Lemma land_fffffffe n : 0 <= n < 2 ^ 32 -> Z.land n 0xFFFFFFFE = 2 * (n / 2).
Proof.
  intros Hn. apply Z.bits_inj'. intros j Hj.
  rewrite Z.land_spec.
  change 0xFFFFFFFE with (Z.shiftl (Z.ones 31) 1).
  replace (2 * (n / 2)) with (Z.shiftl (Z.shiftr n 1) 1)
    by (rewrite Z.shiftl_mul_pow2, Z.shiftr_div_pow2 by lia; change (2 ^ 1) with 2; lia).
  rewrite !Z.shiftl_spec by lia.
  destruct (Z.eq_dec j 0) as [->|Hj0].
  - rewrite (Z.testbit_neg_r (Z.ones 31)), (Z.testbit_neg_r (Z.shiftr n 1)) by lia.
    apply andb_false_r.
  - rewrite Z.shiftr_spec by lia. replace (j - 1 + 1) with j by lia.
    rewrite Z.testbit_ones by lia.
    destruct (Z.ltb_spec (j - 1) 31) as [Hlt|Hge].
    + replace (0 <=? j - 1) with true by (symmetry; apply Z.leb_le; lia).
      apply andb_true_r.
    + rewrite andb_false_r, andb_false_r. symmetry.
      destruct (Z.eq_dec n 0) as [->|Hn0]; [apply Z.testbit_0_l|].
      apply Z.bits_above_log2; [lia|].
      assert (Z.log2 n < 32) by (apply Z.log2_lt_pow2; lia). lia.
Qed.

(** ** Closed form of the packed output and footprint of the packing loop *)

Lemma pack_out_closed k : forall o i inb out,
  (o + k <= length out)%nat ->
  pack_out k o i inb out
  = take o out ++ (pack_bits <$> chunks8 k (drop i inb)) ++ drop (o + k) out.
Proof.
  induction k as [|k IH]; intros o i inb out Ho; cbn [pack_out chunks8 fmap list_fmap].
  - rewrite Nat.add_0_r. cbn [app]. by rewrite take_drop.
  - rewrite IH by (rewrite length_insert; lia).
    rewrite drop_drop.
    rewrite (insert_take_drop out o) by lia.
    rewrite take_app_add' by (rewrite length_take; lia).
    replace (o + 1 + k)%nat with (o + (1 + k))%nat by lia.
    rewrite drop_app_add' by (rewrite length_take; lia).
    cbn [take drop Nat.add]. rewrite drop_drop, <- app_assoc. cbn [app].
    by replace (S o + k)%nat with (o + S k)%nat by lia.
Qed.

Lemma chunks8_lookup k : forall (l : list Z) j,
  (j < k)%nat -> chunks8 k l !! j = Some (take 8 (drop (8 * j) l)).
Proof.
  induction k as [|k IH]; intros l j Hj; [lia|].
  destruct j as [|j]; cbn [chunks8 lookup list_lookup].
  - done.
  - rewrite IH by lia. rewrite drop_drop. do 3 f_equal. lia.
Qed.

Lemma chunks8_length k l : length (chunks8 k l) = k.
Proof. revert l. induction k as [|k IH]; intros l; cbn [chunks8 length]; by rewrite ?IH. Qed.

Lemma pack_bits_bit (l : list Z) (k : nat) x :
  length l = 8%nat -> l !! k = Some x ->
  Z.b2z (Z.testbit (pack_bits l) (7 - Z.of_nat k)) = Z.land x 1.
Proof.
  intros Hl Hk.
  destruct l as [|x0 [|x1 [|x2 [|x3 [|x4 [|x5 [|x6 [|x7 [|? ?]]]]]]]]]; try discriminate Hl.
  unfold pack_bits. cbn [foldl].
  do 8 (destruct k as [|k];
        [injection Hk as <-;
         destruct (land_1_cases x0) as [-> | ->], (land_1_cases x1) as [-> | ->],
           (land_1_cases x2) as [-> | ->], (land_1_cases x3) as [-> | ->],
           (land_1_cases x4) as [-> | ->], (land_1_cases x5) as [-> | ->],
           (land_1_cases x6) as [-> | ->], (land_1_cases x7) as [-> | ->]; reflexivity|]).
  discriminate Hk.
Qed.

Lemma stores_app tr1 tr2 : stores (tr1 ++ tr2) = stores tr1 ++ stores tr2.
Proof.
  induction tr1 as [|[p|p] tr1 IH]; cbn [stores app]; by rewrite ?IH.
Qed.

Lemma loads_app tr1 tr2 : loads (tr1 ++ tr2) = loads tr1 ++ loads tr2.
Proof.
  induction tr1 as [|[p|p] tr1 IH]; cbn [loads app]; by rewrite ?IH.
Qed.

Lemma ptr_add_add p a b : p +ₚ a +ₚ b = p +ₚ (a + b).
Proof. unfold ptr_add. cbn [blk off]. f_equal. lia. Qed.

Lemma ptr_add_0 p : p +ₚ 0 = p.
Proof. destruct p. unfold ptr_add. cbn [blk off]. f_equal. lia. Qed.

Lemma pack_events_stores k : forall po pi p,
  p ∈ stores (pack_events k po pi) <-> exists j, (j < k)%nat /\ p = po +ₚ j.
Proof.
  induction k as [|k IH]; intros po pi p; cbn [pack_events stores].
  - rewrite elem_of_nil. split; [done|]. intros (j & Hj & _). lia.
  - rewrite stores_app, elem_of_app, IH. cbn [pack_byte_events stores].
    rewrite !elem_of_cons, elem_of_nil. split.
    + intros [(j & Hj & ->)|H].
      * exists (1 + j)%nat. split; [lia|]. by rewrite ptr_add_add.
      * exists 0%nat. split; [lia|]. rewrite ptr_add_0. by destruct_or!.
    + intros ([|j] & Hj & ->).
      * right. left. by rewrite ptr_add_0.
      * left. exists j. split; [lia|]. by rewrite ptr_add_add.
Qed.

Lemma pack_events_loads k : forall po pi p,
  p ∈ loads (pack_events k po pi)
  <-> (exists j, (j < k)%nat /\ p = po +ₚ j) \/ (exists j, (j < 8 * k)%nat /\ p = pi +ₚ j).
Proof.
  induction k as [|k IH]; intros po pi p; cbn [pack_events loads].
  - rewrite elem_of_nil. split; [done|]. intros [(j & Hj & _)|(j & Hj & _)]; lia.
  - rewrite loads_app, elem_of_app, IH. cbn [pack_byte_events loads].
    rewrite !elem_of_cons, elem_of_nil. split.
    + intros [[(j & Hj & ->)|(j & Hj & ->)]|H].
      * left. exists (1 + j)%nat. split; [lia|]. by rewrite ptr_add_add.
      * right. exists (8 + j)%nat. split; [lia|]. by rewrite ptr_add_add.
      * destruct H as [->|[->|[->|[->|[->|[->|[->|[->|[->|[->|[->|[->|[->|[->|[->|[->|[]]]]]]]]]]]]]]]]];
          first [ left; exists 0%nat; split; [lia|]; by rewrite ptr_add_0
                | right; eexists; split; [|reflexivity]; lia
                | right; exists 0%nat; split; [lia|]; by rewrite ptr_add_0 ].
    + intros [([|j] & Hj & ->)|(j & Hj & ->)].
      * right. left. by rewrite ptr_add_0.
      * left. left. exists j. split; [lia|]. by rewrite ptr_add_add.
      * destruct (decide (j < 8)%nat) as [Hlt|Hge].
        -- right.
           do 8 (destruct j as [|j]; [rewrite ?ptr_add_0; repeat (first [by left | right])|]). lia.
        -- left. right. exists (j - 8)%nat. split; [lia|].
           rewrite ptr_add_add. f_equal. lia.
Qed.

(** ** Bit-level facts of unpacking *)

Lemma land_pow2_cases x k : 0 <= k -> Z.land x (2 ^ k) = if Z.testbit x k then 2 ^ k else 0.
Proof.
  intros Hk. apply Z.bits_inj'. intros j Hj.
  rewrite Z.land_spec, Z.pow2_bits_eqb by done.
  destruct (Z.eqb_spec k j) as [<-|Hne].
  - destruct (Z.testbit x k) eqn:Hx; cbn [andb];
      [by rewrite Z.pow2_bits_true|by rewrite Z.bits_0].
  - rewrite andb_false_r.
    destruct (Z.testbit x k); [by rewrite Z.pow2_bits_false|by rewrite Z.bits_0].
Qed.

Lemma shiftr_land_pow2 x k m :
  0 <= k -> m = 2 ^ k -> Z.shiftr (Z.land x m) k = Z.b2z (Z.testbit x k).
Proof.
  intros Hk ->. rewrite land_pow2_cases by done.
  destruct (Z.testbit x k); cbn [Z.b2z].
  - rewrite Z.shiftr_div_pow2 by done. apply Z.div_same.
    assert (0 < 2 ^ k) by (apply Z.pow_pos_nonneg; lia). lia.
  - apply Z.shiftr_0_l.
Qed.

Lemma land_1_bit x : Z.land x 1 = Z.b2z (Z.testbit x 0).
Proof.
  pose proof (shiftr_land_pow2 x 0 1 ltac:(lia) eq_refl) as H.
  by rewrite Z.shiftr_0_r in H.
Qed.

Lemma bit_lane_pow2 x k m :
  0 <= k -> m = 2 ^ k -> bit_lane x m = Z.b2z (Z.testbit x k).
Proof.
  intros Hk ->. unfold bit_lane. rewrite land_pow2_cases by done.
  assert (0 < 2 ^ k) by (apply Z.pow_pos_nonneg; lia).
  destruct (Z.testbit x k); cbn [Z.b2z].
  - by rewrite Z.eqb_refl.
  - by replace (0 =? 2 ^ k) with false by (symmetry; apply Z.eqb_neq; lia).
Qed.

Lemma b2z_byte (b : bool) : u8 (Z.b2z b) = Z.b2z b.
Proof. by destruct b. Qed.

Lemma unpack_bits_u8 x : u8 <$> unpack_bits x = unpack_bits x.
Proof. unfold unpack_bits. cbn [fmap list_fmap]. by rewrite !b2z_byte. Qed.

Lemma unpack_bits_length x : length (unpack_bits x) = 8%nat.
Proof. reflexivity. Qed.

Lemma s16_bytes a b :
  is_byte a -> is_byte b ->
  u8 (s16 (a + 256 * b)) = a /\ u8 (Z.shiftr (s16 (a + 256 * b)) 8) = b.
Proof.
  unfold is_byte, u8, s16. intros Ha Hb. rewrite Z.shiftr_div_pow2 by lia.
  change (2 ^ 8) with 256. change (2 ^ 16) with 65536. change (2 ^ 15) with 32768.
  Z.div_mod_to_equations. lia.
Qed.

Lemma unpack_ssse3_lanes a b :
  is_byte a -> is_byte b ->
  _mm_and_si128
    (_mm_cmpeq_epi8
       (_mm_and_si128
          (_mm_shuffle_epi8 (_mm_set1_epi16 (s16 (a + 256 * b))) unpack_reverse_mask)
          unpack_bit_mask)
       unpack_bit_mask)
    (_mm_set1_epi8 1)
  = unpack_bits a ++ unpack_bits b.
Proof.
  intros Ha Hb. unfold _mm_set1_epi16.
  destruct (s16_bytes a b Ha Hb) as [-> ->].
  transitivity
    [bit_lane a 0x80; bit_lane a 0x40; bit_lane a 0x20; bit_lane a 0x10;
     bit_lane a 0x08; bit_lane a 0x04; bit_lane a 0x02; bit_lane a 0x01;
     bit_lane b 0x80; bit_lane b 0x40; bit_lane b 0x20; bit_lane b 0x10;
     bit_lane b 0x08; bit_lane b 0x04; bit_lane b 0x02; bit_lane b 0x01];
    [reflexivity|].
  unfold unpack_bits. cbn [fmap list_fmap app].
  rewrite !(bit_lane_pow2 _ 7 0x80), !(bit_lane_pow2 _ 6 0x40), !(bit_lane_pow2 _ 5 0x20),
    !(bit_lane_pow2 _ 4 0x10), !(bit_lane_pow2 _ 3 0x08), !(bit_lane_pow2 _ 2 0x04),
    !(bit_lane_pow2 _ 1 0x02), !(bit_lane_pow2 _ 0 0x01) by (reflexivity || lia).
  reflexivity.
Qed.

Lemma pack_unpack_bits x : is_byte x -> pack_bits (unpack_bits x) = x.
Proof.
  intros Hx.
  assert (Hall : forallb (fun n => pack_bits (unpack_bits (Z.of_nat n)) =? Z.of_nat n)
                   (seq 0 256) = true) by (vm_compute; reflexivity).
  rewrite forallb_forall in Hall.
  specialize (Hall (Z.to_nat x)). rewrite Z2Nat.id in Hall by (unfold is_byte in Hx; lia).
  apply Z.eqb_eq, Hall, in_seq. unfold is_byte in Hx. lia.
Qed.

Lemma write_bytes_length vs : forall o out, length (write_bytes o vs out) = length out.
Proof.
  induction vs as [|v vs IH]; intros o out; cbn [write_bytes]; [done|].
  by rewrite IH, length_insert.
Qed.

Lemma write_bytes_app l1 : forall l2 o out,
  write_bytes o (l1 ++ l2) out = write_bytes (o + length l1) l2 (write_bytes o l1 out).
Proof.
  induction l1 as [|v l1 IH]; intros l2 o out; cbn [app write_bytes length].
  - by rewrite Nat.add_0_r.
  - rewrite IH. f_equal. lia.
Qed.

Lemma write_bytes_closed vs : forall o out,
  (o + length vs <= length out)%nat ->
  write_bytes o vs out = take o out ++ (u8 <$> vs) ++ drop (o + length vs) out.
Proof.
  induction vs as [|v vs IH]; intros o out Ho; cbn [write_bytes length fmap list_fmap] in *.
  - rewrite Nat.add_0_r. cbn [app]. by rewrite take_drop.
  - rewrite IH by (rewrite length_insert; lia).
    rewrite (insert_take_drop out o) by lia.
    rewrite take_app_add' by (rewrite length_take; lia).
    replace (o + 1 + length vs)%nat with (o + (1 + length vs))%nat by lia.
    rewrite drop_app_add' by (rewrite length_take; lia).
    cbn [take drop Nat.add]. rewrite drop_drop, <- app_assoc. cbn [app].
    by replace (S o + length vs)%nat with (o + S (length vs))%nat by lia.
Qed.

Lemma unpack_out_length k : forall o i inb out, length (unpack_out k o i inb out) = length out.
Proof.
  induction k as [|k IH]; intros o i inb out; cbn [unpack_out]; [done|].
  by rewrite IH, write_bytes_length.
Qed.

Lemma unpack_out_add a : forall b o i inb out,
  unpack_out b (o + 8 * a) (i + a) inb (unpack_out a o i inb out) = unpack_out (a + b) o i inb out.
Proof.
  induction a as [|a IH]; intros b o i inb out.
  - cbn [unpack_out Nat.add]. by rewrite Nat.mul_0_r, !Nat.add_0_r.
  - cbn [unpack_out Nat.add]. rewrite <- IH. f_equal; lia.
Qed.

Lemma unpack_out_closed k : forall o i inb out,
  (o + 8 * k <= length out)%nat -> (i + k <= length inb)%nat ->
  unpack_out k o i inb out
  = take o out ++ concat (unpack_bits <$> take k (drop i inb)) ++ drop (o + 8 * k) out.
Proof.
  induction k as [|k IH]; intros o i inb out Ho Hi; cbn [unpack_out].
  - rewrite Nat.mul_0_r, Nat.add_0_r, take_0. cbn [fmap list_fmap concat app]. by rewrite take_drop.
  - destruct (lookup_lt_is_Some_2 inb i ltac:(lia)) as [x Hx].
    rewrite (list_lookup_total_correct _ _ _ Hx).
    rewrite IH by (rewrite ?write_bytes_length; lia).
    rewrite (drop_S _ _ _ Hx). cbn [take fmap list_fmap concat].
    rewrite write_bytes_closed by (rewrite unpack_bits_length; lia).
    rewrite unpack_bits_u8, unpack_bits_length.
    rewrite take_app_add' by (rewrite length_take; lia).
    rewrite take_app_length' by reflexivity.
    replace (o + 8 + 8 * k)%nat with (o + (8 + 8 * k))%nat by lia.
    rewrite drop_app_add' by (rewrite length_take; lia).
    rewrite drop_app_add' by reflexivity.
    rewrite drop_drop, <- !app_assoc.
    replace (i + 1)%nat with (S i) by lia.
    by replace (o + 8 + 8 * k)%nat with (o + 8 * S k)%nat by lia.
Qed.

Lemma chunks8_concat k (l : list Z) (f : Z -> list Z) rest :
  (forall x, length (f x) = 8%nat) -> length l = k ->
  chunks8 k (concat (f <$> l) ++ rest) = f <$> l.
Proof.
  intros Hf <-. induction l as [|x l IH]; cbn [length chunks8 fmap list_fmap concat]; [done|].
  rewrite <- app_assoc.
  rewrite take_app_length' by (by rewrite Hf). rewrite drop_app_length' by (by rewrite Hf).
  by rewrite IH.
Qed.

(** ** Facts used by the exclusive-or kernels *)

Lemma s32_0 : s32 0 = 0.
Proof. reflexivity. Qed.

Lemma s32_add a b : s32 (s32 a + b) = s32 (a + b).
Proof.
  unfold s32. change (2 ^ 32) with 4294967296. change (2 ^ 31) with 2147483648.
  Z.div_mod_to_equations. lia.
Qed.

Lemma u32_s32_small c : 0 <= c < 2 ^ 32 -> u32 (s32 c) = c.
Proof. intros Hc. by rewrite u32_s32, u32_small. Qed.

Lemma byte_testbit_high a j : is_byte a -> 8 <= j -> Z.testbit a j = false.
Proof.
  unfold is_byte. intros Ha Hj.
  destruct (Z.eq_dec a 0) as [->|Hne]; [apply Z.testbit_0_l|].
  apply Z.bits_above_log2; [lia|].
  assert (Z.log2 a < 8) by (apply Z.log2_lt_pow2; [lia|]; change (2 ^ 8) with 256; lia).
  lia.
Qed.

Lemma lxor_byte a b : is_byte a -> is_byte b -> u8 (Z.lxor a b) = Z.lxor a b.
Proof.
  intros Ha Hb. unfold u8. rewrite <- Z.land_ones by lia.
  apply Z.bits_inj'. intros j Hj.
  rewrite Z.land_spec, Z.lxor_spec, Z.testbit_ones by lia.
  destruct (Z.ltb_spec j 8) as [Hlt|Hge].
  - replace (0 <=? j) with true by (symmetry; apply Z.leb_le; lia).
    apply andb_true_r.
  - rewrite andb_false_r, andb_false_r.
    by rewrite (byte_testbit_high a j), (byte_testbit_high b j).
Qed.

Lemma exor_out_length k : forall o i0 i1 in0 in1 out,
  length (exor_out k o i0 i1 in0 in1 out) = length out.
Proof.
  induction k as [|k IH]; intros; cbn [exor_out]; [done|].
  by rewrite IH, length_insert.
Qed.

Lemma exor_out_add a : forall b o i0 i1 in0 in1 out,
  exor_out b (o + a) (i0 + a) (i1 + a) in0 in1 (exor_out a o i0 i1 in0 in1 out)
  = exor_out (a + b) o i0 i1 in0 in1 out.
Proof.
  induction a as [|a IH]; intros b o i0 i1 in0 in1 out.
  - cbn [exor_out Nat.add]. by rewrite !Nat.add_0_r.
  - cbn [exor_out Nat.add]. rewrite <- IH. f_equal; lia.
Qed.

Lemma write_bytes_xor k : forall o i0 i1 (in0 in1 out : list Z),
  (i0 + k <= length in0)%nat -> (i1 + k <= length in1)%nat ->
  write_bytes o (zip_with Z.lxor (take k (drop i0 in0)) (take k (drop i1 in1))) out
  = exor_out k o i0 i1 in0 in1 out.
Proof.
  induction k as [|k IH]; intros o i0 i1 in0 in1 out H0 H1.
  - by rewrite !take_0.
  - destruct (lookup_lt_is_Some_2 in0 i0 ltac:(lia)) as [x Hx].
    destruct (lookup_lt_is_Some_2 in1 i1 ltac:(lia)) as [y Hy].
    rewrite (drop_S _ _ _ Hx), (drop_S _ _ _ Hy).
    cbn [take zip_with write_bytes exor_out].
    rewrite (list_lookup_total_correct _ _ _ Hx), (list_lookup_total_correct _ _ _ Hy).
    replace (S i0) with (i0 + 1)%nat by lia. replace (S i1) with (i1 + 1)%nat by lia.
    apply IH; lia.
Qed.

Lemma st_events_stores n : forall p,
  stores (st_events n p) = reverse ((fun j => p +ₚ j) <$> seq 0 n).
Proof.
  induction n as [|n IH]; intros p; cbn [st_events seq fmap list_fmap].
  - done.
  - rewrite stores_app, IH, reverse_cons. cbn [stores]. rewrite ptr_add_0.
    f_equal. f_equal. rewrite <- fmap_S_seq, <- list_fmap_compose.
    apply list_fmap_ext. intros _ j _. cbn. by rewrite ptr_add_add.
Qed.

Lemma ld_events_stores n : forall p, stores (ld_events n p) = [].
Proof.
  induction n as [|n IH]; intros p; cbn [ld_events]; [done|].
  by rewrite stores_app, IH.
Qed.

Lemma store_range_app (p : ptr) a b :
  reverse ((fun j => p +ₚ a +ₚ j) <$> seq 0 b) ++ reverse ((fun j => p +ₚ j) <$> seq 0 a)
  = reverse ((fun j => p +ₚ j) <$> seq 0 (a + b)).
Proof.
  rewrite <- reverse_app, seq_app, fmap_app. do 2 f_equal.
  replace (seq (0 + a) b) with (Nat.add a <$> seq 0 b)
    by (rewrite fmap_add_seq; f_equal; lia).
  rewrite <- list_fmap_compose.
  apply list_fmap_ext. intros _ j _. cbn. by rewrite ptr_add_add.
Qed.

Lemma exor_events_stores k : forall po p0 p1,
  stores (exor_events k po p0 p1) = reverse ((fun j => po +ₚ j) <$> seq 0 k).
Proof.
  induction k as [|k IH]; intros po p0 p1; cbn [exor_events]; [done|].
  rewrite stores_app, IH. cbn [stores].
  replace [po] with (reverse ((fun j => po +ₚ j) <$> seq 0 1))
    by (cbn; by rewrite ptr_add_0).
  by rewrite store_range_app.
Qed.

Lemma exor_avx_events_stores k : forall po p0 p1,
  stores (exor_avx_events k po p0 p1) = reverse ((fun j => po +ₚ j) <$> seq 0 (32 * k)).
Proof.
  induction k as [|k IH]; intros po p0 p1; cbn [exor_avx_events].
  - by rewrite Nat.mul_0_r.
  - rewrite !stores_app, IH, !ld_events_stores, !app_nil_r, st_events_stores.
    rewrite store_range_app. do 3 f_equal. lia.
Qed.

(** ** Kernels over an output block and one input block

    Throughout, block [bo] is the output buffer and holds the cells written
    so far, and the distinct block [bi] is the input buffer [inb]. *)

Section TwoBuffers.
Variables (bs : list block) (bo bi : nat) (ao ai : Z) (inb : list Z).
Hypothesis Hbo : (bo < length bs)%nat.
Hypothesis Hbi : bs !! bi = Some (Block ai inb).
Hypothesis Hne : bo ≠ bi.
#[local] Set Default Proof Using "All".

Lemma load_in X tr i x :
  inb !! i = Some x ->
  load (Ptr bi i) (Mem (<[bo := Block ao X]> bs) tr)
  = Done x (Mem (<[bo := Block ao X]> bs) (Ld (Ptr bi i) :: tr)).
Proof.
  intros Hx. unfold load. cbn [blocks blk off trace].
  rewrite list_lookup_insert_ne by done. rewrite Hbi. cbn [cells]. by rewrite Hx.
Qed.

Lemma load_out X tr o v :
  X !! o = Some v ->
  load (Ptr bo o) (Mem (<[bo := Block ao X]> bs) tr)
  = Done v (Mem (<[bo := Block ao X]> bs) (Ld (Ptr bo o) :: tr)).
Proof.
  intros Hv. unfold load. cbn [blocks blk off trace].
  rewrite list_lookup_insert_eq by done. cbn [cells]. by rewrite Hv.
Qed.

Lemma store_out X tr o v :
  (o < length X)%nat ->
  store (Ptr bo o) v (Mem (<[bo := Block ao X]> bs) tr)
  = Done tt (Mem (<[bo := Block ao (<[o := u8 v]> X)]> bs) (St (Ptr bo o) :: tr)).
Proof.
  intros Ho. unfold store. cbn [blocks blk off trace].
  rewrite list_lookup_insert_eq by done. cbn [cells base].
  apply Nat.ltb_lt in Ho. rewrite Ho. by rewrite list_insert_insert_eq.
Qed.

Lemma or_store_out X tr o acc v :
  X !! o = Some acc ->
  or_store (Ptr bo o) v (Mem (<[bo := Block ao X]> bs) tr)
  = Done tt (Mem (<[bo := Block ao (<[o := u8 (Z.lor acc v)]> X)]> bs)
                 (St (Ptr bo o) :: Ld (Ptr bo o) :: tr)).
Proof.
  intros Hv. unfold or_store.
  rewrite (bind_done _ _ _ _ _ (load_out _ _ _ _ Hv)).
  apply store_out. by eapply lookup_lt_Some.
Qed.

Lemma load_bytes_in X n : forall i tr,
  (i + n <= length inb)%nat ->
  load_bytes n (Ptr bi i) (Mem (<[bo := Block ao X]> bs) tr)
  = Done (take n (drop i inb))
      (Mem (<[bo := Block ao X]> bs) (ld_events n (Ptr bi i) ++ tr)).
Proof.
  induction n as [|n IH]; intros i tr Hi; cbn [load_bytes ld_events].
  - by rewrite take_0.
  - destruct (lookup_lt_is_Some_2 inb i ltac:(lia)) as [x Hx].
    erewrite bind_done by (by apply load_in).
    rewrite ptr_add_Ptr.
    erewrite bind_done by (apply IH; lia).
    unfold ret. rewrite (drop_S _ _ _ Hx). cbn [take].
    rewrite <- app_assoc. by replace (S i) with (i + 1)%nat by lia.
Qed.

Lemma store_bytes_out vs : forall X o tr,
  (o + length vs <= length X)%nat ->
  store_bytes (Ptr bo o) vs (Mem (<[bo := Block ao X]> bs) tr)
  = Done tt (Mem (<[bo := Block ao (write_bytes o vs X)]> bs)
                 (st_events (length vs) (Ptr bo o) ++ tr)).
Proof.
  induction vs as [|v vs IH]; intros X o tr Ho; cbn [store_bytes write_bytes st_events length].
  - done.
  - cbn [length] in Ho.
    erewrite bind_done by (apply store_out; lia).
    rewrite ptr_add_Ptr, IH by (rewrite length_insert; lia).
    by rewrite <- app_assoc.
Qed.

Lemma store_u16_out X tr o v :
  (o + 1 < length X)%nat ->
  store_u16 (Ptr bo o) v (Mem (<[bo := Block ao X]> bs) tr)
  = Done tt (Mem (<[bo := Block ao (<[(o + 1)%nat := u8 (Z.shiftr (u16 v) 8)]>
                                     (<[o := u8 (u16 v)]> X))]> bs)
                 (St (Ptr bo (o + 1)) :: St (Ptr bo o) :: tr)).
Proof.
  intros Ho. unfold store_u16.
  erewrite bind_done by (apply store_out; lia).
  rewrite ptr_add_Ptr. apply store_out. rewrite length_insert. lia.
Qed.

Lemma pack_byte_ok out tr o i :
  (o < length out)%nat -> (i + 8 <= length inb)%nat ->
  pack_byte (Ptr bo o) (Ptr bi i) (Mem (<[bo := Block ao out]> bs) tr)
  = Done tt (Mem (<[bo := Block ao (<[o := pack_bits (take 8 (drop i inb))]> out)]> bs)
                 (pack_byte_events (Ptr bo o) (Ptr bi i) ++ tr)).
Proof.
  intros Ho Hi.
  destruct (take8_drop inb i Hi) as (x0 & x1 & x2 & x3 & x4 & x5 & x6 & x7 & Hx).
  assert (Hk : forall k, (k < 8)%nat -> inb !! (i + k)%nat = [x0; x1; x2; x3; x4; x5; x6; x7] !! k).
  { intros k Hk. rewrite <- Hx. by apply take_drop_lookup. }
  rewrite Hx. unfold pack_byte.
  rewrite !ptr_add_Ptr, <- !Nat.add_assoc. cbn [Nat.add].
  assert (H0 := Hk 0%nat ltac:(lia)). assert (H1 := Hk 1%nat ltac:(lia)).
  assert (H2 := Hk 2%nat ltac:(lia)). assert (H3 := Hk 3%nat ltac:(lia)).
  assert (H4 := Hk 4%nat ltac:(lia)). assert (H5 := Hk 5%nat ltac:(lia)).
  assert (H6 := Hk 6%nat ltac:(lia)). assert (H7 := Hk 7%nat ltac:(lia)).
  rewrite Nat.add_0_r in H0. cbn [lookup list_lookup] in H0, H1, H2, H3, H4, H5, H6, H7.
  clear Hk Hx.
  erewrite bind_done by (by apply store_out).
  do 7 (erewrite bind_done by (by apply load_in);
        erewrite bind_done
          by (apply or_store_out, list_lookup_insert_eq; by rewrite ?length_insert);
        rewrite list_insert_insert_eq).
  erewrite bind_done by (by apply load_in).
  erewrite or_store_out by (apply list_lookup_insert_eq; by rewrite ?length_insert).
  rewrite list_insert_insert_eq, pack_fold_ok.
  reflexivity.
Qed.

Lemma pack_scalar_loop n k : forall fuel byte o i out tr,
  (k < fuel)%nat -> 0 <= byte -> byte + Z.of_nat k = n -> n < 2 ^ 32 ->
  (o + k <= length out)%nat -> (i + 8 * k <= length inb)%nat ->
  while fuel (fun '(byte, _, _) => byte <? n) pack_scalar_body
    (byte, Ptr bi i, Ptr bo o) (Mem (<[bo := Block ao out]> bs) tr)
  = Done (n, Ptr bi (i + 8 * k), Ptr bo (o + k))
      (Mem (<[bo := Block ao (pack_out k o i inb out)]> bs)
           (pack_events k (Ptr bo o) (Ptr bi i) ++ tr)).
Proof.
  induction k as [|k IH]; intros fuel byte o i out tr Hf Hb Hk Hn Ho Hi;
    (destruct fuel as [|fuel]; [lia|]); cbn [while].
  - replace (byte <? n) with false by (symmetry; apply Z.ltb_ge; lia).
    unfold ret. cbn [pack_out pack_events app].
    rewrite Nat.mul_0_r, !Nat.add_0_r. by replace byte with n by lia.
  - replace (byte <? n) with true by (symmetry; apply Z.ltb_lt; lia).
    unfold pack_scalar_body at 1.
    erewrite bind_done.
    2:{ erewrite bind_done by (apply pack_byte_ok; lia).
        reflexivity. }
    rewrite !ptr_add_Ptr, u32_small by lia.
    rewrite (IH fuel (byte + 1) (o + 1)%nat (i + 8)%nat) by (rewrite ?length_insert; lia).
    cbn [pack_out pack_events]. rewrite <- app_assoc, !ptr_add_Ptr.
    replace (i + 8 + 8 * k)%nat with (i + 8 * S k)%nat by lia.
    by replace (o + 1 + k)%nat with (o + S k)%nat by lia.
Qed.

Lemma pack_ssse3_body_ok out tr byte o i :
  (o + 2 <= length out)%nat -> (i + 16 <= length inb)%nat ->
  pack_ssse3_body (byte, Ptr bi i, Ptr bo o) (Mem (<[bo := Block ao out]> bs) tr)
  = Done (u32 (byte + 2), Ptr bi (i + 16), Ptr bo (o + 2))
      (Mem (<[bo := Block ao (pack_out 2 o i inb out)]> bs)
           ([St (Ptr bo (o + 1)); St (Ptr bo o)] ++ ld_events 16 (Ptr bi i) ++ tr)).
Proof.
  intros Ho Hi. unfold pack_ssse3_body, _mm_loadu_si128. cbv beta zeta iota.
  erewrite bind_done by (apply load_bytes_in; lia).
  erewrite bind_done by (apply store_u16_out; lia).
  destruct (pack_ssse3_lanes inb i _ Hi eq_refl) as [-> ->].
  reflexivity.
Qed.

Lemma pack_ssse3_loop fast k : forall fuel byte o i out tr,
  (k < fuel)%nat -> 0 <= byte -> byte + 2 * Z.of_nat k = fast -> fast < 2 ^ 32 ->
  (o + 2 * k <= length out)%nat -> (i + 16 * k <= length inb)%nat ->
  while fuel (fun '(byte, _, _) => byte <? fast) pack_ssse3_body
    (byte, Ptr bi i, Ptr bo o) (Mem (<[bo := Block ao out]> bs) tr)
  = Done (fast, Ptr bi (i + 16 * k), Ptr bo (o + 2 * k))
      (Mem (<[bo := Block ao (pack_out (2 * k) o i inb out)]> bs)
           (pack_ssse3_events k (Ptr bo o) (Ptr bi i) ++ tr)).
Proof.
  induction k as [|k IH]; intros fuel byte o i out tr Hf Hb Hk Hn Ho Hi;
    (destruct fuel as [|fuel]; [lia|]); cbn [while].
  - replace (byte <? fast) with false by (symmetry; apply Z.ltb_ge; lia).
    unfold ret. rewrite !Nat.mul_0_r, !Nat.add_0_r. cbn [pack_out pack_ssse3_events app].
    by replace byte with fast by lia.
  - replace (byte <? fast) with true by (symmetry; apply Z.ltb_lt; lia).
    erewrite bind_done by (apply pack_ssse3_body_ok; lia).
    rewrite u32_small by lia.
    rewrite (IH fuel (byte + 2) (o + 2)%nat (i + 16)%nat)
      by (rewrite ?pack_out_length; lia).
    replace (2 * S k)%nat with (2 + 2 * k)%nat by lia.
    rewrite <- pack_out_add. cbn [pack_ssse3_events].
    rewrite <- !app_assoc, !ptr_add_Ptr.
    replace (i + 16 + 16 * k)%nat with (i + 16 * S k)%nat by lia.
    replace (o + 2 + 2 * k)%nat with (o + (2 + 2 * k))%nat by lia.
    by replace (i + 8 * 2)%nat with (i + 16)%nat by lia.
Qed.

Lemma load_s16_in X tr i a b :
  inb !! i = Some a -> inb !! (i + 1)%nat = Some b ->
  load_s16 (Ptr bi i) (Mem (<[bo := Block ao X]> bs) tr)
  = Done (s16 (a + 256 * b))
      (Mem (<[bo := Block ao X]> bs) (Ld (Ptr bi (i + 1)) :: Ld (Ptr bi i) :: tr)).
Proof.
  intros Ha Hb. unfold load_s16.
  erewrite bind_done by (by apply load_in).
  rewrite ptr_add_Ptr.
  erewrite bind_done by (by apply load_in).
  reflexivity.
Qed.

Lemma unpack_byte_ok out tr o i x :
  inb !! i = Some x -> (o + 8 <= length out)%nat ->
  unpack_byte (Ptr bo o) (Ptr bi i) (Mem (<[bo := Block ao out]> bs) tr)
  = Done tt (Mem (<[bo := Block ao (write_bytes o (unpack_bits x) out)]> bs)
                 (unpack_byte_events (Ptr bo o) (Ptr bi i) ++ tr)).
Proof.
  intros Hx Ho. unfold unpack_byte.
  rewrite !ptr_add_Ptr, <- !Nat.add_assoc. cbn [Nat.add].
  do 7 (erewrite bind_done by (by apply load_in);
        erewrite bind_done by (apply store_out; rewrite ?length_insert; lia)).
  erewrite bind_done by (by apply load_in).
  rewrite store_out by (rewrite ?length_insert; lia).
  unfold unpack_bits. cbn [fmap list_fmap write_bytes].
  rewrite <- !Nat.add_assoc. cbn [Nat.add].
  rewrite (shiftr_land_pow2 x 7 0x80), (shiftr_land_pow2 x 6 0x40),
    (shiftr_land_pow2 x 5 0x20), (shiftr_land_pow2 x 4 0x10),
    (shiftr_land_pow2 x 3 0x08), (shiftr_land_pow2 x 2 0x04),
    (shiftr_land_pow2 x 1 0x02), land_1_bit by (reflexivity || lia).
  reflexivity.
Qed.

Lemma unpack_scalar_loop n k : forall fuel byte o i out tr,
  (k < fuel)%nat -> 0 <= byte -> byte + Z.of_nat k = n -> n < 2 ^ 32 ->
  (o + 8 * k <= length out)%nat -> (i + k <= length inb)%nat ->
  while fuel (fun '(byte, _, _) => byte <? n) unpack_scalar_body
    (byte, Ptr bi i, Ptr bo o) (Mem (<[bo := Block ao out]> bs) tr)
  = Done (n, Ptr bi (i + k), Ptr bo (o + 8 * k))
      (Mem (<[bo := Block ao (unpack_out k o i inb out)]> bs)
           (unpack_events k (Ptr bo o) (Ptr bi i) ++ tr)).
Proof.
  induction k as [|k IH]; intros fuel byte o i out tr Hf Hb Hk Hn Ho Hi;
    (destruct fuel as [|fuel]; [lia|]); cbn [while].
  - replace (byte <? n) with false by (symmetry; apply Z.ltb_ge; lia).
    unfold ret. rewrite Nat.mul_0_r, !Nat.add_0_r. cbn [unpack_out unpack_events app].
    by replace byte with n by lia.
  - replace (byte <? n) with true by (symmetry; apply Z.ltb_lt; lia).
    destruct (lookup_lt_is_Some_2 inb i ltac:(lia)) as [x Hx].
    unfold unpack_scalar_body at 1.
    erewrite bind_done.
    2:{ erewrite bind_done by (apply unpack_byte_ok; [exact Hx|lia]). reflexivity. }
    rewrite !ptr_add_Ptr, u32_small by lia.
    rewrite (IH fuel (byte + 1) (o + 8)%nat (i + 1)%nat) by (rewrite ?write_bytes_length; lia).
    cbn [unpack_out unpack_events]. rewrite <- app_assoc, !ptr_add_Ptr.
    rewrite (list_lookup_total_correct _ _ _ Hx).
    replace (i + 1 + k)%nat with (i + S k)%nat by lia.
    by replace (o + 8 + 8 * k)%nat with (o + 8 * S k)%nat by lia.
Qed.

Hypothesis Hbytes : Forall is_byte inb.

Lemma unpack_ssse3_body_ok out tr byte o i :
  (o + 16 <= length out)%nat -> (i + 2 <= length inb)%nat ->
  unpack_ssse3_body (byte, Ptr bi i, Ptr bo o) (Mem (<[bo := Block ao out]> bs) tr)
  = Done (u32 (byte + 2), Ptr bi (i + 2), Ptr bo (o + 16))
      (Mem (<[bo := Block ao (unpack_out 2 o i inb out)]> bs)
           (st_events 16 (Ptr bo o) ++ [Ld (Ptr bi (i + 1)); Ld (Ptr bi i)] ++ tr)).
Proof.
  intros Ho Hi.
  destruct (lookup_lt_is_Some_2 inb i ltac:(lia)) as [a Ha].
  destruct (lookup_lt_is_Some_2 inb (i + 1) ltac:(lia)) as [b Hb].
  assert (is_byte a) by (eapply Forall_lookup_1; eauto).
  assert (is_byte b) by (eapply Forall_lookup_1; eauto).
  unfold unpack_ssse3_body, _mm_storeu_si128. cbv beta zeta iota.
  erewrite bind_done by (by apply load_s16_in).
  rewrite unpack_ssse3_lanes by done.
  erewrite bind_done by (apply store_bytes_out; cbn [length app unpack_bits fmap list_fmap]; lia).
  unfold ret. rewrite !ptr_add_Ptr. cbn [unpack_out].
  rewrite (list_lookup_total_correct _ _ _ Ha), (list_lookup_total_correct _ _ _ Hb).
  rewrite write_bytes_app, unpack_bits_length.
  reflexivity.
Qed.

Lemma unpack_ssse3_loop fast k : forall fuel byte o i out tr,
  (k < fuel)%nat -> 0 <= byte -> byte + 2 * Z.of_nat k = fast -> fast < 2 ^ 32 ->
  (o + 16 * k <= length out)%nat -> (i + 2 * k <= length inb)%nat ->
  while fuel (fun '(byte, _, _) => byte <? fast) unpack_ssse3_body
    (byte, Ptr bi i, Ptr bo o) (Mem (<[bo := Block ao out]> bs) tr)
  = Done (fast, Ptr bi (i + 2 * k), Ptr bo (o + 16 * k))
      (Mem (<[bo := Block ao (unpack_out (2 * k) o i inb out)]> bs)
           (unpack_ssse3_events k (Ptr bo o) (Ptr bi i) ++ tr)).
Proof.
  induction k as [|k IH]; intros fuel byte o i out tr Hf Hb Hk Hn Ho Hi;
    (destruct fuel as [|fuel]; [lia|]); cbn [while].
  - replace (byte <? fast) with false by (symmetry; apply Z.ltb_ge; lia).
    unfold ret. rewrite !Nat.mul_0_r, !Nat.add_0_r. cbn [unpack_out unpack_ssse3_events app].
    by replace byte with fast by lia.
  - replace (byte <? fast) with true by (symmetry; apply Z.ltb_lt; lia).
    erewrite bind_done by (apply unpack_ssse3_body_ok; lia).
    rewrite u32_small by lia.
    rewrite (IH fuel (byte + 2) (o + 16)%nat (i + 2)%nat)
      by (rewrite ?unpack_out_length; lia).
    replace (2 * S k)%nat with (2 + 2 * k)%nat by lia.
    rewrite <- unpack_out_add. cbn [unpack_ssse3_events].
    rewrite <- !app_assoc, !ptr_add_Ptr.
    replace (i + 2 + 2 * k)%nat with (i + (2 + 2 * k))%nat by lia.
    replace (o + 16 + 16 * k)%nat with (o + 16 * S k)%nat by lia.
    by replace (o + 8 * 2)%nat with (o + 16)%nat by lia.
Qed.
End TwoBuffers.

(** ** Kernels over an output block and two input blocks *)

Section ThreeBuffers.
Variables (bs : list block) (bo b0 b1 : nat) (ao a0 a1 : Z) (in0 in1 : list Z).
Hypothesis Hbo : (bo < length bs)%nat.
Hypothesis Hb0 : bs !! b0 = Some (Block a0 in0).
Hypothesis Hb1 : bs !! b1 = Some (Block a1 in1).
Hypothesis Hne0 : bo ≠ b0.
Hypothesis Hne1 : bo ≠ b1.
#[local] Set Default Proof Using "All".

Lemma exor_scalar_body_ok out tr i o i0 i1 :
  (o < length out)%nat -> (i0 < length in0)%nat -> (i1 < length in1)%nat ->
  exor_scalar_body (i, Ptr bo o, Ptr b0 i0, Ptr b1 i1) (Mem (<[bo := Block ao out]> bs) tr)
  = Done (s32 (i + 1), Ptr bo (o + 1), Ptr b0 (i0 + 1), Ptr b1 (i1 + 1))
      (Mem (<[bo := Block ao (exor_out 1 o i0 i1 in0 in1 out)]> bs)
           ([St (Ptr bo o); Ld (Ptr b1 i1); Ld (Ptr b0 i0)] ++ tr)).
Proof.
  intros Ho H0 H1.
  destruct (lookup_lt_is_Some_2 in0 i0 H0) as [x Hx].
  destruct (lookup_lt_is_Some_2 in1 i1 H1) as [y Hy].
  unfold exor_scalar_body.
  erewrite bind_done by (by apply (load_in bs bo b0 ao a0 in0)).
  erewrite bind_done by (by apply (load_in bs bo b1 ao a1 in1)).
  erewrite bind_done by (by apply (store_out bs bo b0 ao a0 in0)).
  cbn [exor_out].
  by rewrite (list_lookup_total_correct _ _ _ Hx), (list_lookup_total_correct _ _ _ Hy).
Qed.

Lemma exor_scalar_loop n k : forall fuel c o i0 i1 out tr,
  (k < fuel)%nat -> 0 <= c -> c + Z.of_nat k = n -> n < 2 ^ 32 ->
  (o + k <= length out)%nat -> (i0 + k <= length in0)%nat -> (i1 + k <= length in1)%nat ->
  while fuel (fun '(i, _, _, _) => u32 i <? n) exor_scalar_body
    (s32 c, Ptr bo o, Ptr b0 i0, Ptr b1 i1) (Mem (<[bo := Block ao out]> bs) tr)
  = Done (s32 n, Ptr bo (o + k), Ptr b0 (i0 + k), Ptr b1 (i1 + k))
      (Mem (<[bo := Block ao (exor_out k o i0 i1 in0 in1 out)]> bs)
           (exor_events k (Ptr bo o) (Ptr b0 i0) (Ptr b1 i1) ++ tr)).
Proof.
  induction k as [|k IH]; intros fuel c o i0 i1 out tr Hf Hc Hk Hn Ho H0 H1;
    (destruct fuel as [|fuel]; [lia|]); cbn [while]; rewrite u32_s32_small by lia.
  - replace (c <? n) with false by (symmetry; apply Z.ltb_ge; lia).
    unfold ret. rewrite !Nat.add_0_r. cbn [exor_out exor_events app].
    by replace c with n by lia.
  - replace (c <? n) with true by (symmetry; apply Z.ltb_lt; lia).
    erewrite bind_done by (apply exor_scalar_body_ok; lia).
    rewrite s32_add.
    rewrite (IH fuel (c + 1) (o + 1)%nat (i0 + 1)%nat (i1 + 1)%nat)
      by (rewrite ?exor_out_length; lia).
    cbn [exor_out exor_events]. rewrite <- app_assoc, !ptr_add_Ptr.
    replace (o + 1 + k)%nat with (o + S k)%nat by lia.
    replace (i0 + 1 + k)%nat with (i0 + S k)%nat by lia.
    by replace (i1 + 1 + k)%nat with (i1 + S k)%nat by lia.
Qed.

Lemma exor_u_avx_body_ok out tr i o i0 i1 :
  (o + 32 <= length out)%nat -> (i0 + 32 <= length in0)%nat -> (i1 + 32 <= length in1)%nat ->
  exor_u_avx_body (i, Ptr bo o, Ptr b0 i0, Ptr b1 i1) (Mem (<[bo := Block ao out]> bs) tr)
  = Done (s32 (i + 32), Ptr bo (o + 32), Ptr b0 (i0 + 32), Ptr b1 (i1 + 32))
      (Mem (<[bo := Block ao (exor_out 32 o i0 i1 in0 in1 out)]> bs)
           (st_events 32 (Ptr bo o) ++ ld_events 32 (Ptr b1 i1)
            ++ ld_events 32 (Ptr b0 i0) ++ tr)).
Proof.
  intros Ho H0 H1.
  unfold exor_u_avx_body, _mm256_loadu_ps, _mm256_storeu_ps, _mm256_xor_ps.
  erewrite bind_done by (by apply (load_bytes_in bs bo b0 ao a0 in0)).
  erewrite bind_done by (by apply (load_bytes_in bs bo b1 ao a1 in1)).
  assert (Hlen : length (zip_with Z.lxor (take 32 (drop i0 in0)) (take 32 (drop i1 in1)))
                 = 32%nat).
  { rewrite length_zip_with, !length_take, !length_drop. lia. }
  erewrite bind_done
    by (apply (store_bytes_out bs bo b0 ao a0 in0); [done..|]; rewrite Hlen; lia).
  rewrite Hlen, write_bytes_xor by lia. unfold ret.
  by rewrite <- ?app_assoc.
Qed.

(** The vector loop compares the byte counter [c] with [n / 32] and
    advances it by 32: it runs [k] times, where [k] is the number of
    multiples of 32 below [n / 32]. *)
Lemma exor_u_avx_loop n k : forall fuel c o i0 i1 out tr,
  (k < fuel)%nat -> 0 <= c <= n -> n < 2 ^ 32 ->
  Z.of_nat k = Z.max 0 ((n / 32 - c + 31) / 32) ->
  (o + Z.to_nat (n - c) <= length out)%nat ->
  (i0 + Z.to_nat (n - c) <= length in0)%nat ->
  (i1 + Z.to_nat (n - c) <= length in1)%nat ->
  while fuel (fun '(i, _, _, _) => u32 i <? n / 32) exor_u_avx_body
    (s32 c, Ptr bo o, Ptr b0 i0, Ptr b1 i1) (Mem (<[bo := Block ao out]> bs) tr)
  = Done (s32 (c + 32 * Z.of_nat k), Ptr bo (o + 32 * k), Ptr b0 (i0 + 32 * k),
          Ptr b1 (i1 + 32 * k))
      (Mem (<[bo := Block ao (exor_out (32 * k) o i0 i1 in0 in1 out)]> bs)
           (exor_avx_events k (Ptr bo o) (Ptr b0 i0) (Ptr b1 i1) ++ tr)).
Proof.
  induction k as [|k IH]; intros fuel c o i0 i1 out tr Hf Hc Hn Hk Ho H0 H1;
    (destruct fuel as [|fuel]; [lia|]); cbn [while].
  - assert (n / 32 <= c) by (revert Hk; Z.div_mod_to_equations; lia).
    rewrite u32_s32_small by lia.
    replace (c <? n / 32) with false by (symmetry; apply Z.ltb_ge; lia).
    unfold ret. rewrite !Nat.mul_0_r, !Nat.add_0_r, Z.add_0_r.
    by cbn [exor_out exor_avx_events app].
  - assert (Hlt : c < n / 32) by (revert Hk; Z.div_mod_to_equations; lia).
    assert (Hroom : c + 32 <= n) by (revert Hlt; Z.div_mod_to_equations; lia).
    rewrite u32_s32_small by lia.
    replace (c <? n / 32) with true by (symmetry; apply Z.ltb_lt; lia).
    erewrite bind_done by (apply exor_u_avx_body_ok; lia).
    rewrite s32_add.
    rewrite (IH fuel (c + 32) (o + 32)%nat (i0 + 32)%nat (i1 + 32)%nat);
      [| lia | lia | lia | revert Hk; Z.div_mod_to_equations; lia
       | rewrite exor_out_length; lia | lia | lia ].
    replace (32 * S k)%nat with (32 + 32 * k)%nat by lia.
    rewrite <- exor_out_add. cbn [exor_avx_events].
    rewrite <- !app_assoc, !ptr_add_Ptr.
    replace (c + 32 + 32 * Z.of_nat k) with (c + 32 * Z.of_nat (S k)) by lia.
    replace (o + 32 + 32 * k)%nat with (o + (32 + 32 * k))%nat by lia.
    replace (i0 + 32 + 32 * k)%nat with (i0 + (32 + 32 * k))%nat by lia.
    by replace (i1 + 32 + 32 * k)%nat with (i1 + (32 + 32 * k))%nat by lia.
Qed.
End ThreeBuffers.

Lemma pack_generic_run bs bo bi ao ai out inb tr o i n :
  bs !! bo = Some (Block ao out) -> bs !! bi = Some (Block ai inb) -> bo ≠ bi ->
  0 <= n < 2 ^ 32 ->
  (o + Z.to_nat n <= length out)%nat -> (i + 8 * Z.to_nat n <= length inb)%nat ->
  volk_8u_pack8_8u_generic (Ptr bo o) (Ptr bi i) n (Mem bs tr)
  = Done tt (Mem (<[bo := Block ao (pack_out (Z.to_nat n) o i inb out)]> bs)
                 (pack_events (Z.to_nat n) (Ptr bo o) (Ptr bi i) ++ tr)).
Proof.
  intros Hbo Hbi Hne Hn Ho Hi. unfold volk_8u_pack8_8u_generic.
  replace (Mem bs tr) with (Mem (<[bo := Block ao out]> bs) tr) by (by rewrite list_insert_id).
  erewrite bind_done; [reflexivity|].
  eapply pack_scalar_loop; eauto using lookup_lt_Some; unfold fuel_for; lia.
Qed.

Lemma pack_ssse3_run bs bo bi ao ai out inb tr o i n :
  bs !! bo = Some (Block ao out) -> bs !! bi = Some (Block ai inb) -> bo ≠ bi ->
  0 <= n < 2 ^ 32 ->
  (o + Z.to_nat n <= length out)%nat -> (i + 8 * Z.to_nat n <= length inb)%nat ->
  exists tr',
    volk_8u_pack8_8u_u_ssse3 (Ptr bo o) (Ptr bi i) n (Mem bs tr)
    = Done tt (Mem (<[bo := Block ao (pack_out (Z.to_nat n) o i inb out)]> bs) tr').
Proof.
  intros Hbo Hbi Hne Hn Ho Hi. unfold volk_8u_pack8_8u_u_ssse3. cbv zeta.
  rewrite land_fffffffe by done.
  replace (Mem bs tr) with (Mem (<[bo := Block ao out]> bs) tr) by (by rewrite list_insert_id).
  assert (Hlt : (bo < length bs)%nat) by eauto using lookup_lt_Some.
  set (k := Z.to_nat (n / 2)). set (r := Z.to_nat (n mod 2)).
  assert (Hkr : Z.to_nat n = (2 * k + r)%nat).
  { subst k r. pose proof (Z.div_mod n 2 ltac:(lia)). pose proof (Z.mod_pos_bound n 2 ltac:(lia)).
    assert (0 <= n / 2) by (apply Z.div_pos; lia). lia. }
  erewrite bind_done.
  2:{ apply (pack_ssse3_loop bs bo bi ao ai inb Hlt Hbi Hne (2 * (n / 2)) k); unfold fuel_for.
      - lia.
      - lia.
      - subst k. assert (0 <= n / 2) by (apply Z.div_pos; lia). lia.
      - pose proof (Z.mul_div_le n 2 ltac:(lia)). lia.
      - lia.
      - lia. }
  erewrite bind_done.
  2:{ apply (pack_scalar_loop bs bo bi ao ai inb Hlt Hbi Hne n r); unfold fuel_for.
      - subst r. pose proof (Z.mod_pos_bound n 2 ltac:(lia)). lia.
      - assert (0 <= n / 2) by (apply Z.div_pos; lia). lia.
      - subst r. pose proof (Z.div_mod n 2 ltac:(lia)). pose proof (Z.mod_pos_bound n 2 ltac:(lia)). lia.
      - lia.
      - rewrite pack_out_length. lia.
      - lia. }
  unfold ret. eexists. do 2 f_equal.
  replace (i + 16 * k)%nat with (i + 8 * (2 * k))%nat by lia.
  rewrite pack_out_add. by rewrite Hkr.
Qed.

Lemma unpack_generic_run bs bo bi ao ai out inb tr o i n :
  bs !! bo = Some (Block ao out) -> bs !! bi = Some (Block ai inb) -> bo ≠ bi ->
  0 <= n < 2 ^ 32 ->
  (o + 8 * Z.to_nat n <= length out)%nat -> (i + Z.to_nat n <= length inb)%nat ->
  volk_8u_unpack8_8u_generic (Ptr bo o) (Ptr bi i) n (Mem bs tr)
  = Done tt (Mem (<[bo := Block ao (unpack_out (Z.to_nat n) o i inb out)]> bs)
                 (unpack_events (Z.to_nat n) (Ptr bo o) (Ptr bi i) ++ tr)).
Proof.
  intros Hbo Hbi Hne Hn Ho Hi. unfold volk_8u_unpack8_8u_generic.
  replace (Mem bs tr) with (Mem (<[bo := Block ao out]> bs) tr) by (by rewrite list_insert_id).
  erewrite bind_done; [reflexivity|].
  eapply unpack_scalar_loop; eauto using lookup_lt_Some; unfold fuel_for; lia.
Qed.

Lemma unpack_ssse3_run bs bo bi ao ai out inb tr o i n :
  bs !! bo = Some (Block ao out) -> bs !! bi = Some (Block ai inb) -> bo ≠ bi ->
  Forall is_byte inb ->
  0 <= n < 2 ^ 32 ->
  (o + 8 * Z.to_nat n <= length out)%nat -> (i + Z.to_nat n <= length inb)%nat ->
  exists tr',
    volk_8u_unpack8_8u_u_ssse3 (Ptr bo o) (Ptr bi i) n (Mem bs tr)
    = Done tt (Mem (<[bo := Block ao (unpack_out (Z.to_nat n) o i inb out)]> bs) tr').
Proof.
  intros Hbo Hbi Hne Hby Hn Ho Hi. unfold volk_8u_unpack8_8u_u_ssse3. cbv zeta.
  rewrite land_fffffffe by done.
  replace (Mem bs tr) with (Mem (<[bo := Block ao out]> bs) tr) by (by rewrite list_insert_id).
  assert (Hlt : (bo < length bs)%nat) by eauto using lookup_lt_Some.
  set (k := Z.to_nat (n / 2)). set (r := Z.to_nat (n mod 2)).
  assert (Hq : 0 <= n / 2) by (apply Z.div_pos; lia).
  pose proof (Z.div_mod n 2 ltac:(lia)) as Hdm.
  pose proof (Z.mod_pos_bound n 2 ltac:(lia)) as Hmb.
  assert (Hkr : Z.to_nat n = (2 * k + r)%nat) by (subst k r; lia).
  erewrite bind_done.
  2:{ apply (unpack_ssse3_loop bs bo bi ao ai inb Hlt Hbi Hne Hby (2 * (n / 2)) k);
        unfold fuel_for; subst k; lia. }
  erewrite bind_done.
  2:{ apply (unpack_scalar_loop bs bo bi ao ai inb Hlt Hbi Hne n r);
        unfold fuel_for; rewrite ?unpack_out_length; subst k r; lia. }
  unfold ret. eexists. do 2 f_equal.
  replace (o + 16 * k)%nat with (o + 8 * (2 * k))%nat by lia.
  rewrite unpack_out_add. by rewrite Hkr.
Qed.

Lemma exor_generic_run bs bo b0 b1 ao a0 a1 out in0 in1 tr o i0 i1 n :
  bs !! bo = Some (Block ao out) ->
  bs !! b0 = Some (Block a0 in0) -> bs !! b1 = Some (Block a1 in1) ->
  bo ≠ b0 -> bo ≠ b1 -> 0 <= n < 2 ^ 32 ->
  (o + Z.to_nat n <= length out)%nat ->
  (i0 + Z.to_nat n <= length in0)%nat -> (i1 + Z.to_nat n <= length in1)%nat ->
  volk_8u_x2_exor_8u_generic (Ptr bo o) (Ptr b0 i0) (Ptr b1 i1) n (Mem bs tr)
  = Done tt (Mem (<[bo := Block ao (exor_out (Z.to_nat n) o i0 i1 in0 in1 out)]> bs)
                 (exor_events (Z.to_nat n) (Ptr bo o) (Ptr b0 i0) (Ptr b1 i1) ++ tr)).
Proof.
  intros Hbo Hb0 Hb1 Hne0 Hne1 Hn Ho H0 H1. unfold volk_8u_x2_exor_8u_generic.
  replace (Mem bs tr) with (Mem (<[bo := Block ao out]> bs) tr) by (by rewrite list_insert_id).
  assert (Hlt : (bo < length bs)%nat) by eauto using lookup_lt_Some.
  pose proof (exor_scalar_loop bs bo b0 b1 ao a0 a1 in0 in1 Hlt Hb0 Hb1 Hne0 Hne1
                n (Z.to_nat n) (fuel_for n) 0 o i0 i1 out tr) as H.
  change (s32 0) with 0 in H.
  by rewrite (bind_done _ _ _ _ _ (H ltac:(unfold fuel_for; lia) ltac:(lia) ltac:(lia)
                                    ltac:(lia) Ho H0 H1)).
Qed.

Lemma exor_u_avx_run bs bo b0 b1 ao a0 a1 out in0 in1 tr o i0 i1 n :
  bs !! bo = Some (Block ao out) ->
  bs !! b0 = Some (Block a0 in0) -> bs !! b1 = Some (Block a1 in1) ->
  bo ≠ b0 -> bo ≠ b1 -> 0 <= n < 2 ^ 32 ->
  (o + Z.to_nat n <= length out)%nat ->
  (i0 + Z.to_nat n <= length in0)%nat -> (i1 + Z.to_nat n <= length in1)%nat ->
  exists k r,
    (32 * k + r)%nat = Z.to_nat n /\
    volk_8u_x2_exor_8u_u_avx (Ptr bo o) (Ptr b0 i0) (Ptr b1 i1) n (Mem bs tr)
    = Done tt (Mem (<[bo := Block ao (exor_out (Z.to_nat n) o i0 i1 in0 in1 out)]> bs)
                   (exor_events r (Ptr bo (o + 32 * k)) (Ptr b0 (i0 + 32 * k))
                      (Ptr b1 (i1 + 32 * k))
                    ++ exor_avx_events k (Ptr bo o) (Ptr b0 i0) (Ptr b1 i1) ++ tr)).
Proof.
  intros Hbo Hb0 Hb1 Hne0 Hne1 Hn Ho H0 H1. unfold volk_8u_x2_exor_8u_u_avx. cbv zeta.
  replace (Mem bs tr) with (Mem (<[bo := Block ao out]> bs) tr) by (by rewrite list_insert_id).
  assert (Hlt : (bo < length bs)%nat) by eauto using lookup_lt_Some.
  set (k := Z.to_nat ((n / 32 + 31) / 32)).
  assert (Hk : Z.of_nat k = Z.max 0 ((n / 32 + 31) / 32)).
  { subst k. Z.div_mod_to_equations. lia. }
  assert (Hkn : 32 * Z.of_nat k <= n).
  { rewrite Hk. Z.div_mod_to_equations. lia. }
  set (r := Z.to_nat (n - 32 * Z.of_nat k)).
  exists k, r. split; [subst r; lia|].
  pose proof (exor_u_avx_loop bs bo b0 b1 ao a0 a1 in0 in1 Hlt Hb0 Hb1 Hne0 Hne1
                n k (fuel_for n) 0 o i0 i1 out tr) as H.
  change (s32 0) with 0 in H. rewrite !Z.sub_0_r, Z.add_0_l in H.
  rewrite (bind_done _ _ _ _ _ (H ltac:(unfold fuel_for; lia) ltac:(lia) ltac:(lia)
                                  Hk Ho H0 H1)).
  erewrite bind_done.
  2:{ apply (exor_scalar_loop bs bo b0 b1 ao a0 a1 in0 in1 Hlt Hb0 Hb1 Hne0 Hne1 n r);
        unfold fuel_for; rewrite ?exor_out_length; subst r; lia. }
  unfold ret. rewrite exor_out_add.
  by replace (32 * k + r)%nat with (Z.to_nat n) by (subst r; lia).
Qed.

(** ** The aligned entry point *)

Lemma bases_insert (bs : list block) b B cs :
  bs !! b = Some B -> base <$> <[b := Block (base B) cs]> bs = base <$> bs.
Proof.
  intros HB. rewrite list_fmap_insert. cbn [base].
  apply list_insert_id. by rewrite list_lookup_fmap, HB.
Qed.

Lemma load_bases p m v m' : load p m = Done v m' -> bases m' = bases m.
Proof.
  unfold load. destruct (blocks m !! blk p) as [B|]; [|done].
  destruct (cells B !! off p); [|done]. by intros [= _ <-].
Qed.

Lemma store_bases p v m u m' : store p v m = Done u m' -> bases m' = bases m.
Proof.
  unfold store. destruct (blocks m !! blk p) as [B|] eqn:HB; [|done].
  destruct (off p <? length (cells B))%nat; [|done].
  intros [= _ <-]. unfold bases. cbn [blocks]. by apply bases_insert.
Qed.

Lemma load_bytes_bases n : forall p m vs m',
  load_bytes n p m = Done vs m' -> bases m' = bases m.
Proof.
  induction n as [|n IH]; intros p m vs m'; cbn [load_bytes].
  - by intros [= _ <-].
  - unfold bind. destruct (load p m) as [v m1| |] eqn:H1; [|done..].
    destruct (load_bytes n (p +ₚ 1) m1) as [vs' m2| |] eqn:H2; [|done..].
    intros [= _ <-]. rewrite (IH _ _ _ _ H2). by eapply load_bases.
Qed.

Lemma store_bytes_bases vs : forall p m u m',
  store_bytes p vs m = Done u m' -> bases m' = bases m.
Proof.
  induction vs as [|v vs IH]; intros p m u m'; cbn [store_bytes].
  - by intros [= _ <-].
  - unfold bind. destruct (store p v m) as [u1 m1| |] eqn:H1; [|done..].
    intros H2. rewrite (IH _ _ _ _ H2). by eapply store_bases.
Qed.

Lemma address_bases p m : address p m = (fun b => b + Z.of_nat (off p)) <$> bases m !! blk p.
Proof.
  unfold address, bases. rewrite list_lookup_fmap.
  by destruct (blocks m !! blk p).
Qed.

Lemma aligned32_bases m m' p : bases m' = bases m -> aligned32 m p -> aligned32 m' p.
Proof. unfold aligned32. rewrite !address_bases. by intros ->. Qed.

Lemma aligned32_add m p : aligned32 m p -> aligned32 m (p +ₚ 32).
Proof.
  unfold aligned32, address. cbn [ptr_add blk off].
  destruct (blocks m !! blk p) as [B|]; intros (x & Hx0 & Hx); [|done].
  injection Hx0 as <-.
  eexists. split; [reflexivity|].
  rewrite Nat2Z.inj_add. revert Hx. Z.div_mod_to_equations. lia.
Qed.

Lemma require_aligned32 m p : aligned32 m p -> require_aligned 32 p m = Done tt m.
Proof.
  intros (x & Hx & Hmod). unfold require_aligned. rewrite Hx.
  by replace (x mod 32 =? 0) with true by (symmetry; by apply Z.eqb_eq).
Qed.

Lemma load_ps_aligned m p : aligned32 m p -> _mm256_load_ps p m = _mm256_loadu_ps p m.
Proof.
  intros Ha. unfold _mm256_load_ps. by rewrite (bind_done _ _ _ _ _ (require_aligned32 m p Ha)).
Qed.

Lemma store_ps_aligned m p v :
  aligned32 m p -> _mm256_store_ps p v m = _mm256_storeu_ps p v m.
Proof.
  intros Ha. unfold _mm256_store_ps. by rewrite (bind_done _ _ _ _ _ (require_aligned32 m p Ha)).
Qed.

Lemma exor_a_avx_body_eq i po p0 p1 m :
  aligned32 m po -> aligned32 m p0 -> aligned32 m p1 ->
  exor_a_avx_body (i, po, p0, p1) m = exor_u_avx_body (i, po, p0, p1) m.
Proof.
  intros Ho H0 H1. unfold exor_a_avx_body, exor_u_avx_body, bind.
  rewrite load_ps_aligned by done.
  destruct (_mm256_loadu_ps p0 m) as [src0 m1| |] eqn:E0; [|done..].
  assert (B1 : bases m1 = bases m) by (by eapply load_bytes_bases).
  rewrite load_ps_aligned by (by eapply aligned32_bases).
  destruct (_mm256_loadu_ps p1 m1) as [src1 m2| |] eqn:E1; [|done..].
  assert (B2 : bases m2 = bases m1) by (by eapply load_bytes_bases).
  rewrite store_ps_aligned; [done|].
  eapply aligned32_bases; [|exact Ho]. congruence.
Qed.

Lemma exor_u_avx_body_aligned i po p0 p1 m i' po' p0' p1' m' :
  aligned32 m po -> aligned32 m p0 -> aligned32 m p1 ->
  exor_u_avx_body (i, po, p0, p1) m = Done (i', po', p0', p1') m' ->
  aligned32 m' po' /\ aligned32 m' p0' /\ aligned32 m' p1'.
Proof.
  intros Ho H0 H1. unfold exor_u_avx_body, bind.
  destruct (_mm256_loadu_ps p0 m) as [src0 m1| |] eqn:E0; [|done..].
  destruct (_mm256_loadu_ps p1 m1) as [src1 m2| |] eqn:E1; [|done..].
  destruct (_mm256_storeu_ps po (_mm256_xor_ps src0 src1) m2) as [u m3| |] eqn:E2; [|done..].
  unfold ret. intros [= _ <- <- <- <-].
  assert (B : bases m3 = bases m).
  { rewrite (store_bytes_bases _ _ _ _ _ E2), (load_bytes_bases _ _ _ _ _ E1).
    by eapply load_bytes_bases. }
  repeat split; apply aligned32_add; by eapply aligned32_bases.
Qed.

Lemma exor_avx_while_eq (cond : Z * ptr * ptr * ptr -> bool) fuel : forall i po p0 p1 m,
  aligned32 m po -> aligned32 m p0 -> aligned32 m p1 ->
  while fuel cond exor_a_avx_body (i, po, p0, p1) m
  = while fuel cond exor_u_avx_body (i, po, p0, p1) m.
Proof.
  induction fuel as [|fuel IH]; intros i po p0 p1 m Ho H0 H1; cbn [while]; [done|].
  destruct (cond (i, po, p0, p1)); [|done].
  unfold bind. rewrite exor_a_avx_body_eq by done.
  destruct (exor_u_avx_body (i, po, p0, p1) m) as [[[[i' po'] p0'] p1'] m'| |] eqn:E; [|done..].
  destruct (exor_u_avx_body_aligned _ _ _ _ _ _ _ _ _ _ Ho H0 H1 E) as (Ho' & H0' & H1').
  by apply IH.
Qed.

(** ** The kernels on concrete buffers *)

Example pack8_generic_packs_msb_first :
  volk_8u_pack8_8u_generic (Ptr 0 0) (Ptr 1 0) 1
    (Mem [Block 0 [0]; Block 64 [1; 0; 1; 1; 0; 0; 0; 1]] [])
  = Done tt (Mem [Block 0 [0xB1]; Block 64 [1; 0; 1; 1; 0; 0; 0; 1]]
               (pack_byte_events (Ptr 0 0) (Ptr 1 0))).
Proof. reflexivity. Qed.

Example pack8_generic_faults_on_short_input :
  volk_8u_pack8_8u_generic (Ptr 0 0) (Ptr 1 0) 1
    (Mem [Block 0 [0]; Block 64 [1; 0; 1; 1; 0; 0; 0]] [])
  = Fault.
Proof. reflexivity. Qed.

Example unpack8_generic_unpacks_msb_first :
  volk_8u_unpack8_8u_generic (Ptr 0 0) (Ptr 1 0) 1
    (Mem [Block 0 (replicate 8 7); Block 64 [0xB1]] [])
  = Done tt (Mem [Block 0 [1; 0; 1; 1; 0; 0; 0; 1]; Block 64 [0xB1]]
               (unpack_byte_events (Ptr 0 0) (Ptr 1 0))).
Proof. reflexivity. Qed.

(** The aligned entry point faults on a misaligned buffer as soon as the
    vector loop runs, where the unaligned one returns. *)
Example exor_a_avx_faults_when_misaligned :
  volk_8u_x2_exor_8u_a_avx (Ptr 0 0) (Ptr 1 0) (Ptr 2 0) 32
    (Mem [Block 1 (replicate 32 0); Block 64 (replicate 32 170); Block 128 (replicate 32 15)] [])
  = Fault /\
  exists tr,
    volk_8u_x2_exor_8u_u_avx (Ptr 0 0) (Ptr 1 0) (Ptr 2 0) 32
      (Mem [Block 1 (replicate 32 0); Block 64 (replicate 32 170); Block 128 (replicate 32 15)] [])
    = Done tt (Mem [Block 1 (replicate 32 165); Block 64 (replicate 32 170);
                    Block 128 (replicate 32 15)] tr).
Proof. split; [reflexivity|]. eexists. vm_compute. reflexivity. Qed.

(** ** volk_8u_pack8_8u and its puppet: main results *)

(** C2.  The puppet adapter called with length [num_bytes] is the generic
    packing kernel called with [num_bytes / 8].  Run on an output buffer of
    at least [num_bytes / 8] bytes and an input buffer of at least
    [8 * (num_bytes / 8)] bytes it returns, rewrites the first
    [num_bytes / 8] output bytes and no others, stores only at output
    offsets below [num_bytes / 8], and loads from the input buffer exactly
    the offsets below [8 * (num_bytes / 8)]. *)
Theorem pack8puppet_generic_footprint bs bo bi ao ai out inb num_bytes :
  bs !! bo = Some (Block ao out) -> bs !! bi = Some (Block ai inb) -> bo ≠ bi ->
  0 <= num_bytes < 2 ^ 32 ->
  (Z.to_nat (num_bytes / 8) <= length out)%nat ->
  (8 * Z.to_nat (num_bytes / 8) <= length inb)%nat ->
  (forall po pi m,
     volk_8u_pack8puppet_8u_generic po pi num_bytes m
     = volk_8u_pack8_8u_generic po pi (num_bytes / 8) m) /\
  exists tr,
    volk_8u_pack8puppet_8u_generic (Ptr bo 0) (Ptr bi 0) num_bytes (Mem bs [])
    = Done tt (Mem (<[bo := Block ao ((pack_bits <$> chunks8 (Z.to_nat (num_bytes / 8)) inb)
                                       ++ drop (Z.to_nat (num_bytes / 8)) out)]> bs) tr) /\
    (forall p, p ∈ stores tr <-> exists j, (j < Z.to_nat (num_bytes / 8))%nat /\ p = Ptr bo j) /\
    (forall j, Ptr bi j ∈ loads tr <-> (j < 8 * Z.to_nat (num_bytes / 8))%nat).
Proof.
  intros Hbo Hbi Hne Hn Ho Hi. split; [reflexivity|].
  unfold volk_8u_pack8puppet_8u_generic.
  assert (Hq : 0 <= num_bytes / 8 < 2 ^ 32).
  { split; [apply Z.div_pos; lia|]. apply Z.div_lt_upper_bound; lia. }
  rewrite (pack_generic_run bs bo bi ao ai out inb [] 0 0 (num_bytes / 8)) by (done || lia).
  eexists. split; [|split].
  - rewrite pack_out_closed by lia. by rewrite take_0, drop_0, Nat.add_0_l.
  - intros p. rewrite app_nil_r, pack_events_stores.
    unfold ptr_add. cbn [blk off]. reflexivity.
  - intros j. rewrite app_nil_r, pack_events_loads.
    unfold ptr_add. cbn [blk off]. split.
    + intros [(j' & _ & [=])|(j' & Hj' & [= ->])]; [congruence|lia].
    + intros Hj. right. by exists j.
Qed.

(** The harness-controlled length 64: the adapter writes exactly the eight
    bytes at output offsets 0..7 (64 / 8) and reads the 64 input bytes. *)
Lemma puppet_length_64_writes_8_bytes :
  exists tr,
    volk_8u_pack8puppet_8u_generic (Ptr 0 0) (Ptr 1 0) 64
      (Mem [Block 0 (replicate 16 0); Block 4096 (replicate 64 1)] [])
    = Done tt (Mem [Block 0 (replicate 8 255 ++ replicate 8 0); Block 4096 (replicate 64 1)] tr) /\
    (forall p, p ∈ stores tr <-> exists j, (j < 8)%nat /\ p = Ptr 0 j) /\
    (forall j, Ptr 1 j ∈ loads tr <-> (j < 64)%nat).
Proof.
  destruct (pack8puppet_generic_footprint
              [Block 0 (replicate 16 0); Block 4096 (replicate 64 1)] 0 1 0 4096
              (replicate 16 0) (replicate 64 1) 64)
    as (_ & tr & Hrun & Hst & Hld).
  - reflexivity.
  - reflexivity.
  - discriminate.
  - lia.
  - vm_compute. lia.
  - vm_compute. lia.
  - exists tr. split; [exact Hrun|]. split; [exact Hst|exact Hld].
Defined.

(** C3.  On every length and every input buffer holding eight bytes per
    output byte, the SSSE3 variant and the generic kernel both return and
    leave the same output buffer. *)
Theorem pack8_u_ssse3_matches_generic bs bo bi ao ai out inb tr num_bytes :
  bs !! bo = Some (Block ao out) -> bs !! bi = Some (Block ai inb) -> bo ≠ bi ->
  0 <= num_bytes < 2 ^ 32 ->
  (Z.to_nat num_bytes <= length out)%nat ->
  (8 * Z.to_nat num_bytes <= length inb)%nat ->
  exists out' tg ts,
    volk_8u_pack8_8u_generic (Ptr bo 0) (Ptr bi 0) num_bytes (Mem bs tr)
    = Done tt (Mem (<[bo := Block ao out']> bs) tg) /\
    volk_8u_pack8_8u_u_ssse3 (Ptr bo 0) (Ptr bi 0) num_bytes (Mem bs tr)
    = Done tt (Mem (<[bo := Block ao out']> bs) ts) /\
    out' = (pack_bits <$> chunks8 (Z.to_nat num_bytes) inb) ++ drop (Z.to_nat num_bytes) out.
Proof.
  intros Hbo Hbi Hne Hn Ho Hi.
  destruct (pack_ssse3_run bs bo bi ao ai out inb tr 0 0 num_bytes) as [ts Hs];
    try done; try lia.
  exists (pack_out (Z.to_nat num_bytes) 0 0 inb out). eexists. exists ts.
  split; [|split].
  - apply (pack_generic_run bs bo bi ao ai out inb tr 0 0 num_bytes); done || lia.
  - exact Hs.
  - rewrite pack_out_closed by lia. by rewrite take_0, drop_0, Nat.add_0_l.
Qed.

Lemma pack8_u_ssse3_matches_generic_witness :
  exists out' tg ts,
    volk_8u_pack8_8u_generic (Ptr 0 0) (Ptr 1 0) 3
      (Mem [Block 0 [0; 0; 0]; Block 64 (replicate 24 1)] [])
    = Done tt (Mem [Block 0 out'; Block 64 (replicate 24 1)] tg) /\
    volk_8u_pack8_8u_u_ssse3 (Ptr 0 0) (Ptr 1 0) 3
      (Mem [Block 0 [0; 0; 0]; Block 64 (replicate 24 1)] [])
    = Done tt (Mem [Block 0 out'; Block 64 (replicate 24 1)] ts) /\
    out' = [255; 255; 255].
Proof.
  destruct (pack8_u_ssse3_matches_generic
              [Block 0 [0; 0; 0]; Block 64 (replicate 24 1)] 0 1 0 64
              [0; 0; 0] (replicate 24 1) [] 3)
    as (out' & tg & ts & Hg & Hs & Hout).
  - reflexivity.
  - reflexivity.
  - discriminate.
  - lia.
  - vm_compute. lia.
  - vm_compute. lia.
  - exists out', tg, ts. split; [exact Hg|]. split; [exact Hs|exact Hout].
Defined.

(** C10.  Bit order of packing: output byte [i] is a byte whose bit
    [7 - k] is the least significant bit of input byte [8 * i + k], for
    every [i < num_bytes] and [0 <= k <= 7]. *)
Theorem pack8_generic_bit_order bs bo bi ao ai out inb tr num_bytes i k :
  bs !! bo = Some (Block ao out) -> bs !! bi = Some (Block ai inb) -> bo ≠ bi ->
  0 <= num_bytes < 2 ^ 32 ->
  (Z.to_nat num_bytes <= length out)%nat ->
  (8 * Z.to_nat num_bytes <= length inb)%nat ->
  (i < Z.to_nat num_bytes)%nat -> (k <= 7)%nat ->
  exists out' tr' y x,
    volk_8u_pack8_8u_generic (Ptr bo 0) (Ptr bi 0) num_bytes (Mem bs tr)
    = Done tt (Mem (<[bo := Block ao out']> bs) tr') /\
    out' !! i = Some y /\ inb !! (8 * i + k)%nat = Some x /\
    0 <= y < 256 /\
    Z.b2z (Z.testbit y (7 - Z.of_nat k)) = Z.land x 1.
Proof.
  intros Hbo Hbi Hne Hn Ho Hi Hlt Hk.
  rewrite (pack_generic_run bs bo bi ao ai out inb tr 0 0 num_bytes) by (done || lia).
  rewrite pack_out_closed by lia. rewrite take_0, drop_0, Nat.add_0_l. cbn [app].
  destruct (lookup_lt_is_Some_2 inb (8 * i + k)) as [x Hx]; [lia|].
  set (c := take 8 (drop (8 * i) inb)).
  assert (Hc : length c = 8%nat) by (subst c; rewrite length_take, length_drop; lia).
  eexists _, _, (pack_bits c), x. split; [reflexivity|]. split; [|split; [done|split]].
  - rewrite lookup_app_l by (rewrite length_fmap, chunks8_length; lia).
    rewrite list_lookup_fmap, chunks8_lookup by lia. done.
  - pose proof (pack_bits_bound c) as Hb. rewrite Hc in Hb. exact Hb.
  - apply pack_bits_bit; [done|]. subst c.
    rewrite lookup_take_lt by lia. by rewrite lookup_drop.
Qed.

Lemma pack8_generic_bit_order_witness :
  exists out' tr' y x,
    volk_8u_pack8_8u_generic (Ptr 0 0) (Ptr 1 0) 2
      (Mem [Block 0 [0; 0]; Block 64 [1; 0; 1; 1; 0; 0; 0; 1; 3; 2; 2; 2; 2; 2; 2; 255]] [])
    = Done tt (Mem [Block 0 out'; Block 64 [1; 0; 1; 1; 0; 0; 0; 1; 3; 2; 2; 2; 2; 2; 2; 255]] tr') /\
    out' !! 1%nat = Some y /\
    [1; 0; 1; 1; 0; 0; 0; 1; 3; 2; 2; 2; 2; 2; 2; 255] !! 15%nat = Some x /\
    0 <= y < 256 /\
    Z.b2z (Z.testbit y 0) = Z.land x 1.
Proof.
  destruct (pack8_generic_bit_order
              [Block 0 [0; 0]; Block 64 [1; 0; 1; 1; 0; 0; 0; 1; 3; 2; 2; 2; 2; 2; 2; 255]]
              0 1 0 64 [0; 0] [1; 0; 1; 1; 0; 0; 0; 1; 3; 2; 2; 2; 2; 2; 2; 255] [] 2 1 7)
    as (out' & tr' & y & x & Hrun & Hy & Hx & Hr & Hbit).
  - reflexivity.
  - reflexivity.
  - discriminate.
  - lia.
  - vm_compute. lia.
  - vm_compute. lia.
  - vm_compute. lia.
  - lia.
  - exists out', tr', y, x. split; [exact Hrun|]. split; [exact Hy|]. split; [exact Hx|].
    split; [exact Hr|exact Hbit].
Defined.

(** ** volk_8u_unpack8_8u: main results *)

(** C5.  On every length and every input buffer of bytes, the SSSE3 variant
    and the generic kernel both return and leave the same output buffer:
    eight output bytes per input byte, the rest untouched. *)
Theorem unpack8_u_ssse3_matches_generic bs bo bi ao ai out inb tr num_bytes :
  bs !! bo = Some (Block ao out) -> bs !! bi = Some (Block ai inb) -> bo ≠ bi ->
  Forall is_byte inb ->
  0 <= num_bytes < 2 ^ 32 ->
  (8 * Z.to_nat num_bytes <= length out)%nat ->
  (Z.to_nat num_bytes <= length inb)%nat ->
  exists out' tg ts,
    volk_8u_unpack8_8u_generic (Ptr bo 0) (Ptr bi 0) num_bytes (Mem bs tr)
    = Done tt (Mem (<[bo := Block ao out']> bs) tg) /\
    volk_8u_unpack8_8u_u_ssse3 (Ptr bo 0) (Ptr bi 0) num_bytes (Mem bs tr)
    = Done tt (Mem (<[bo := Block ao out']> bs) ts) /\
    out' = concat (unpack_bits <$> take (Z.to_nat num_bytes) inb)
           ++ drop (8 * Z.to_nat num_bytes) out.
Proof.
  intros Hbo Hbi Hne Hby Hn Ho Hi.
  destruct (unpack_ssse3_run bs bo bi ao ai out inb tr 0 0 num_bytes) as [ts Hs];
    try done; try lia.
  exists (unpack_out (Z.to_nat num_bytes) 0 0 inb out). eexists. exists ts.
  split; [|split].
  - apply (unpack_generic_run bs bo bi ao ai out inb tr 0 0 num_bytes); done || lia.
  - exact Hs.
  - rewrite unpack_out_closed by lia. by rewrite take_0, drop_0, Nat.add_0_l.
Qed.

Lemma unpack8_u_ssse3_matches_generic_witness :
  exists out' tg ts,
    volk_8u_unpack8_8u_generic (Ptr 0 0) (Ptr 1 0) 3
      (Mem [Block 0 (replicate 24 7); Block 64 [177; 129; 15]] [])
    = Done tt (Mem [Block 0 out'; Block 64 [177; 129; 15]] tg) /\
    volk_8u_unpack8_8u_u_ssse3 (Ptr 0 0) (Ptr 1 0) 3
      (Mem [Block 0 (replicate 24 7); Block 64 [177; 129; 15]] [])
    = Done tt (Mem [Block 0 out'; Block 64 [177; 129; 15]] ts) /\
    out' = [1; 0; 1; 1; 0; 0; 0; 1; 1; 0; 0; 0; 0; 0; 0; 1; 0; 0; 0; 0; 1; 1; 1; 1].
Proof.
  destruct (unpack8_u_ssse3_matches_generic
              [Block 0 (replicate 24 7); Block 64 [177; 129; 15]] 0 1 0 64
              (replicate 24 7) [177; 129; 15] [] 3)
    as (out' & tg & ts & Hg & Hs & Hout).
  - reflexivity.
  - reflexivity.
  - discriminate.
  - repeat constructor; unfold is_byte; lia.
  - lia.
  - vm_compute. lia.
  - vm_compute. lia.
  - exists out', tg, ts. split; [exact Hg|]. split; [exact Hs|exact Hout].
Defined.

(** C9.  Pack after unpack is the identity: unpacking the first [n] bytes
    of [x] into [tmp] and packing [tmp] into [y] returns and leaves in the
    first [n] bytes of [y] the first [n] bytes of [x]. *)
Theorem pack8_after_unpack8_identity bs by_ bt bx ay at_ ax y tmp x tr n :
  bs !! by_ = Some (Block ay y) -> bs !! bt = Some (Block at_ tmp) ->
  bs !! bx = Some (Block ax x) ->
  by_ ≠ bt -> bt ≠ bx ->
  Forall is_byte x ->
  0 <= n < 2 ^ 32 ->
  (Z.to_nat n <= length x)%nat -> (8 * Z.to_nat n <= length tmp)%nat ->
  (Z.to_nat n <= length y)%nat ->
  exists y' tmp' tr',
    unpack_then_pack (Ptr by_ 0) (Ptr bt 0) (Ptr bx 0) n (Mem bs tr)
    = Done tt (Mem (<[by_ := Block ay y']> (<[bt := Block at_ tmp']> bs)) tr') /\
    take (Z.to_nat n) y' = take (Z.to_nat n) x.
Proof.
  intros Hy Ht Hx Hyt Htx Hbx Hn Hlx Hlt Hly. unfold unpack_then_pack.
  rewrite (bind_done _ _ _ _ _
             (unpack_generic_run bs bt bx at_ ax tmp x tr 0 0 n Ht Hx Htx Hn
                ltac:(lia) ltac:(lia))).
  set (tmp' := unpack_out (Z.to_nat n) 0 0 x tmp).
  assert (Hbt : (bt < length bs)%nat) by eauto using lookup_lt_Some.
  rewrite (pack_generic_run (<[bt := Block at_ tmp']> bs) by_ bt ay at_ y tmp' _ 0 0 n).
  - eexists _, _, _. split; [reflexivity|].
    rewrite pack_out_closed by lia. rewrite take_0, drop_0, Nat.add_0_l. cbn [app].
    subst tmp'. rewrite unpack_out_closed by lia.
    rewrite take_0, drop_0, Nat.add_0_l. cbn [app].
    assert (Hlen : length (take (Z.to_nat n) x) = Z.to_nat n) by (rewrite length_take; lia).
    rewrite chunks8_concat by (apply unpack_bits_length || exact Hlen).
    rewrite <- list_fmap_compose.
    rewrite take_app_length'.
    + rewrite <- (list_fmap_id (take (Z.to_nat n) x)) at 2.
      apply Forall_fmap_ext_1. apply Forall_take.
      eapply Forall_impl; [exact Hbx|]. intros z Hz. by apply pack_unpack_bits.
    + by rewrite length_fmap.
  - by rewrite list_lookup_insert_ne.
  - by rewrite list_lookup_insert_eq.
  - done.
  - done.
  - lia.
  - subst tmp'. rewrite unpack_out_length. lia.
Qed.

Lemma pack8_after_unpack8_identity_witness :
  exists y' tmp' tr',
    unpack_then_pack (Ptr 0 0) (Ptr 1 0) (Ptr 2 0) 3
      (Mem [Block 0 [0; 0; 0]; Block 64 (replicate 24 9); Block 128 [177; 129; 15]] [])
    = Done tt (Mem [Block 0 y'; Block 64 tmp'; Block 128 [177; 129; 15]] tr') /\
    take 3 y' = [177; 129; 15].
Proof.
  destruct (pack8_after_unpack8_identity
              [Block 0 [0; 0; 0]; Block 64 (replicate 24 9); Block 128 [177; 129; 15]]
              0 1 2 0 64 128 [0; 0; 0] (replicate 24 9) [177; 129; 15] [] 3)
    as (y' & tmp' & tr' & Hrun & Htake).
  - reflexivity.
  - reflexivity.
  - reflexivity.
  - discriminate.
  - discriminate.
  - repeat constructor; unfold is_byte; lia.
  - lia.
  - vm_compute. lia.
  - vm_compute. lia.
  - vm_compute. lia.
  - exists y', tmp', tr'. split; [exact Hrun|exact Htake].
Defined.

(** ** volk_8u_x2_exor_8u: main results *)

(** C4.  On every length and every pair of input buffers of bytes, the AVX
    variant and the generic kernel both return and leave the same output
    buffer; its byte [i], for [i < num_bytes], is the exclusive or of the
    input bytes [i], later bytes are untouched, and the stores of the AVX
    variant, oldest first, hit the offsets [0, 1, ..., num_bytes - 1] once
    each. *)
Theorem exor_u_avx_matches_generic bs bo b0 b1 ao a0 a1 out in0 in1 num_bytes :
  bs !! bo = Some (Block ao out) ->
  bs !! b0 = Some (Block a0 in0) -> bs !! b1 = Some (Block a1 in1) ->
  bo ≠ b0 -> bo ≠ b1 ->
  Forall is_byte in0 -> Forall is_byte in1 ->
  0 <= num_bytes < 2 ^ 32 ->
  (Z.to_nat num_bytes <= length out)%nat ->
  (Z.to_nat num_bytes <= length in0)%nat -> (Z.to_nat num_bytes <= length in1)%nat ->
  exists out' tg tv,
    volk_8u_x2_exor_8u_generic (Ptr bo 0) (Ptr b0 0) (Ptr b1 0) num_bytes (Mem bs [])
    = Done tt (Mem (<[bo := Block ao out']> bs) tg) /\
    volk_8u_x2_exor_8u_u_avx (Ptr bo 0) (Ptr b0 0) (Ptr b1 0) num_bytes (Mem bs [])
    = Done tt (Mem (<[bo := Block ao out']> bs) tv) /\
    out' = zip_with Z.lxor (take (Z.to_nat num_bytes) in0) (take (Z.to_nat num_bytes) in1)
           ++ drop (Z.to_nat num_bytes) out /\
    reverse (stores tv) = Ptr bo <$> seq 0 (Z.to_nat num_bytes).
Proof.
  intros Hbo Hb0 Hb1 Hne0 Hne1 Hby0 Hby1 Hn Ho H0 H1.
  destruct (exor_u_avx_run bs bo b0 b1 ao a0 a1 out in0 in1 [] 0 0 0 num_bytes)
    as (k & r & Hkr & Hv); try done; try lia.
  eexists _, _, _. split; [|split; [exact Hv|split]].
  - apply (exor_generic_run bs bo b0 b1 ao a0 a1 out in0 in1 [] 0 0 0 num_bytes);
      done || lia.
  - rewrite <- (write_bytes_xor (Z.to_nat num_bytes) 0 0 0 in0 in1 out) by lia.
    rewrite !drop_0, write_bytes_closed
      by (rewrite length_zip_with, !length_take; lia).
    rewrite take_0, length_zip_with, !length_take. cbn [app].
    f_equal; [|f_equal; lia].
    rewrite <- (list_fmap_id (zip_with _ _ _)) at 2.
    apply Forall_fmap_ext_1. apply (Forall_zip_with_fst _ is_byte).
    + by apply Forall_take.
    + apply Forall_take. eapply Forall_impl; [exact Hby1|].
      intros y Hy x Hx. by apply lxor_byte.
  - rewrite !stores_app. cbn [stores]. rewrite app_nil_r.
    rewrite exor_events_stores, exor_avx_events_stores.
    change (Ptr bo (0 + 32 * k)) with (Ptr bo 0 +ₚ (32 * k)).
    rewrite store_range_app, reverse_involutive, Hkr.
    apply list_fmap_ext. intros _ j _. reflexivity.
Qed.

Lemma exor_u_avx_matches_generic_witness :
  exists out' tg tv,
    volk_8u_x2_exor_8u_generic (Ptr 0 0) (Ptr 1 0) (Ptr 2 0) 33
      (Mem [Block 0 (replicate 40 0); Block 64 (replicate 40 170); Block 128 (replicate 40 15)] [])
    = Done tt (Mem [Block 0 out'; Block 64 (replicate 40 170); Block 128 (replicate 40 15)] tg) /\
    volk_8u_x2_exor_8u_u_avx (Ptr 0 0) (Ptr 1 0) (Ptr 2 0) 33
      (Mem [Block 0 (replicate 40 0); Block 64 (replicate 40 170); Block 128 (replicate 40 15)] [])
    = Done tt (Mem [Block 0 out'; Block 64 (replicate 40 170); Block 128 (replicate 40 15)] tv) /\
    out' = replicate 33 165 ++ replicate 7 0 /\
    reverse (stores tv) = Ptr 0 <$> seq 0 33.
Proof.
  destruct (exor_u_avx_matches_generic
              [Block 0 (replicate 40 0); Block 64 (replicate 40 170); Block 128 (replicate 40 15)]
              0 1 2 0 64 128 (replicate 40 0) (replicate 40 170) (replicate 40 15) 33)
    as (out' & tg & tv & Hg & Hv & Hout & Hst).
  - reflexivity.
  - reflexivity.
  - reflexivity.
  - discriminate.
  - discriminate.
  - apply Forall_replicate. unfold is_byte. lia.
  - apply Forall_replicate. unfold is_byte. lia.
  - lia.
  - vm_compute. lia.
  - vm_compute. lia.
  - vm_compute. lia.
  - exists out', tg, tv. split; [exact Hg|]. split; [exact Hv|]. split; [exact Hout|exact Hst].
Defined.

(** C7.  When the three pointers are 32-byte aligned, the aligned and the
    unaligned AVX entry points have the same outcome on every length and
    every memory: the same output buffer, or the same fault. *)
Theorem exor_a_avx_agrees_with_u_avx m outputVector inputVector0 inputVector1 num_bytes :
  aligned32 m outputVector -> aligned32 m inputVector0 -> aligned32 m inputVector1 ->
  volk_8u_x2_exor_8u_a_avx outputVector inputVector0 inputVector1 num_bytes m
  = volk_8u_x2_exor_8u_u_avx outputVector inputVector0 inputVector1 num_bytes m.
Proof.
  intros Ho H0 H1. unfold volk_8u_x2_exor_8u_a_avx, volk_8u_x2_exor_8u_u_avx, bind.
  cbv zeta. by rewrite exor_avx_while_eq.
Qed.

Lemma exor_a_avx_agrees_with_u_avx_witness :
  volk_8u_x2_exor_8u_a_avx (Ptr 0 0) (Ptr 1 0) (Ptr 2 0) 33
    (Mem [Block 0 (replicate 40 0); Block 64 (replicate 40 170); Block 128 (replicate 40 15)] [])
  = volk_8u_x2_exor_8u_u_avx (Ptr 0 0) (Ptr 1 0) (Ptr 2 0) 33
    (Mem [Block 0 (replicate 40 0); Block 64 (replicate 40 170); Block 128 (replicate 40 15)] []).
Proof.
  apply exor_a_avx_agrees_with_u_avx.
  - exists 0. split; reflexivity.
  - exists 64. split; reflexivity.
  - exists 128. split; reflexivity.
Defined.

(** ** Kernel registry *)

(** C1, as stated, fails: the atan2 header declares two variants guarded by
    [LV_HAVE_GENERIC] alone, [generic] and [polynomial]. *)
Lemma atan2_has_two_extension_free_variants :
  volk_32fc_s32f_atan2_32f ∈ kernels /\
  count_extension_free volk_32fc_s32f_atan2_32f = 2%nat /\
  ~ (forall k, k ∈ kernels -> count_extension_free k = 1%nat).
Proof.
  assert (Hin : volk_32fc_s32f_atan2_32f ∈ kernels).
  { unfold kernels. apply list_elem_of_further, list_elem_of_here. }
  split; [exact Hin|]. split; [reflexivity|].
  intros H. specialize (H _ Hin). discriminate H.
Qed.

(** C1, amended.  Every kernel header of the repository declares at least
    one variant without required extension, and exactly one variant named
    [generic], which is one of them. *)
Theorem every_kernel_has_one_generic :
  Forall (fun k =>
            (1 <= count_extension_free k)%nat /\
            count_named "generic" k = 1%nat /\
            Forall (fun i => impl_name i = "generic" -> extension_free i = true) (impls k))
         kernels.
Proof.
  unfold kernels. repeat apply Forall_cons_2; try apply Forall_nil_2.
  all: split; [vm_compute; lia|split; [reflexivity|]].
  all: repeat apply Forall_cons_2; try apply Forall_nil_2.
  all: intros H; first [reflexivity | discriminate H].
Qed.

Lemma every_kernel_has_one_generic_witness :
  (1 <= count_extension_free volk_32fc_s32f_atan2_32f)%nat /\
  count_named "generic" volk_32fc_s32f_atan2_32f = 1%nat.
Proof.
  pose proof every_kernel_has_one_generic as H.
  apply Forall_cons_1 in H as [_ H]. apply Forall_cons_1 in H as [(H1 & H2 & _) _].
  split; [exact H1|exact H2].
Defined.

(** ** Selector *)

Lemma insert_by_preference_elem topo_rank v l x :
  x ∈ Selector.insert_by_preference topo_rank v l <-> x = v \/ x ∈ l.
Proof.
  induction l as [|w l IH]; cbn [Selector.insert_by_preference].
  - rewrite list_elem_of_singleton, elem_of_nil. tauto.
  - destruct (_ <? _)%nat.
    + rewrite !elem_of_cons, IH. tauto.
    + by rewrite !elem_of_cons.
Qed.

Lemma sort_by_preference_elem topo_rank l x :
  x ∈ Selector.sort_by_preference topo_rank l <-> x ∈ l.
Proof.
  unfold Selector.sort_by_preference.
  induction l as [|w l IH]; cbn [foldr]; [done|].
  by rewrite insert_by_preference_elem, elem_of_cons, IH.
Qed.

(** C6, as stated, fails on the selection algorithm of the specification: a
    descriptor that satisfies the registry invariant with an aligned-only
    generic variant is ranked to the empty list when the caller gives no
    alignment guarantee. *)
Lemma rank_empty_for_aligned_only_generic :
  Selector.registry_invariant Selector.aligned_only_generic /\
  Selector.rank (fun _ => O) Selector.aligned_only_generic Selector.no_extensions
    Selector.AlignNone = Selector.Ranked [].
Proof. split; reflexivity. Qed.

(** C6, amended.  For every capability set, alignment hint and kernel
    descriptor that has a variant without required extension admitted by the
    hint, [rank] returns a non-empty list, and the required extension of its
    head, if any, is a member of the capability set. *)
Theorem rank_head_is_legal topo_rank d caps hint :
  Selector.has_usable_fallback d hint = true ->
  exists v l,
    Selector.rank topo_rank d caps hint = Selector.Ranked (v :: l) /\
    forall e, Selector.required_extension v = Some e -> e ∈ Selector.extensions caps.
Proof.
  intros Hfb. unfold Selector.has_usable_fallback in Hfb.
  apply existsb_exists in Hfb as (g & Hg & Hgb).
  apply andb_true_iff in Hgb as [Hgf Hga]. apply list_elem_of_In in Hg.
  unfold Selector.rank.
  set (supported := filter (fun v => Selector.extension_ok caps v = true) (Selector.variants d)).
  assert (Hgs : g ∈ supported).
  { subst supported. apply list_elem_of_filter. split; [|done].
    unfold Selector.extension_ok. unfold Selector.is_fallback in Hgf.
    by destruct (Selector.required_extension g). }
  destruct supported as [|s0 supported'] eqn:Hsup; [by apply elem_of_nil in Hgs|].
  rewrite <- Hsup in *. clear Hsup s0 supported'.
  set (eligible := filter (fun v => Selector.alignment_ok hint v = true) supported).
  assert (Hge : g ∈ Selector.sort_by_preference topo_rank eligible).
  { apply sort_by_preference_elem. subst eligible. by apply list_elem_of_filter. }
  destruct (Selector.sort_by_preference topo_rank eligible) as [|v l] eqn:Hsort;
    [by apply elem_of_nil in Hge|].
  exists v, l. split; [done|].
  assert (Hv : v ∈ Selector.sort_by_preference topo_rank eligible)
    by (rewrite Hsort; apply list_elem_of_here).
  apply sort_by_preference_elem in Hv. subst eligible supported.
  apply list_elem_of_filter in Hv as [_ Hv]. apply list_elem_of_filter in Hv as [Hv _].
  intros e He. unfold Selector.extension_ok in Hv. rewrite He in Hv.
  by apply bool_decide_eq_true in Hv.
Qed.

Lemma rank_head_is_legal_witness :
  exists v l,
    Selector.rank (fun _ => O) Selector.generic_and_fast Selector.no_extensions
      Selector.AlignNone = Selector.Ranked (v :: l) /\
    forall e, Selector.required_extension v = Some e
              -> e ∈ Selector.extensions Selector.no_extensions.
Proof. apply rank_head_is_legal. reflexivity. Defined.

(** ** Profiling harness *)

(** C8 fails on the code.  With the default vector length and the
    implementation [generic], whose name does not contain ["a_"], each
    buffer holds 131071 elements, the pointers handed to the kernel are
    advanced by one element, and the kernel is called on 131071 elements:
    the element of index 131071 is accessed, one past the allocation. *)
Lemma BM_multiply_unaligned_overrun :
  BM_volk_32fc_x2_multiply_32fc "generic" 131071
  = {| allocated := 131071; ptr_offset := 1; call_length := 131071 |} /\
  BM_volk_32f_s32f_multiply_32f "generic" 131071
  = {| allocated := 131071; ptr_offset := 1; call_length := 131071 |} /\
  accessed (BM_volk_32fc_x2_multiply_32fc "generic" 131071) 131071 /\
  ~ in_bounds (BM_volk_32fc_x2_multiply_32fc "generic" 131071) /\
  ~ in_bounds (BM_volk_32f_s32f_multiply_32f "generic" 131071).
Proof.
  split; [reflexivity|]. split; [reflexivity|].
  assert (Ha : accessed (BM_volk_32fc_x2_multiply_32fc "generic" 131071) 131071)
    by (unfold accessed; cbn; lia).
  split; [exact Ha|].
  split; intros H; specialize (H 131071 Ha); cbn in H; lia.
Qed.

(** The overrun happens for every implementation whose name does not
    contain ["a_"] and every positive length, ... *)
Lemma BM_multiply_overrun_when_unaligned impl_name vector_length :
  contains "a_" impl_name = false -> 1 <= vector_length ->
  ~ in_bounds (BM_volk_32fc_x2_multiply_32fc impl_name vector_length) /\
  ~ in_bounds (BM_volk_32f_s32f_multiply_32f impl_name vector_length).
Proof.
  intros Hc Hv.
  unfold BM_volk_32fc_x2_multiply_32fc, BM_volk_32f_s32f_multiply_32f. rewrite Hc.
  cbn [negb]. split; intros H; specialize (H vector_length);
    unfold accessed in H; cbn [allocated ptr_offset call_length] in H; lia.
Qed.

(** ... while the buffers of the implementations whose name contains ["a_"]
    have one spare element. *)
Lemma BM_multiply_in_bounds_when_aligned impl_name vector_length :
  contains "a_" impl_name = true -> 0 <= vector_length < 2 ^ 64 - 1 ->
  in_bounds (BM_volk_32fc_x2_multiply_32fc impl_name vector_length) /\
  in_bounds (BM_volk_32f_s32f_multiply_32f impl_name vector_length).
Proof.
  intros Hc Hv.
  unfold BM_volk_32fc_x2_multiply_32fc, BM_volk_32f_s32f_multiply_32f. rewrite Hc.
  cbn [negb]. unfold in_bounds, accessed, size_t. cbn [allocated ptr_offset call_length].
  rewrite Z.mod_small by lia. split; intros index Hi; lia.
Qed.

(** ** Aligned SSSE3 packing *)

Lemma store_u16_bases p v m u m' : store_u16 p v m = Done u m' -> bases m' = bases m.
Proof.
  unfold store_u16, bind. destruct (store p (u16 v) m) as [u1 m1| |] eqn:E1; [|done..].
  intros E2. rewrite (store_bases _ _ _ _ _ E2). by eapply store_bases.
Qed.

Lemma aligned16_bases m m' p : bases m' = bases m -> aligned16 m p -> aligned16 m' p.
Proof. unfold aligned16. rewrite !address_bases. by intros ->. Qed.

Lemma aligned16_add m p : aligned16 m p -> aligned16 m (p +ₚ 16).
Proof.
  unfold aligned16, address. cbn [ptr_add blk off].
  destruct (blocks m !! blk p) as [B|]; intros (x & Hx0 & Hx); [|done].
  injection Hx0 as <-.
  eexists. split; [reflexivity|].
  rewrite Nat2Z.inj_add. revert Hx. Z.div_mod_to_equations. lia.
Qed.

Lemma require_aligned16 m p : aligned16 m p -> require_aligned 16 p m = Done tt m.
Proof.
  intros (x & Hx & Hmod). unfold require_aligned. rewrite Hx.
  by replace (x mod 16 =? 0) with true by (symmetry; by apply Z.eqb_eq).
Qed.

Lemma require_aligned16_fault m p : ~ aligned16 m p -> require_aligned 16 p m = Fault.
Proof.
  intros Hna. unfold require_aligned. destruct (address p m) as [x|] eqn:Hx; [|done].
  destruct (Z.eqb_spec (x mod 16) 0) as [H0|]; [|done].
  destruct Hna. by exists x.
Qed.

Lemma pack_a_ssse3_body_eq byte pi po m :
  aligned16 m pi ->
  pack_a_ssse3_body (byte, pi, po) m = pack_ssse3_body (byte, pi, po) m.
Proof.
  intros Ha. unfold pack_a_ssse3_body, pack_ssse3_body, _mm_load_si128, _mm_loadu_si128.
  cbv beta zeta iota. unfold bind.
  rewrite (require_aligned16 m pi Ha). reflexivity.
Qed.

Lemma pack_ssse3_body_aligned byte pi po m byte' pi' po' m' :
  aligned16 m pi ->
  pack_ssse3_body (byte, pi, po) m = Done (byte', pi', po') m' ->
  aligned16 m' pi'.
Proof.
  intros Ha. unfold pack_ssse3_body, _mm_loadu_si128, bind. cbv beta zeta iota.
  destruct (load_bytes 16 pi m) as [l m1| |] eqn:E1; [|done..].
  destruct (store_u16 po _ m1) as [u m2| |] eqn:E2; [|done..].
  unfold ret. intros [= _ <- _ <-].
  apply aligned16_add. eapply aligned16_bases; [|exact Ha].
  rewrite (store_u16_bases _ _ _ _ _ E2). by eapply load_bytes_bases.
Qed.

Lemma pack_ssse3_while_eq (cond : Z * ptr * ptr -> bool) fuel : forall byte pi po m,
  aligned16 m pi ->
  while fuel cond pack_a_ssse3_body (byte, pi, po) m
  = while fuel cond pack_ssse3_body (byte, pi, po) m.
Proof.
  induction fuel as [|fuel IH]; intros byte pi po m Ha; cbn [while]; [done|].
  destruct (cond (byte, pi, po)); [|done].
  unfold bind. rewrite pack_a_ssse3_body_eq by done.
  destruct (pack_ssse3_body (byte, pi, po) m) as [[[byte' pi'] po'] m'| |] eqn:E; [|done..].
  apply IH. by eapply pack_ssse3_body_aligned.
Qed.

Lemma land_fffffffe_small n : 0 <= n < 2 -> Z.land n 0xFFFFFFFE = 0.
Proof. intros Hn. assert (n = 0 \/ n = 1) as [->| ->] by lia; reflexivity. Qed.

Lemma pack_a_ssse3_eq_aligned m out_buf in_buf num_bytes :
  aligned16 m in_buf ->
  volk_8u_pack8_8u_a_ssse3 out_buf in_buf num_bytes m
  = volk_8u_pack8_8u_u_ssse3 out_buf in_buf num_bytes m.
Proof.
  intros Ha. unfold volk_8u_pack8_8u_a_ssse3, volk_8u_pack8_8u_u_ssse3, bind. cbv zeta.
  by rewrite pack_ssse3_while_eq.
Qed.

(** X1. the aligned SSSE3 packing variant has the outcome of the unaligned one
    on every memory when the input pointer is 16-byte aligned, and also,
    whatever the alignment, when fewer than two bytes are packed. *)
Theorem pack8_a_ssse3_agrees_with_u_ssse3 m out_buf in_buf num_bytes :
  0 <= num_bytes < 2 ^ 32 ->
  aligned16 m in_buf \/ num_bytes < 2 ->
  volk_8u_pack8_8u_a_ssse3 out_buf in_buf num_bytes m
  = volk_8u_pack8_8u_u_ssse3 out_buf in_buf num_bytes m.
Proof.
  intros Hn [Ha|Hlt]; [by apply pack_a_ssse3_eq_aligned|].
  unfold volk_8u_pack8_8u_a_ssse3, volk_8u_pack8_8u_u_ssse3; cbv zeta.
  - rewrite land_fffffffe_small by lia. unfold fuel_for. cbn [while].
    reflexivity.
Qed.

Lemma pack8_a_ssse3_agrees_with_u_ssse3_witness :
  volk_8u_pack8_8u_a_ssse3 (Ptr 0 0) (Ptr 1 0) 3
    (Mem [Block 0 [0; 0; 0]; Block 64 (replicate 24 1)] [])
  = volk_8u_pack8_8u_u_ssse3 (Ptr 0 0) (Ptr 1 0) 3
    (Mem [Block 0 [0; 0; 0]; Block 64 (replicate 24 1)] []).
Proof.
  apply pack8_a_ssse3_agrees_with_u_ssse3; [lia|].
  left. exists 64. split; reflexivity.
Defined.

(** X2. with two or more bytes to pack and an input pointer that is not
    16-byte aligned, the aligned variant faults at its first vector load. *)
Theorem pack8_a_ssse3_faults_when_misaligned m out_buf in_buf num_bytes :
  2 <= num_bytes < 2 ^ 32 ->
  ~ aligned16 m in_buf ->
  volk_8u_pack8_8u_a_ssse3 out_buf in_buf num_bytes m = Fault.
Proof.
  intros Hn Hna. unfold volk_8u_pack8_8u_a_ssse3. cbv zeta.
  rewrite land_fffffffe by lia. unfold fuel_for. cbn [while].
  replace (0 <? 2 * (num_bytes / 2)) with true
    by (symmetry; apply Z.ltb_lt; Z.div_mod_to_equations; lia).
  unfold pack_a_ssse3_body, _mm_load_si128. cbv beta zeta iota.
  unfold bind. by rewrite require_aligned16_fault.
Qed.

Lemma pack8_a_ssse3_faults_when_misaligned_witness :
  volk_8u_pack8_8u_a_ssse3 (Ptr 0 0) (Ptr 1 0) 3
    (Mem [Block 0 [0; 0; 0]; Block 65 (replicate 24 1)] []) = Fault.
Proof.
  apply pack8_a_ssse3_faults_when_misaligned; [lia|].
  intros (x & Hx & Hmod). injection Hx as <-. discriminate Hmod.
Defined.

(** ** Aligned exclusive or: when alignment matters *)








(** X4. below 32 bytes the vector loop of the aligned AVX entry point does not
    run: it has the outcome of the unaligned one whatever the alignment. *)
Theorem exor_a_avx_below_32_needs_no_alignment m outputVector inputVector0 inputVector1 num_bytes :
  0 <= num_bytes < 32 ->
  volk_8u_x2_exor_8u_a_avx outputVector inputVector0 inputVector1 num_bytes m
  = volk_8u_x2_exor_8u_u_avx outputVector inputVector0 inputVector1 num_bytes m.
Proof.
  intros Hn. unfold volk_8u_x2_exor_8u_a_avx, volk_8u_x2_exor_8u_u_avx. cbv zeta.
  rewrite Z.div_small by lia. unfold fuel_for. cbn [while]. reflexivity.
Qed.

Lemma exor_a_avx_below_32_needs_no_alignment_witness :
  volk_8u_x2_exor_8u_a_avx (Ptr 0 0) (Ptr 1 0) (Ptr 2 0) 31
    (Mem [Block 1 (replicate 31 0); Block 3 (replicate 31 170); Block 5 (replicate 31 15)] [])
  = volk_8u_x2_exor_8u_u_avx (Ptr 0 0) (Ptr 1 0) (Ptr 2 0) 31
    (Mem [Block 1 (replicate 31 0); Block 3 (replicate 31 170); Block 5 (replicate 31 15)] []).
Proof. apply exor_a_avx_below_32_needs_no_alignment. lia. Defined.

(** ** Short and empty inputs *)

(** X5. a puppet called with fewer than eight units calls its kernel with
    length zero: every puppet variant returns at once, without any access,
    whatever the pointers. *)
Theorem puppets_below_8_do_nothing m out_buf in_buf num_bytes :
  0 <= num_bytes < 8 ->
  volk_8u_pack8puppet_8u_generic out_buf in_buf num_bytes m = Done tt m /\
  volk_8u_pack8puppet_8u_u_ssse3 out_buf in_buf num_bytes m = Done tt m /\
  volk_8u_pack8puppet_8u_a_ssse3 out_buf in_buf num_bytes m = Done tt m /\
  volk_8u_unpack8puppet_8u_generic out_buf in_buf num_bytes m = Done tt m /\
  volk_8u_unpack8puppet_8u_u_ssse3 out_buf in_buf num_bytes m = Done tt m.
Proof.
  intros Hn.
  unfold volk_8u_pack8puppet_8u_generic, volk_8u_pack8puppet_8u_u_ssse3,
    volk_8u_pack8puppet_8u_a_ssse3, volk_8u_unpack8puppet_8u_generic,
    volk_8u_unpack8puppet_8u_u_ssse3.
  rewrite Z.div_small by lia. repeat split; reflexivity.
Qed.

Lemma puppets_below_8_do_nothing_witness :
  volk_8u_pack8puppet_8u_generic (Ptr 5 0) (Ptr 6 0) 7 (Mem [] []) = Done tt (Mem [] []).
Proof. apply (puppets_below_8_do_nothing (Mem [] []) (Ptr 5 0) (Ptr 6 0) 7). lia. Defined.

(** ** The puppets of packing and unpacking *)

Lemma aligned16_base bs tr b a cs :
  bs !! b = Some (Block a cs) -> a mod 16 = 0 -> aligned16 (Mem bs tr) (Ptr b 0).
Proof.
  intros Hb Ha. exists a. unfold address. cbn [blocks blk off]. rewrite Hb. cbn [base].
  split; [f_equal; lia|done].
Qed.

(** X6. on buffers that hold [num_bytes / 8] output bytes and eight times as
    many input bytes, the generic and the SSSE3 pack puppets return with the
    same output buffer, and so does the aligned one when the input buffer
    starts at a multiple of 16. *)
Theorem pack8puppet_variants_agree bs bo bi ao ai out inb tr num_bytes :
  bs !! bo = Some (Block ao out) -> bs !! bi = Some (Block ai inb) -> bo ≠ bi ->
  0 <= num_bytes < 2 ^ 32 ->
  (Z.to_nat (num_bytes / 8) <= length out)%nat ->
  (8 * Z.to_nat (num_bytes / 8) <= length inb)%nat ->
  exists out' tg tu,
    volk_8u_pack8puppet_8u_generic (Ptr bo 0) (Ptr bi 0) num_bytes (Mem bs tr)
    = Done tt (Mem (<[bo := Block ao out']> bs) tg) /\
    volk_8u_pack8puppet_8u_u_ssse3 (Ptr bo 0) (Ptr bi 0) num_bytes (Mem bs tr)
    = Done tt (Mem (<[bo := Block ao out']> bs) tu) /\
    (ai mod 16 = 0 ->
     volk_8u_pack8puppet_8u_a_ssse3 (Ptr bo 0) (Ptr bi 0) num_bytes (Mem bs tr)
     = Done tt (Mem (<[bo := Block ao out']> bs) tu)) /\
    out' = (pack_bits <$> chunks8 (Z.to_nat (num_bytes / 8)) inb)
           ++ drop (Z.to_nat (num_bytes / 8)) out.
Proof.
  intros Hbo Hbi Hne Hn Ho Hi.
  assert (Hq : 0 <= num_bytes / 8 < 2 ^ 32).
  { split; [apply Z.div_pos; lia|]. apply Z.div_lt_upper_bound; lia. }
  destruct (pack_ssse3_run bs bo bi ao ai out inb tr 0 0 (num_bytes / 8)) as [tu Hu];
    try done; try lia.
  exists (pack_out (Z.to_nat (num_bytes / 8)) 0 0 inb out). eexists. exists tu.
  split; [|split; [exact Hu|split]].
  - apply (pack_generic_run bs bo bi ao ai out inb tr 0 0 (num_bytes / 8)); done || lia.
  - intros Ha. unfold volk_8u_pack8puppet_8u_a_ssse3.
    rewrite pack_a_ssse3_eq_aligned by (by eapply aligned16_base). exact Hu.
  - rewrite pack_out_closed by lia. by rewrite take_0, drop_0, Nat.add_0_l.
Qed.

Lemma pack8puppet_variants_agree_witness :
  exists out' tg tu,
    volk_8u_pack8puppet_8u_generic (Ptr 0 0) (Ptr 1 0) 24
      (Mem [Block 0 [0; 0; 0]; Block 64 (replicate 24 1)] [])
    = Done tt (Mem [Block 0 out'; Block 64 (replicate 24 1)] tg) /\
    volk_8u_pack8puppet_8u_u_ssse3 (Ptr 0 0) (Ptr 1 0) 24
      (Mem [Block 0 [0; 0; 0]; Block 64 (replicate 24 1)] [])
    = Done tt (Mem [Block 0 out'; Block 64 (replicate 24 1)] tu) /\
    volk_8u_pack8puppet_8u_a_ssse3 (Ptr 0 0) (Ptr 1 0) 24
      (Mem [Block 0 [0; 0; 0]; Block 64 (replicate 24 1)] [])
    = Done tt (Mem [Block 0 out'; Block 64 (replicate 24 1)] tu) /\
    out' = [255; 255; 255].
Proof.
  destruct (pack8puppet_variants_agree
              [Block 0 [0; 0; 0]; Block 64 (replicate 24 1)] 0 1 0 64
              [0; 0; 0] (replicate 24 1) [] 24)
    as (out' & tg & tu & Hg & Hu & Ha & Hout).
  - reflexivity.
  - reflexivity.
  - discriminate.
  - lia.
  - vm_compute. lia.
  - vm_compute. lia.
  - exists out', tg, tu. split; [exact Hg|]. split; [exact Hu|].
    split; [exact (Ha eq_refl)|exact Hout].
Defined.

Lemma unpack_byte_events_stores po pi :
  stores (unpack_byte_events po pi) = reverse ((fun j => po +ₚ j) <$> seq 0 8).
Proof. cbn. by rewrite ptr_add_0. Qed.

Lemma unpack_events_stores k : forall po pi,
  stores (unpack_events k po pi) = reverse ((fun j => po +ₚ j) <$> seq 0 (8 * k)).
Proof.
  induction k as [|k IH]; intros po pi; cbn [unpack_events].
  - by rewrite Nat.mul_0_r.
  - rewrite stores_app, IH, unpack_byte_events_stores, store_range_app.
    do 3 f_equal. lia.
Qed.

Lemma unpack_events_loads k : forall po pi p,
  p ∈ loads (unpack_events k po pi) <-> exists j, (j < k)%nat /\ p = pi +ₚ j.
Proof.
  induction k as [|k IH]; intros po pi p; cbn [unpack_events loads].
  - rewrite elem_of_nil. split; [done|]. intros (j & Hj & _). lia.
  - rewrite loads_app, elem_of_app, IH. cbn [unpack_byte_events loads].
    rewrite !elem_of_cons, elem_of_nil. split.
    + intros [(j & Hj & ->)|H].
      * exists (1 + j)%nat. split; [lia|]. by rewrite ptr_add_add.
      * exists 0%nat. split; [lia|]. rewrite ptr_add_0. by destruct_or!.
    + intros ([|j] & Hj & ->).
      * right. left. by rewrite ptr_add_0.
      * left. exists j. split; [lia|]. by rewrite ptr_add_add.
Qed.

(** X7. the generic unpack puppet called with length [num_bytes] unpacks
    [num_bytes / 8] input bytes: it returns, stores once to each of the
    output offsets [0 .. 8 * (num_bytes / 8) - 1], in increasing order,
    leaves later output bytes untouched, and loads exactly the input offsets
    below [num_bytes / 8]. *)
Theorem unpack8puppet_generic_footprint bs bo bi ao ai out inb num_bytes :
  bs !! bo = Some (Block ao out) -> bs !! bi = Some (Block ai inb) -> bo ≠ bi ->
  0 <= num_bytes < 2 ^ 32 ->
  (8 * Z.to_nat (num_bytes / 8) <= length out)%nat ->
  (Z.to_nat (num_bytes / 8) <= length inb)%nat ->
  exists tr,
    volk_8u_unpack8puppet_8u_generic (Ptr bo 0) (Ptr bi 0) num_bytes (Mem bs [])
    = Done tt (Mem (<[bo := Block ao (concat (unpack_bits <$> take (Z.to_nat (num_bytes / 8)) inb)
                                       ++ drop (8 * Z.to_nat (num_bytes / 8)) out)]> bs) tr) /\
    reverse (stores tr) = Ptr bo <$> seq 0 (8 * Z.to_nat (num_bytes / 8)) /\
    (forall p, p ∈ loads tr <-> exists j, (j < Z.to_nat (num_bytes / 8))%nat /\ p = Ptr bi j).
Proof.
  intros Hbo Hbi Hne Hn Ho Hi. unfold volk_8u_unpack8puppet_8u_generic.
  assert (Hq : 0 <= num_bytes / 8 < 2 ^ 32).
  { split; [apply Z.div_pos; lia|]. apply Z.div_lt_upper_bound; lia. }
  rewrite (unpack_generic_run bs bo bi ao ai out inb [] 0 0 (num_bytes / 8)) by (done || lia).
  eexists. split; [|split].
  - rewrite unpack_out_closed by lia. by rewrite take_0, drop_0, Nat.add_0_l.
  - rewrite app_nil_r, unpack_events_stores, reverse_involutive.
    apply list_fmap_ext. intros _ j _. reflexivity.
  - intros p. rewrite app_nil_r, unpack_events_loads.
    unfold ptr_add. cbn [blk off]. reflexivity.
Qed.

Lemma unpack8puppet_generic_footprint_witness :
  exists tr,
    volk_8u_unpack8puppet_8u_generic (Ptr 0 0) (Ptr 1 0) 16
      (Mem [Block 0 (replicate 20 7); Block 64 [177; 129; 15]] [])
    = Done tt (Mem [Block 0 [1; 0; 1; 1; 0; 0; 0; 1; 1; 0; 0; 0; 0; 0; 0; 1; 7; 7; 7; 7];
                    Block 64 [177; 129; 15]] tr) /\
    reverse (stores tr) = Ptr 0 <$> seq 0 16 /\
    (forall p, p ∈ loads tr <-> exists j, (j < 2)%nat /\ p = Ptr 1 j).
Proof.
  destruct (unpack8puppet_generic_footprint
              [Block 0 (replicate 20 7); Block 64 [177; 129; 15]] 0 1 0 64
              (replicate 20 7) [177; 129; 15] 16)
    as (tr & Hrun & Hst & Hld).
  - reflexivity.
  - reflexivity.
  - discriminate.
  - lia.
  - vm_compute. lia.
  - vm_compute. lia.
  - exists tr. split; [exact Hrun|]. split; [exact Hst|exact Hld].
Defined.

(** X8. on buffers that hold [num_bytes / 8] input bytes and eight times as
    many output bytes, the generic and the SSSE3 unpack puppets return with
    the same output buffer. *)
Theorem unpack8puppet_variants_agree bs bo bi ao ai out inb tr num_bytes :
  bs !! bo = Some (Block ao out) -> bs !! bi = Some (Block ai inb) -> bo ≠ bi ->
  Forall is_byte inb ->
  0 <= num_bytes < 2 ^ 32 ->
  (8 * Z.to_nat (num_bytes / 8) <= length out)%nat ->
  (Z.to_nat (num_bytes / 8) <= length inb)%nat ->
  exists out' tg tu,
    volk_8u_unpack8puppet_8u_generic (Ptr bo 0) (Ptr bi 0) num_bytes (Mem bs tr)
    = Done tt (Mem (<[bo := Block ao out']> bs) tg) /\
    volk_8u_unpack8puppet_8u_u_ssse3 (Ptr bo 0) (Ptr bi 0) num_bytes (Mem bs tr)
    = Done tt (Mem (<[bo := Block ao out']> bs) tu) /\
    out' = concat (unpack_bits <$> take (Z.to_nat (num_bytes / 8)) inb)
           ++ drop (8 * Z.to_nat (num_bytes / 8)) out.
Proof.
  intros Hbo Hbi Hne Hby Hn Ho Hi.
  assert (Hq : 0 <= num_bytes / 8 < 2 ^ 32).
  { split; [apply Z.div_pos; lia|]. apply Z.div_lt_upper_bound; lia. }
  destruct (unpack_ssse3_run bs bo bi ao ai out inb tr 0 0 (num_bytes / 8)) as [tu Hu];
    try done; try lia.
  exists (unpack_out (Z.to_nat (num_bytes / 8)) 0 0 inb out). eexists. exists tu.
  split; [|split; [exact Hu|]].
  - apply (unpack_generic_run bs bo bi ao ai out inb tr 0 0 (num_bytes / 8)); done || lia.
  - rewrite unpack_out_closed by lia. by rewrite take_0, drop_0, Nat.add_0_l.
Qed.

Lemma unpack8puppet_variants_agree_witness :
  exists out' tg tu,
    volk_8u_unpack8puppet_8u_generic (Ptr 0 0) (Ptr 1 0) 24
      (Mem [Block 0 (replicate 24 7); Block 64 [177; 129; 15]] [])
    = Done tt (Mem [Block 0 out'; Block 64 [177; 129; 15]] tg) /\
    volk_8u_unpack8puppet_8u_u_ssse3 (Ptr 0 0) (Ptr 1 0) 24
      (Mem [Block 0 (replicate 24 7); Block 64 [177; 129; 15]] [])
    = Done tt (Mem [Block 0 out'; Block 64 [177; 129; 15]] tu) /\
    out' = [1; 0; 1; 1; 0; 0; 0; 1; 1; 0; 0; 0; 0; 0; 0; 1; 0; 0; 0; 0; 1; 1; 1; 1].
Proof.
  destruct (unpack8puppet_variants_agree
              [Block 0 (replicate 24 7); Block 64 [177; 129; 15]] 0 1 0 64
              (replicate 24 7) [177; 129; 15] [] 24)
    as (out' & tg & tu & Hg & Hu & Hout).
  - reflexivity.
  - reflexivity.
  - discriminate.
  - repeat constructor; unfold is_byte; lia.
  - lia.
  - vm_compute. lia.
  - vm_compute. lia.
  - exists out', tg, tu. split; [exact Hg|]. split; [exact Hu|exact Hout].
Defined.

(** ** Unpacking: bit order, and unpacking what was packed *)

Lemma concat_lookup8 (f : Z -> list Z) (l : list Z) : forall i k x,
  (forall y, length (f y) = 8%nat) ->
  l !! i = Some x -> (k < 8)%nat ->
  concat (f <$> l) !! (8 * i + k)%nat = f x !! k.
Proof.
  induction l as [|y l IH]; intros i k x Hf Hi Hk; [done|].
  cbn [fmap list_fmap concat]. destruct i as [|i].
  - injection Hi as ->. by rewrite lookup_app_l by (rewrite Hf; lia).
  - rewrite lookup_app_r by (rewrite Hf; lia). rewrite Hf.
    replace (8 * S i + k - 8)%nat with (8 * i + k)%nat by lia.
    by apply IH.
Qed.

Lemma unpack_bits_lookup x k :
  (k <= 7)%nat -> unpack_bits x !! k = Some (Z.b2z (Z.testbit x (7 - Z.of_nat k))).
Proof.
  intros Hk. do 8 (destruct k as [|k]; [reflexivity|]). lia.
Qed.

(** X9. bit order of unpacking.  Output byte [8 * i + k] of the generic
    unpacking kernel is 0 or 1 and equals bit [7 - k] of input byte [i], for
    every [i < num_bytes] and [0 <= k <= 7]: the most significant bit comes
    first. *)
Theorem unpack8_generic_bit_order bs bo bi ao ai out inb tr num_bytes i k :
  bs !! bo = Some (Block ao out) -> bs !! bi = Some (Block ai inb) -> bo ≠ bi ->
  0 <= num_bytes < 2 ^ 32 ->
  (8 * Z.to_nat num_bytes <= length out)%nat ->
  (Z.to_nat num_bytes <= length inb)%nat ->
  (i < Z.to_nat num_bytes)%nat -> (k <= 7)%nat ->
  exists out' tr' x,
    volk_8u_unpack8_8u_generic (Ptr bo 0) (Ptr bi 0) num_bytes (Mem bs tr)
    = Done tt (Mem (<[bo := Block ao out']> bs) tr') /\
    inb !! i = Some x /\
    out' !! (8 * i + k)%nat = Some (Z.b2z (Z.testbit x (7 - Z.of_nat k))).
Proof.
  intros Hbo Hbi Hne Hn Ho Hi Hlt Hk.
  rewrite (unpack_generic_run bs bo bi ao ai out inb tr 0 0 num_bytes) by (done || lia).
  rewrite unpack_out_closed by lia. rewrite take_0, drop_0, Nat.add_0_l. cbn [app].
  destruct (lookup_lt_is_Some_2 inb i) as [x Hx]; [lia|].
  eexists _, _, x. split; [reflexivity|]. split; [done|].
  assert (Hlen : length (concat (unpack_bits <$> take (Z.to_nat num_bytes) inb))
                 = (8 * Z.to_nat num_bytes)%nat).
  { rewrite length_concat, <- list_fmap_compose.
    rewrite (sum_list_fmap_const _ 8) by done. rewrite length_take. lia. }
  rewrite lookup_app_l by (rewrite Hlen; lia).
  rewrite (concat_lookup8 unpack_bits _ i k x); [by apply unpack_bits_lookup|done| |lia].
  by rewrite lookup_take_lt by lia.
Qed.

Lemma unpack8_generic_bit_order_witness :
  exists out' tr' x,
    volk_8u_unpack8_8u_generic (Ptr 0 0) (Ptr 1 0) 2
      (Mem [Block 0 (replicate 16 7); Block 64 [177; 129]] [])
    = Done tt (Mem [Block 0 out'; Block 64 [177; 129]] tr') /\
    [177; 129] !! 1%nat = Some x /\
    out' !! 15%nat = Some (Z.b2z (Z.testbit x 0)).
Proof.
  destruct (unpack8_generic_bit_order
              [Block 0 (replicate 16 7); Block 64 [177; 129]] 0 1 0 64
              (replicate 16 7) [177; 129] [] 2 1 7)
    as (out' & tr' & x & Hrun & Hx & Hbit).
  - reflexivity.
  - reflexivity.
  - discriminate.
  - lia.
  - vm_compute. lia.
  - vm_compute. lia.
  - vm_compute. lia.
  - lia.
  - exists out', tr', x. split; [exact Hrun|]. split; [exact Hx|exact Hbit].
Defined.

Lemma unpack_pack_bits (c : list Z) :
  length c = 8%nat -> unpack_bits (pack_bits c) = (fun b => Z.land b 1) <$> c.
Proof.
  intros Hc.
  destruct c as [|x0 [|x1 [|x2 [|x3 [|x4 [|x5 [|x6 [|x7 [|? ?]]]]]]]]]; try discriminate Hc.
  unfold pack_bits. cbn [foldl fmap list_fmap].
  destruct (land_1_cases x0) as [-> | ->], (land_1_cases x1) as [-> | ->],
    (land_1_cases x2) as [-> | ->], (land_1_cases x3) as [-> | ->],
    (land_1_cases x4) as [-> | ->], (land_1_cases x5) as [-> | ->],
    (land_1_cases x6) as [-> | ->], (land_1_cases x7) as [-> | ->]; reflexivity.
Qed.

Lemma chunks8_unpack_pack k : forall (l : list Z),
  (8 * k <= length l)%nat ->
  concat (unpack_bits <$> (pack_bits <$> chunks8 k l)) = (fun b => Z.land b 1) <$> take (8 * k) l.
Proof.
  induction k as [|k IH]; intros l Hl.
  - by rewrite Nat.mul_0_r, take_0.
  - cbn [chunks8 fmap list_fmap concat].
    rewrite IH by (rewrite length_drop; lia).
    rewrite unpack_pack_bits by (rewrite length_take; lia).
    rewrite <- fmap_app, take_take_drop. do 2 f_equal. lia.
Qed.

(** X10. unpack after pack keeps the least significant bit of every byte:
    packing the first [8 * n] bytes of [x] into [tmp] and unpacking [tmp]
    into [y] returns and leaves [x[j] & 1] in byte [j] of [y] for
    [j < 8 * n]. *)
Theorem unpack8_after_pack8_keeps_lsb bs by_ bt bx ay at_ ax y tmp x tr n :
  bs !! by_ = Some (Block ay y) -> bs !! bt = Some (Block at_ tmp) ->
  bs !! bx = Some (Block ax x) ->
  by_ ≠ bt -> bt ≠ bx ->
  0 <= n < 2 ^ 32 ->
  (8 * Z.to_nat n <= length x)%nat -> (Z.to_nat n <= length tmp)%nat ->
  (8 * Z.to_nat n <= length y)%nat ->
  exists y' tmp' tr',
    pack_then_unpack (Ptr by_ 0) (Ptr bt 0) (Ptr bx 0) n (Mem bs tr)
    = Done tt (Mem (<[by_ := Block ay y']> (<[bt := Block at_ tmp']> bs)) tr') /\
    take (8 * Z.to_nat n) y' = (fun b => Z.land b 1) <$> take (8 * Z.to_nat n) x.
Proof.
  intros Hy Ht Hx Hyt Htx Hn Hlx Hlt Hly. unfold pack_then_unpack.
  rewrite (bind_done _ _ _ _ _
             (pack_generic_run bs bt bx at_ ax tmp x tr 0 0 n Ht Hx Htx Hn
                ltac:(lia) ltac:(lia))).
  set (tmp' := pack_out (Z.to_nat n) 0 0 x tmp).
  assert (Hbt : (bt < length bs)%nat) by eauto using lookup_lt_Some.
  rewrite (unpack_generic_run (<[bt := Block at_ tmp']> bs) by_ bt ay at_ y tmp' _ 0 0 n).
  - eexists _, _, _. split; [reflexivity|].
    rewrite unpack_out_closed by (subst tmp'; rewrite ?pack_out_length; lia).
    rewrite take_0, drop_0, Nat.add_0_l. cbn [app].
    subst tmp'. rewrite pack_out_closed by lia.
    rewrite take_0, drop_0, Nat.add_0_l. cbn [app].
    rewrite (take_app_length' (pack_bits <$> chunks8 (Z.to_nat n) x))
      by (by rewrite length_fmap, chunks8_length).
    rewrite chunks8_unpack_pack by lia.
    rewrite take_app_length' by (rewrite length_fmap, length_take; lia).
    done.
  - by rewrite list_lookup_insert_ne.
  - by rewrite list_lookup_insert_eq.
  - done.
  - done.
  - lia.
  - subst tmp'. rewrite pack_out_length. lia.
Qed.

Lemma unpack8_after_pack8_keeps_lsb_witness :
  exists y' tmp' tr',
    pack_then_unpack (Ptr 0 0) (Ptr 1 0) (Ptr 2 0) 1
      (Mem [Block 0 (replicate 8 9); Block 64 [0]; Block 128 [1; 0; 3; 2; 255; 0; 0; 1]] [])
    = Done tt (Mem [Block 0 y'; Block 64 tmp'; Block 128 [1; 0; 3; 2; 255; 0; 0; 1]] tr') /\
    take 8 y' = [1; 0; 1; 0; 1; 0; 0; 1].
Proof.
  destruct (unpack8_after_pack8_keeps_lsb
              [Block 0 (replicate 8 9); Block 64 [0]; Block 128 [1; 0; 3; 2; 255; 0; 0; 1]]
              0 1 2 0 64 128 (replicate 8 9) [0] [1; 0; 3; 2; 255; 0; 0; 1] [] 1)
    as (y' & tmp' & tr' & Hrun & Htake).
  - reflexivity.
  - reflexivity.
  - reflexivity.
  - discriminate.
  - discriminate.
  - lia.
  - vm_compute. lia.
  - vm_compute. lia.
  - vm_compute. lia.
  - exists y', tmp', tr'. split; [exact Hrun|exact Htake].
Defined.

(** ** Exclusive or: algebra of the generic kernel *)

Lemma exor_out_closed_u8 n (in0 in1 out : list Z) :
  (n <= length out)%nat -> (n <= length in0)%nat -> (n <= length in1)%nat ->
  exor_out n 0 0 0 in0 in1 out
  = (u8 <$> zip_with Z.lxor (take n in0) (take n in1)) ++ drop n out.
Proof.
  intros Ho H0 H1.
  rewrite <- (write_bytes_xor n 0 0 0 in0 in1 out) by lia.
  rewrite !drop_0, write_bytes_closed by (rewrite length_zip_with, !length_take; lia).
  rewrite take_0, length_zip_with, !length_take. cbn [app].
  do 2 f_equal. lia.
Qed.

Lemma lxor_twice_byte x y : is_byte x -> is_byte y -> u8 (Z.lxor (u8 (Z.lxor x y)) y) = x.
Proof.
  intros Hx Hy. rewrite (lxor_byte x y) by done.
  rewrite Z.lxor_assoc, Z.lxor_nilpotent, Z.lxor_0_r. by apply u8_small.
Qed.

Lemma zip_lxor_twice (A : list Z) : forall B,
  Forall is_byte A -> Forall is_byte B -> (length A <= length B)%nat ->
  u8 <$> zip_with Z.lxor (u8 <$> zip_with Z.lxor A B) B = A.
Proof.
  induction A as [|x A IH]; intros [|y B] HA HB Hl; cbn [length] in Hl; try done; try lia.
  apply Forall_cons_1 in HA as [Hx HA]. apply Forall_cons_1 in HB as [Hy HB].
  cbn [zip_with fmap list_fmap]. rewrite lxor_twice_byte by done.
  f_equal. apply IH; [done..|lia].
Qed.

Lemma zip_lxor_comm (A : list Z) : forall B, zip_with Z.lxor A B = zip_with Z.lxor B A.
Proof.
  induction A as [|x A IH]; intros [|y B]; cbn [zip_with]; try done.
  by rewrite Z.lxor_comm, IH.
Qed.

Lemma zip_lxor_self (A : list Z) : u8 <$> zip_with Z.lxor A A = replicate (length A) 0.
Proof.
  induction A as [|x A IH]; cbn [zip_with fmap list_fmap length replicate]; [done|].
  by rewrite Z.lxor_nilpotent, IH.
Qed.

(** X11. exclusive or with the same second operand twice gives the first
    operand back: after [tmp = a ^ b] and [y = tmp ^ b] over [n] bytes, the
    first [n] bytes of [y] are the first [n] bytes of [a]. *)
Theorem exor_twice_is_identity bs by_ bt ba bb ay at_ aa ab y tmp a b tr n :
  bs !! by_ = Some (Block ay y) -> bs !! bt = Some (Block at_ tmp) ->
  bs !! ba = Some (Block aa a) -> bs !! bb = Some (Block ab b) ->
  bt ≠ ba -> bt ≠ bb -> by_ ≠ bt -> by_ ≠ bb ->
  Forall is_byte a -> Forall is_byte b ->
  0 <= n < 2 ^ 32 ->
  (Z.to_nat n <= length y)%nat -> (Z.to_nat n <= length tmp)%nat ->
  (Z.to_nat n <= length a)%nat -> (Z.to_nat n <= length b)%nat ->
  exists y' tmp' tr',
    exor_twice (Ptr by_ 0) (Ptr bt 0) (Ptr ba 0) (Ptr bb 0) n (Mem bs tr)
    = Done tt (Mem (<[by_ := Block ay y']> (<[bt := Block at_ tmp']> bs)) tr') /\
    take (Z.to_nat n) y' = take (Z.to_nat n) a.
Proof.
  intros Hy Ht Ha Hb Hta Htb Hyt Hyb Hba Hbb Hn Hly Hlt Hla Hlb. unfold exor_twice.
  rewrite (bind_done _ _ _ _ _
             (exor_generic_run bs bt ba bb at_ aa ab tmp a b tr 0 0 0 n Ht Ha Hb Hta Htb Hn
                ltac:(lia) ltac:(lia) ltac:(lia))).
  set (tmp' := exor_out (Z.to_nat n) 0 0 0 a b tmp).
  assert (Hbt : (bt < length bs)%nat) by eauto using lookup_lt_Some.
  rewrite (exor_generic_run (<[bt := Block at_ tmp']> bs) by_ bt bb ay at_ ab y tmp' b _ 0 0 0 n).
  - eexists _, _, _. split; [reflexivity|].
    rewrite exor_out_closed_u8 by (subst tmp'; rewrite ?exor_out_length; lia).
    subst tmp'. rewrite exor_out_closed_u8 by lia.
    set (T := u8 <$> zip_with Z.lxor (take (Z.to_nat n) a) (take (Z.to_nat n) b)).
    assert (HT : length T = Z.to_nat n)
      by (subst T; rewrite length_fmap, length_zip_with, !length_take; lia).
    rewrite (take_app_length' T) by done.
    rewrite take_app_length'
      by (rewrite length_fmap, length_zip_with, HT, length_take; lia).
    subst T. apply zip_lxor_twice; [by apply Forall_take..|rewrite !length_take; lia].
  - by rewrite list_lookup_insert_ne.
  - by rewrite list_lookup_insert_eq.
  - by rewrite list_lookup_insert_ne.
  - done.
  - done.
  - done.
  - lia.
  - subst tmp'. rewrite exor_out_length. lia.
  - lia.
Qed.

Lemma exor_twice_is_identity_witness :
  exists y' tmp' tr',
    exor_twice (Ptr 0 0) (Ptr 1 0) (Ptr 2 0) (Ptr 3 0) 3
      (Mem [Block 0 [0; 0; 0]; Block 32 [9; 9; 9]; Block 64 [1; 2; 255]; Block 96 [7; 7; 7]] [])
    = Done tt (Mem [Block 0 y'; Block 32 tmp'; Block 64 [1; 2; 255]; Block 96 [7; 7; 7]] tr') /\
    take 3 y' = [1; 2; 255].
Proof.
  destruct (exor_twice_is_identity
              [Block 0 [0; 0; 0]; Block 32 [9; 9; 9]; Block 64 [1; 2; 255]; Block 96 [7; 7; 7]]
              0 1 2 3 0 32 64 96 [0; 0; 0] [9; 9; 9] [1; 2; 255] [7; 7; 7] [] 3)
    as (y' & tmp' & tr' & Hrun & Htake);
    try reflexivity; try discriminate; try lia;
    try (repeat constructor; unfold is_byte; lia); try (vm_compute; lia).
  exists y', tmp', tr'. split; [exact Hrun|exact Htake].
Defined.

(** X12. the generic exclusive or is symmetric in its inputs, and the exclusive
    or of a buffer with itself is zero: swapping the two input pointers
    leaves the same output buffer, and passing the same pointer twice zeroes
    the first [num_bytes] output bytes. *)
Theorem exor_generic_symmetric_and_self_zero bs bo b0 b1 ao a0 a1 out in0 in1 tr num_bytes :
  bs !! bo = Some (Block ao out) ->
  bs !! b0 = Some (Block a0 in0) -> bs !! b1 = Some (Block a1 in1) ->
  bo ≠ b0 -> bo ≠ b1 ->
  0 <= num_bytes < 2 ^ 32 ->
  (Z.to_nat num_bytes <= length out)%nat ->
  (Z.to_nat num_bytes <= length in0)%nat -> (Z.to_nat num_bytes <= length in1)%nat ->
  exists out' t01 t10 t00,
    volk_8u_x2_exor_8u_generic (Ptr bo 0) (Ptr b0 0) (Ptr b1 0) num_bytes (Mem bs tr)
    = Done tt (Mem (<[bo := Block ao out']> bs) t01) /\
    volk_8u_x2_exor_8u_generic (Ptr bo 0) (Ptr b1 0) (Ptr b0 0) num_bytes (Mem bs tr)
    = Done tt (Mem (<[bo := Block ao out']> bs) t10) /\
    volk_8u_x2_exor_8u_generic (Ptr bo 0) (Ptr b0 0) (Ptr b0 0) num_bytes (Mem bs tr)
    = Done tt (Mem (<[bo := Block ao (replicate (Z.to_nat num_bytes) 0
                                       ++ drop (Z.to_nat num_bytes) out)]> bs) t00).
Proof.
  intros Hbo Hb0 Hb1 Hne0 Hne1 Hn Ho H0 H1.
  exists (exor_out (Z.to_nat num_bytes) 0 0 0 in0 in1 out). eexists _, _, _.
  split; [|split].
  - apply (exor_generic_run bs bo b0 b1 ao a0 a1 out in0 in1 tr 0 0 0 num_bytes);
      done || lia.
  - rewrite (exor_generic_run bs bo b1 b0 ao a1 a0 out in1 in0 tr 0 0 0 num_bytes)
      by (done || lia).
    rewrite !exor_out_closed_u8 by lia. by rewrite zip_lxor_comm.
  - rewrite (exor_generic_run bs bo b0 b0 ao a0 a0 out in0 in0 tr 0 0 0 num_bytes)
      by (done || lia).
    rewrite exor_out_closed_u8 by lia. rewrite zip_lxor_self, length_take.
    by replace (Z.to_nat num_bytes `min` length in0)%nat with (Z.to_nat num_bytes) by lia.
Qed.

Lemma exor_generic_symmetric_and_self_zero_witness :
  exists out' t01 t10 t00,
    volk_8u_x2_exor_8u_generic (Ptr 0 0) (Ptr 1 0) (Ptr 2 0) 2
      (Mem [Block 0 [9; 9; 9]; Block 32 [1; 2]; Block 64 [7; 7]] [])
    = Done tt (Mem [Block 0 out'; Block 32 [1; 2]; Block 64 [7; 7]] t01) /\
    volk_8u_x2_exor_8u_generic (Ptr 0 0) (Ptr 2 0) (Ptr 1 0) 2
      (Mem [Block 0 [9; 9; 9]; Block 32 [1; 2]; Block 64 [7; 7]] [])
    = Done tt (Mem [Block 0 out'; Block 32 [1; 2]; Block 64 [7; 7]] t10) /\
    volk_8u_x2_exor_8u_generic (Ptr 0 0) (Ptr 1 0) (Ptr 1 0) 2
      (Mem [Block 0 [9; 9; 9]; Block 32 [1; 2]; Block 64 [7; 7]] [])
    = Done tt (Mem [Block 0 [0; 0; 9]; Block 32 [1; 2]; Block 64 [7; 7]] t00).
Proof.
  destruct (exor_generic_symmetric_and_self_zero
              [Block 0 [9; 9; 9]; Block 32 [1; 2]; Block 64 [7; 7]]
              0 1 2 0 32 64 [9; 9; 9] [1; 2] [7; 7] [] 2)
    as (out' & t01 & t10 & t00 & H01 & H10 & H00);
    try reflexivity; try discriminate; try lia; try (vm_compute; lia).
  exists out', t01, t10, t00. split; [exact H01|]. split; [exact H10|exact H00].
Defined.

(** ** Exclusive or: how far the vector loop of the AVX variant goes *)

(** X13. the vector loop of the AVX variant compares its byte counter, which
    advances by 32, with [num_bytes / 32]: it runs
    [k = ceil ((num_bytes / 32) / 32)] times, so that only the first
    [32 * k] bytes are handled 32 at a time and the other
    [num_bytes - 32 * k] bytes one at a time by the scalar tail. *)
Theorem exor_u_avx_vector_turns bs bo b0 b1 ao a0 a1 out in0 in1 num_bytes :
  bs !! bo = Some (Block ao out) ->
  bs !! b0 = Some (Block a0 in0) -> bs !! b1 = Some (Block a1 in1) ->
  bo ≠ b0 -> bo ≠ b1 -> 0 <= num_bytes < 2 ^ 32 ->
  (Z.to_nat num_bytes <= length out)%nat ->
  (Z.to_nat num_bytes <= length in0)%nat -> (Z.to_nat num_bytes <= length in1)%nat ->
  exists k out',
    Z.of_nat k = (num_bytes / 32 + 31) / 32 /\
    (32 * k <= Z.to_nat num_bytes)%nat /\
    volk_8u_x2_exor_8u_u_avx (Ptr bo 0) (Ptr b0 0) (Ptr b1 0) num_bytes (Mem bs [])
    = Done tt (Mem (<[bo := Block ao out']> bs)
                 (exor_events (Z.to_nat num_bytes - 32 * k)
                    (Ptr bo (32 * k)) (Ptr b0 (32 * k)) (Ptr b1 (32 * k))
                  ++ exor_avx_events k (Ptr bo 0) (Ptr b0 0) (Ptr b1 0))).
Proof.
  intros Hbo Hb0 Hb1 Hne0 Hne1 Hn Ho H0 H1.
  unfold volk_8u_x2_exor_8u_u_avx. cbv zeta.
  replace (Mem bs []) with (Mem (<[bo := Block ao out]> bs) []) by (by rewrite list_insert_id).
  assert (Hlt : (bo < length bs)%nat) by eauto using lookup_lt_Some.
  set (k := Z.to_nat ((num_bytes / 32 + 31) / 32)).
  assert (Hk : Z.of_nat k = Z.max 0 ((num_bytes / 32 + 31) / 32)).
  { subst k. Z.div_mod_to_equations. lia. }
  assert (Hk' : Z.of_nat k = (num_bytes / 32 + 31) / 32).
  { rewrite Hk. Z.div_mod_to_equations. lia. }
  assert (Hkn : 32 * Z.of_nat k <= num_bytes).
  { rewrite Hk. Z.div_mod_to_equations. lia. }
  exists k. eexists. split; [exact Hk'|]. split; [lia|].
  pose proof (exor_u_avx_loop bs bo b0 b1 ao a0 a1 in0 in1 Hlt Hb0 Hb1 Hne0 Hne1
                num_bytes k (fuel_for num_bytes) 0 0 0 0 out []) as H.
  change (s32 0) with 0 in H. rewrite !Z.sub_0_r, Z.add_0_l in H.
  rewrite (bind_done _ _ _ _ _ (H ltac:(unfold fuel_for; lia) ltac:(lia) ltac:(lia)
                                  Hk Ho H0 H1)).
  erewrite bind_done.
  2:{ apply (exor_scalar_loop bs bo b0 b1 ao a0 a1 in0 in1 Hlt Hb0 Hb1 Hne0 Hne1
               num_bytes (Z.to_nat num_bytes - 32 * k));
        unfold fuel_for; rewrite ?exor_out_length; lia. }
  unfold ret. rewrite app_nil_r. reflexivity.
Qed.

Lemma exor_u_avx_vector_turns_witness :
  exists k out',
    Z.of_nat k = (100 / 32 + 31) / 32 /\
    (32 * k <= 100)%nat /\
    volk_8u_x2_exor_8u_u_avx (Ptr 0 0) (Ptr 1 0) (Ptr 2 0) 100
      (Mem [Block 0 (replicate 100 0); Block 1024 (replicate 100 170);
            Block 2048 (replicate 100 15)] [])
    = Done tt (Mem (<[0%nat := Block 0 out']>
                      [Block 0 (replicate 100 0); Block 1024 (replicate 100 170);
                       Block 2048 (replicate 100 15)])
                 (exor_events (100 - 32 * k)
                    (Ptr 0 (32 * k)) (Ptr 1 (32 * k)) (Ptr 2 (32 * k))
                  ++ exor_avx_events k (Ptr 0 0) (Ptr 1 0) (Ptr 2 0))).
Proof.
  apply (exor_u_avx_vector_turns
           [Block 0 (replicate 100 0); Block 1024 (replicate 100 170);
            Block 2048 (replicate 100 15)]
           0 1 2 0 1024 2048 (replicate 100 0) (replicate 100 170) (replicate 100 15) 100);
    try reflexivity; try discriminate; try lia; rewrite length_replicate; lia.
Defined.

(** ** Exclusive or in place *)

Lemma exor_inplace_out_length k : forall o i1 in1 out,
  length (exor_inplace_out k o i1 in1 out) = length out.
Proof.
  induction k as [|k IH]; intros; cbn [exor_inplace_out]; [done|].
  by rewrite IH, length_insert.
Qed.

Lemma exor_inplace_out_add a : forall b o i1 in1 out,
  exor_inplace_out b (o + a) (i1 + a) in1 (exor_inplace_out a o i1 in1 out)
  = exor_inplace_out (a + b) o i1 in1 out.
Proof.
  induction a as [|a IH]; intros b o i1 in1 out.
  - cbn [exor_inplace_out Nat.add]. by rewrite !Nat.add_0_r.
  - cbn [exor_inplace_out Nat.add]. rewrite <- IH. f_equal; lia.
Qed.

Lemma write_bytes_xor_inplace k : forall o i1 (in1 out : list Z),
  (o + k <= length out)%nat -> (i1 + k <= length in1)%nat ->
  write_bytes o (zip_with Z.lxor (take k (drop o out)) (take k (drop i1 in1))) out
  = exor_inplace_out k o i1 in1 out.
Proof.
  induction k as [|k IH]; intros o i1 in1 out Ho H1.
  - by rewrite !take_0.
  - destruct (lookup_lt_is_Some_2 out o ltac:(lia)) as [x Hx].
    destruct (lookup_lt_is_Some_2 in1 i1 ltac:(lia)) as [y Hy].
    rewrite (drop_S _ _ _ Hx), (drop_S _ _ _ Hy).
    cbn [take zip_with write_bytes exor_inplace_out].
    rewrite (list_lookup_total_correct _ _ _ Hx), (list_lookup_total_correct _ _ _ Hy).
    replace (S i1) with (i1 + 1)%nat by lia. replace (S o) with (o + 1)%nat by lia.
    rewrite <- IH by (rewrite ?length_insert; lia).
    by rewrite drop_insert_lt by lia.
Qed.

Lemma exor_inplace_out_closed n (in1 out : list Z) :
  Forall is_byte out -> Forall is_byte in1 ->
  (n <= length out)%nat -> (n <= length in1)%nat ->
  exor_inplace_out n 0 0 in1 out
  = zip_with Z.lxor (take n out) (take n in1) ++ drop n out.
Proof.
  intros Hbo Hb1 Ho H1.
  rewrite <- (write_bytes_xor_inplace n 0 0 in1 out) by lia.
  rewrite !drop_0, write_bytes_closed by (rewrite length_zip_with, !length_take; lia).
  rewrite take_0, length_zip_with, !length_take. cbn [app].
  f_equal; [|f_equal; lia].
  rewrite <- (list_fmap_id (zip_with _ _ _)) at 2.
  apply Forall_fmap_ext_1. apply (Forall_zip_with_fst _ is_byte).
  - by apply Forall_take.
  - apply Forall_take. eapply Forall_impl; [exact Hb1|].
    intros y Hy x Hx. by apply lxor_byte.
Qed.

Section InPlace.
Variables (bs : list block) (bo b1 : nat) (ao a1 : Z) (in1 : list Z).
Hypothesis Hbo : (bo < length bs)%nat.
Hypothesis Hb1 : bs !! b1 = Some (Block a1 in1).
Hypothesis Hne : bo ≠ b1.
#[local] Set Default Proof Using "All".

Lemma load_bytes_out X n : forall o tr,
  (o + n <= length X)%nat ->
  load_bytes n (Ptr bo o) (Mem (<[bo := Block ao X]> bs) tr)
  = Done (take n (drop o X))
      (Mem (<[bo := Block ao X]> bs) (ld_events n (Ptr bo o) ++ tr)).
Proof.
  induction n as [|n IH]; intros o tr Ho; cbn [load_bytes ld_events].
  - by rewrite take_0.
  - destruct (lookup_lt_is_Some_2 X o ltac:(lia)) as [x Hx].
    erewrite bind_done by (by apply (load_out bs bo b1 ao a1 in1)).
    rewrite ptr_add_Ptr.
    erewrite bind_done by (apply IH; lia).
    unfold ret. rewrite (drop_S _ _ _ Hx). cbn [take].
    rewrite <- app_assoc. by replace (S o) with (o + 1)%nat by lia.
Qed.

Lemma exor_scalar_body_inplace out tr i o i1 :
  (o < length out)%nat -> (i1 < length in1)%nat ->
  exor_scalar_body (i, Ptr bo o, Ptr bo o, Ptr b1 i1) (Mem (<[bo := Block ao out]> bs) tr)
  = Done (s32 (i + 1), Ptr bo (o + 1), Ptr bo (o + 1), Ptr b1 (i1 + 1))
      (Mem (<[bo := Block ao (exor_inplace_out 1 o i1 in1 out)]> bs)
           ([St (Ptr bo o); Ld (Ptr b1 i1); Ld (Ptr bo o)] ++ tr)).
Proof.
  intros Ho H1.
  destruct (lookup_lt_is_Some_2 out o Ho) as [x Hx].
  destruct (lookup_lt_is_Some_2 in1 i1 H1) as [y Hy].
  unfold exor_scalar_body.
  erewrite bind_done by (by apply (load_out bs bo b1 ao a1 in1)).
  erewrite bind_done by (by apply (load_in bs bo b1 ao a1 in1)).
  erewrite bind_done by (by apply (store_out bs bo b1 ao a1 in1)).
  cbn [exor_inplace_out].
  by rewrite (list_lookup_total_correct _ _ _ Hx), (list_lookup_total_correct _ _ _ Hy).
Qed.

Lemma exor_scalar_loop_inplace n k : forall fuel c o i1 out tr,
  (k < fuel)%nat -> 0 <= c -> c + Z.of_nat k = n -> n < 2 ^ 32 ->
  (o + k <= length out)%nat -> (i1 + k <= length in1)%nat ->
  exists tr',
    while fuel (fun '(i, _, _, _) => u32 i <? n) exor_scalar_body
      (s32 c, Ptr bo o, Ptr bo o, Ptr b1 i1) (Mem (<[bo := Block ao out]> bs) tr)
    = Done (s32 n, Ptr bo (o + k), Ptr bo (o + k), Ptr b1 (i1 + k))
        (Mem (<[bo := Block ao (exor_inplace_out k o i1 in1 out)]> bs) tr').
Proof.
  induction k as [|k IH]; intros fuel c o i1 out tr Hf Hc Hk Hn Ho H1;
    (destruct fuel as [|fuel]; [lia|]); cbn [while]; rewrite u32_s32_small by lia.
  - replace (c <? n) with false by (symmetry; apply Z.ltb_ge; lia).
    unfold ret. rewrite !Nat.add_0_r. cbn [exor_inplace_out].
    exists tr. by replace c with n by lia.
  - replace (c <? n) with true by (symmetry; apply Z.ltb_lt; lia).
    erewrite bind_done by (apply exor_scalar_body_inplace; lia).
    rewrite s32_add.
    destruct (IH fuel (c + 1) (o + 1)%nat (i1 + 1)%nat
                (exor_inplace_out 1 o i1 in1 out)
                ([St (Ptr bo o); Ld (Ptr b1 i1); Ld (Ptr bo o)] ++ tr))
      as [tr' Htr']; try lia; [rewrite exor_inplace_out_length; lia|].
    exists tr'. rewrite Htr'. cbn [exor_inplace_out].
    replace (o + 1 + k)%nat with (o + S k)%nat by lia.
    by replace (i1 + 1 + k)%nat with (i1 + S k)%nat by lia.
Qed.

Lemma exor_u_avx_body_inplace out tr i o i1 :
  (o + 32 <= length out)%nat -> (i1 + 32 <= length in1)%nat ->
  exists tr',
    exor_u_avx_body (i, Ptr bo o, Ptr bo o, Ptr b1 i1) (Mem (<[bo := Block ao out]> bs) tr)
    = Done (s32 (i + 32), Ptr bo (o + 32), Ptr bo (o + 32), Ptr b1 (i1 + 32))
        (Mem (<[bo := Block ao (exor_inplace_out 32 o i1 in1 out)]> bs) tr').
Proof.
  intros Ho H1.
  unfold exor_u_avx_body, _mm256_loadu_ps, _mm256_storeu_ps, _mm256_xor_ps.
  erewrite bind_done by (by apply load_bytes_out).
  erewrite bind_done by (by apply (load_bytes_in bs bo b1 ao a1 in1)).
  assert (Hlen : length (zip_with Z.lxor (take 32 (drop o out)) (take 32 (drop i1 in1)))
                 = 32%nat).
  { rewrite length_zip_with, !length_take, !length_drop. lia. }
  erewrite bind_done
    by (apply (store_bytes_out bs bo b1 ao a1 in1); [done..|]; rewrite Hlen; lia).
  rewrite write_bytes_xor_inplace by lia. unfold ret. eexists. reflexivity.
Qed.

Lemma exor_u_avx_loop_inplace n k : forall fuel c o i1 out tr,
  (k < fuel)%nat -> 0 <= c <= n -> n < 2 ^ 32 ->
  Z.of_nat k = Z.max 0 ((n / 32 - c + 31) / 32) ->
  (o + Z.to_nat (n - c) <= length out)%nat ->
  (i1 + Z.to_nat (n - c) <= length in1)%nat ->
  exists tr',
    while fuel (fun '(i, _, _, _) => u32 i <? n / 32) exor_u_avx_body
      (s32 c, Ptr bo o, Ptr bo o, Ptr b1 i1) (Mem (<[bo := Block ao out]> bs) tr)
    = Done (s32 (c + 32 * Z.of_nat k), Ptr bo (o + 32 * k), Ptr bo (o + 32 * k),
            Ptr b1 (i1 + 32 * k))
        (Mem (<[bo := Block ao (exor_inplace_out (32 * k) o i1 in1 out)]> bs) tr').
Proof.
  induction k as [|k IH]; intros fuel c o i1 out tr Hf Hc Hn Hk Ho H1;
    (destruct fuel as [|fuel]; [lia|]); cbn [while].
  - assert (n / 32 <= c) by (revert Hk; Z.div_mod_to_equations; lia).
    rewrite u32_s32_small by lia.
    replace (c <? n / 32) with false by (symmetry; apply Z.ltb_ge; lia).
    unfold ret. rewrite !Nat.mul_0_r, !Nat.add_0_r, Z.add_0_r.
    exists tr. by cbn [exor_inplace_out].
  - assert (Hlt : c < n / 32) by (revert Hk; Z.div_mod_to_equations; lia).
    assert (Hroom : c + 32 <= n) by (revert Hlt; Z.div_mod_to_equations; lia).
    rewrite u32_s32_small by lia.
    replace (c <? n / 32) with true by (symmetry; apply Z.ltb_lt; lia).
    destruct (exor_u_avx_body_inplace out tr (s32 c) o i1) as [tr1 Hb]; [lia..|].
    rewrite (bind_done _ _ _ _ _ Hb). rewrite s32_add.
    destruct (IH fuel (c + 32) (o + 32)%nat (i1 + 32)%nat
                (exor_inplace_out 32 o i1 in1 out) tr1) as [tr' Htr'];
      [lia | lia | lia | revert Hk; Z.div_mod_to_equations; lia
      | rewrite exor_inplace_out_length; lia | lia |].
    exists tr'. rewrite Htr'.
    replace (32 * S k)%nat with (32 + 32 * k)%nat by lia.
    rewrite <- exor_inplace_out_add.
    replace (c + 32 + 32 * Z.of_nat k) with (c + 32 * Z.of_nat (S k)) by lia.
    replace (o + 32 + 32 * k)%nat with (o + (32 + 32 * k))%nat by lia.
    by replace (i1 + 32 + 32 * k)%nat with (i1 + (32 + 32 * k))%nat by lia.
Qed.
End InPlace.

(** X14. exclusive or in place.  When the output pointer is also the first
    input pointer, the generic kernel and the AVX variant both return and
    leave in the first [num_bytes] bytes of the buffer their exclusive or
    with the second input; later bytes are untouched. *)
Theorem exor_in_place bs bo b1 ao a1 out in1 tr num_bytes :
  bs !! bo = Some (Block ao out) -> bs !! b1 = Some (Block a1 in1) -> bo ≠ b1 ->
  Forall is_byte out -> Forall is_byte in1 ->
  0 <= num_bytes < 2 ^ 32 ->
  (Z.to_nat num_bytes <= length out)%nat -> (Z.to_nat num_bytes <= length in1)%nat ->
  exists out' tg tv,
    volk_8u_x2_exor_8u_generic (Ptr bo 0) (Ptr bo 0) (Ptr b1 0) num_bytes (Mem bs tr)
    = Done tt (Mem (<[bo := Block ao out']> bs) tg) /\
    volk_8u_x2_exor_8u_u_avx (Ptr bo 0) (Ptr bo 0) (Ptr b1 0) num_bytes (Mem bs tr)
    = Done tt (Mem (<[bo := Block ao out']> bs) tv) /\
    out' = zip_with Z.lxor (take (Z.to_nat num_bytes) out) (take (Z.to_nat num_bytes) in1)
           ++ drop (Z.to_nat num_bytes) out.
Proof.
  intros Hbo Hb1 Hne Hyo Hy1 Hn Ho H1.
  assert (Hlt : (bo < length bs)%nat) by eauto using lookup_lt_Some.
  exists (exor_inplace_out (Z.to_nat num_bytes) 0 0 in1 out).
  (* generic *)
  destruct (exor_scalar_loop_inplace bs bo b1 ao a1 in1 Hlt Hb1 Hne
              num_bytes (Z.to_nat num_bytes) (fuel_for num_bytes) 0 0 0 out tr)
    as [tg Hg]; [unfold fuel_for; lia|lia..|].
  change (s32 0) with 0 in Hg.
  (* vector loop, then tail *)
  set (k := Z.to_nat ((num_bytes / 32 + 31) / 32)).
  assert (Hk : Z.of_nat k = Z.max 0 ((num_bytes / 32 - 0 + 31) / 32)).
  { subst k. rewrite Z.sub_0_r. Z.div_mod_to_equations. lia. }
  assert (Hkn : 32 * Z.of_nat k <= num_bytes).
  { rewrite Hk, Z.sub_0_r. Z.div_mod_to_equations. lia. }
  destruct (exor_u_avx_loop_inplace bs bo b1 ao a1 in1 Hlt Hb1 Hne
              num_bytes k (fuel_for num_bytes) 0 0 0 out tr)
    as [t1 Hv1]; [unfold fuel_for; lia|lia|lia|exact Hk|rewrite Z.sub_0_r; lia..|].
  change (s32 0) with 0 in Hv1. rewrite Z.add_0_l in Hv1.
  destruct (exor_scalar_loop_inplace bs bo b1 ao a1 in1 Hlt Hb1 Hne
              num_bytes (Z.to_nat num_bytes - 32 * k) (fuel_for num_bytes)
              (32 * Z.of_nat k) (0 + 32 * k) (0 + 32 * k)
              (exor_inplace_out (32 * k) 0 0 in1 out) t1)
    as [tv Hv2]; [unfold fuel_for; lia|lia|lia|lia
                 |rewrite exor_inplace_out_length; lia|lia|].
  rewrite exor_inplace_out_add in Hv2.
  replace (32 * k + (Z.to_nat num_bytes - 32 * k))%nat with (Z.to_nat num_bytes) in Hv2 by lia.
  exists tg, tv. split; [|split].
  - unfold volk_8u_x2_exor_8u_generic.
    replace (Mem bs tr) with (Mem (<[bo := Block ao out]> bs) tr)
      by (by rewrite list_insert_id).
    by rewrite (bind_done _ _ _ _ _ Hg).
  - unfold volk_8u_x2_exor_8u_u_avx. cbv zeta.
    replace (Mem bs tr) with (Mem (<[bo := Block ao out]> bs) tr)
      by (by rewrite list_insert_id).
    rewrite (bind_done _ _ _ _ _ Hv1). by rewrite (bind_done _ _ _ _ _ Hv2).
  - by apply exor_inplace_out_closed.
Qed.

Lemma exor_in_place_witness :
  exists out' tg tv,
    volk_8u_x2_exor_8u_generic (Ptr 0 0) (Ptr 0 0) (Ptr 1 0) 33
      (Mem [Block 0 (replicate 40 170); Block 64 (replicate 40 15)] [])
    = Done tt (Mem [Block 0 out'; Block 64 (replicate 40 15)] tg) /\
    volk_8u_x2_exor_8u_u_avx (Ptr 0 0) (Ptr 0 0) (Ptr 1 0) 33
      (Mem [Block 0 (replicate 40 170); Block 64 (replicate 40 15)] [])
    = Done tt (Mem [Block 0 out'; Block 64 (replicate 40 15)] tv) /\
    out' = replicate 33 165 ++ replicate 7 170.
Proof.
  destruct (exor_in_place
              [Block 0 (replicate 40 170); Block 64 (replicate 40 15)]
              0 1 0 64 (replicate 40 170) (replicate 40 15) [] 33
              eq_refl eq_refl ltac:(discriminate)
              ltac:(apply Forall_replicate; unfold is_byte; lia)
              ltac:(apply Forall_replicate; unfold is_byte; lia)
              ltac:(lia) ltac:(vm_compute; lia) ltac:(vm_compute; lia))
    as (out' & tg & tv & Hg & Hv & Hout).
  exists out', tg, tv. split; [exact Hg|]. split; [exact Hv|exact Hout].
Defined.

(** ** Memory envelope: every kernel stays inside the blocks, writes to the
    output block only, and its loops end *)

Lemma in_block_sizes m m' p : sizes m' = sizes m -> in_block m' p -> in_block m p.
Proof. unfold in_block. by intros ->. Qed.

Lemma event_within_sizes b m m' e :
  sizes m' = sizes m -> event_within b m' e -> event_within b m e.
Proof.
  intros Hs. destruct e as [p|p]; cbn [event_within].
  - by apply in_block_sizes.
  - intros [H ?]. split; [|done]. by eapply in_block_sizes.
Qed.

Lemma frame_refl b m : frame b m m.
Proof.
  split; [done|]. split; [done|]. split; [done|].
  exists []. split; [done|]. apply Forall_nil_2.
Qed.

Lemma frame_trans b m1 m2 m3 : frame b m1 m2 -> frame b m2 m3 -> frame b m1 m3.
Proof.
  intros (Ho1 & Hs1 & Hb1 & ev1 & Ht1 & He1) (Ho2 & Hs2 & Hb2 & ev2 & Ht2 & He2).
  split; [intros j Hj; by rewrite Ho2, Ho1|].
  split; [by rewrite Hs2|]. split; [by rewrite Hb2|].
  exists (ev2 ++ ev1). split; [by rewrite Ht2, Ht1, app_assoc|].
  apply Forall_app. split; [|done].
  eapply Forall_impl; [exact He2|]. intros e. by apply event_within_sizes.
Qed.

Lemma rw_ret {A} b (Q : A -> Prop) a : Q a -> runs_within b Q (ret a).
Proof. intros HQ m. unfold ret. split; [apply frame_refl|done]. Qed.

Lemma rw_bind {A B} b (P : A -> Prop) (Q : B -> Prop) (c : M A) (f : A -> M B) :
  runs_within b P c -> (forall a, P a -> runs_within b Q (f a)) ->
  runs_within b Q (bind c f).
Proof.
  intros Hc Hf m. unfold bind. specialize (Hc m).
  destruct (c m) as [a m1| |]; [|done..].
  destruct Hc as [Hfr HP]. specialize (Hf a HP m1).
  destruct (f a m1) as [r m2| |]; [|done..].
  destruct Hf as [Hfr2 HQ]. split; [by eapply frame_trans|done].
Qed.

Lemma rw_weaken {A} b (P Q : A -> Prop) (c : M A) :
  runs_within b P c -> (forall a, P a -> Q a) -> runs_within b Q c.
Proof.
  intros Hc HPQ m. specialize (Hc m). destruct (c m); [|done..].
  destruct Hc. split; [done|by apply HPQ].
Qed.

Lemma rw_load b p : runs_within b (fun _ => True) (load p).
Proof.
  intros m. unfold load.
  destruct (blocks m !! blk p) as [B|] eqn:HB; [|done].
  destruct (cells B !! off p) as [v|] eqn:Hv; [|done].
  split; [|done]. split; [done|]. split; [done|]. split; [done|].
  exists [Ld p]. split; [done|]. apply Forall_cons_2; [|apply Forall_nil_2].
  exists (length (cells B)). split.
  - unfold sizes. by rewrite list_lookup_fmap, HB.
  - by eapply lookup_lt_Some.
Qed.

Lemma rw_store p v : runs_within (blk p) (fun _ => True) (store p v).
Proof.
  intros m. unfold store.
  destruct (blocks m !! blk p) as [B|] eqn:HB; [|done].
  destruct (off p <? length (cells B))%nat eqn:Ho; [|done].
  apply Nat.ltb_lt in Ho.
  split; [|done]. cbn [blocks trace]. split; [|split; [|split]].
  - intros j Hj. cbn [blocks]. by rewrite list_lookup_insert_ne.
  - unfold sizes. cbn [blocks]. rewrite list_fmap_insert. cbn [cells].
    apply list_insert_id. by rewrite list_lookup_fmap, HB, length_insert.
  - unfold bases. cbn [blocks]. by apply bases_insert.
  - exists [St p]. split; [done|]. apply Forall_cons_2; [|apply Forall_nil_2].
    split; [|done]. exists (length (cells B)). split; [|done].
    unfold sizes. by rewrite list_lookup_fmap, HB.
Qed.

Lemma rw_or_store p v : runs_within (blk p) (fun _ => True) (or_store p v).
Proof.
  unfold or_store. eapply rw_bind; [apply rw_load|]. intros o _. apply rw_store.
Qed.

Lemma rw_load_bytes b n : forall p, runs_within b (fun _ => True) (load_bytes n p).
Proof.
  induction n as [|n IH]; intros p; cbn [load_bytes]; [by apply rw_ret|].
  eapply rw_bind; [apply rw_load|]. intros v _.
  eapply rw_bind; [apply IH|]. intros vs _. by apply rw_ret.
Qed.

Lemma rw_store_bytes vs : forall p, runs_within (blk p) (fun _ => True) (store_bytes p vs).
Proof.
  induction vs as [|v vs IH]; intros p; cbn [store_bytes]; [by apply rw_ret|].
  eapply rw_bind; [apply rw_store|]. intros _ _. apply (IH (p +ₚ 1)).
Qed.

Lemma rw_require_aligned b a p : runs_within b (fun _ => True) (require_aligned a p).
Proof.
  intros m. unfold require_aligned. destruct (address p m) as [x|]; [|done].
  destruct (x mod a =? 0); [|done]. split; [apply frame_refl|done].
Qed.

Lemma rw_while {S} b (I : S -> Prop) (mu : S -> nat) cond body :
  (forall s, I s -> cond s = true ->
     runs_within b (fun s' => I s' /\ (mu s' < mu s)%nat) (body s)) ->
  forall fuel s, I s -> (mu s < fuel)%nat -> runs_within b I (while fuel cond body s).
Proof.
  intros Hbody. induction fuel as [|fuel IH]; intros s HI Hmu; [lia|].
  cbn [while]. destruct (cond s) eqn:Hc; [|by apply rw_ret].
  eapply rw_bind; [by apply Hbody|].
  intros s' [HI' Hlt]. apply IH; [done|lia].
Qed.

Lemma rw_store_in b p v : blk p = b -> runs_within b (fun _ => True) (store p v).
Proof. intros <-. apply rw_store. Qed.

Lemma rw_store_bytes_in b p vs :
  blk p = b -> runs_within b (fun _ => True) (store_bytes p vs).
Proof. intros <-. apply rw_store_bytes. Qed.

Lemma rw_or_store_in b p v : blk p = b -> runs_within b (fun _ => True) (or_store p v).
Proof. intros <-. apply rw_or_store. Qed.

(** Derivations for straight-line code: each command is a primitive. *)
Ltac rw_prim :=
  first [ apply rw_load
        | apply rw_store_in; reflexivity
        | apply rw_or_store_in; reflexivity
        | apply rw_load_bytes
        | apply rw_store_bytes_in; reflexivity
        | apply rw_require_aligned ].

Ltac rw_seq :=
  repeat first [ rw_prim
               | eapply rw_bind; [solve [rw_prim]|intros ? _]
               | by apply rw_ret ].

Lemma rw_pack_byte out_buf in_buf :
  runs_within (blk out_buf) (fun _ => True) (pack_byte out_buf in_buf).
Proof. unfold pack_byte. rw_seq. Qed.

Lemma rw_unpack_byte out_buf in_buf :
  runs_within (blk out_buf) (fun _ => True) (unpack_byte out_buf in_buf).
Proof. unfold unpack_byte. rw_seq. Qed.

Lemma rw_store_u16 b p v : blk p = b -> runs_within b (fun _ => True) (store_u16 p v).
Proof. intros <-. unfold store_u16. rw_seq. Qed.

Lemma rw_load_s16 b p : runs_within b (fun _ => True) (load_s16 p).
Proof. unfold load_s16. rw_seq. Qed.

Lemma rw_load_aligned b a n p :
  runs_within b (fun _ => True) (do_ require_aligned a p; load_bytes n p).
Proof. rw_seq. Qed.

Lemma rw_store_aligned b a p vs :
  blk p = b -> runs_within b (fun _ => True) (do_ require_aligned a p; store_bytes p vs).
Proof. intros <-. rw_seq. Qed.

(** *** Loop bodies *)

Lemma rw_pack_scalar_body b bound s :
  bound < 2 ^ 32 -> pack_inv b s -> (let '(byte, _, _) := s in byte <? bound) = true ->
  runs_within b (fun s' => pack_inv b s' /\ (pack_left bound s' < pack_left bound s)%nat)
    (pack_scalar_body s).
Proof.
  destruct s as [[byte pi] po]. intros Hbound [Hb Hpo] Hlt. apply Z.ltb_lt in Hlt.
  unfold pack_scalar_body.
  eapply rw_bind; [rewrite <- Hpo; apply rw_pack_byte|]. intros _ _. apply rw_ret.
  rewrite u32_small by lia. cbn [pack_inv pack_left ptr_add blk].
  split; [split; [lia|done]|lia].
Qed.

Lemma rw_unpack_scalar_body b bound s :
  bound < 2 ^ 32 -> pack_inv b s -> (let '(byte, _, _) := s in byte <? bound) = true ->
  runs_within b (fun s' => pack_inv b s' /\ (pack_left bound s' < pack_left bound s)%nat)
    (unpack_scalar_body s).
Proof.
  destruct s as [[byte pi] po]. intros Hbound [Hb Hpo] Hlt. apply Z.ltb_lt in Hlt.
  unfold unpack_scalar_body.
  eapply rw_bind; [rewrite <- Hpo; apply rw_unpack_byte|]. intros _ _. apply rw_ret.
  rewrite u32_small by lia. cbn [pack_inv pack_left ptr_add blk].
  split; [split; [lia|done]|lia].
Qed.

Lemma rw_pack_ssse3_body b bound s :
  bound + 2 <= 2 ^ 32 -> pack_inv b s -> (let '(byte, _, _) := s in byte <? bound) = true ->
  runs_within b (fun s' => pack_inv b s' /\ (pack_left bound s' < pack_left bound s)%nat)
    (pack_ssse3_body s).
Proof.
  destruct s as [[byte pi] po]. intros Hbound [Hb Hpo] Hlt. apply Z.ltb_lt in Hlt.
  unfold pack_ssse3_body, _mm_loadu_si128.
  eapply rw_bind; [apply rw_load_bytes|]. intros loaded _.
  eapply rw_bind; [by apply rw_store_u16|]. intros _ _. apply rw_ret.
  rewrite u32_small by lia. cbn [pack_inv pack_left ptr_add blk].
  split; [split; [lia|done]|lia].
Qed.

Lemma rw_pack_a_ssse3_body b bound s :
  bound + 2 <= 2 ^ 32 -> pack_inv b s -> (let '(byte, _, _) := s in byte <? bound) = true ->
  runs_within b (fun s' => pack_inv b s' /\ (pack_left bound s' < pack_left bound s)%nat)
    (pack_a_ssse3_body s).
Proof.
  destruct s as [[byte pi] po]. intros Hbound [Hb Hpo] Hlt. apply Z.ltb_lt in Hlt.
  unfold pack_a_ssse3_body, _mm_load_si128.
  eapply rw_bind; [apply rw_load_aligned|]. intros loaded _.
  eapply rw_bind; [by apply rw_store_u16|]. intros _ _. apply rw_ret.
  rewrite u32_small by lia. cbn [pack_inv pack_left ptr_add blk].
  split; [split; [lia|done]|lia].
Qed.

Lemma rw_unpack_ssse3_body b bound s :
  bound + 2 <= 2 ^ 32 -> pack_inv b s -> (let '(byte, _, _) := s in byte <? bound) = true ->
  runs_within b (fun s' => pack_inv b s' /\ (pack_left bound s' < pack_left bound s)%nat)
    (unpack_ssse3_body s).
Proof.
  destruct s as [[byte pi] po]. intros Hbound [Hb Hpo] Hlt. apply Z.ltb_lt in Hlt.
  unfold unpack_ssse3_body, _mm_storeu_si128.
  eapply rw_bind; [apply rw_load_s16|]. intros w _.
  eapply rw_bind; [by apply rw_store_bytes_in|]. intros _ _. apply rw_ret.
  rewrite u32_small by lia. cbn [pack_inv pack_left ptr_add blk].
  split; [split; [lia|done]|lia].
Qed.

Lemma u32_step i d bound :
  0 < d -> u32 i < bound -> bound + d <= 2 ^ 32 ->
  (Z.to_nat (bound - u32 (s32 (i + d))) < Z.to_nat (bound - u32 i))%nat.
Proof.
  intros Hd Hlt Hbound. rewrite u32_s32.
  assert (Hi : 0 <= u32 i < 2 ^ 32) by (unfold u32; apply Z.mod_pos_bound; lia).
  replace (u32 (i + d)) with (u32 i + d); [lia|].
  unfold u32 in *. rewrite <- Z.add_mod_idemp_l by lia.
  symmetry. apply Z.mod_small. lia.
Qed.

Lemma rw_exor_scalar_body b bound s :
  bound < 2 ^ 32 -> exor_inv b s -> (let '(i, _, _, _) := s in u32 i <? bound) = true ->
  runs_within b (fun s' => exor_inv b s' /\ (exor_left bound s' < exor_left bound s)%nat)
    (exor_scalar_body s).
Proof.
  destruct s as [[[i po] p0] p1]. intros Hbound Hpo Hlt. apply Z.ltb_lt in Hlt.
  cbn [exor_inv] in Hpo. unfold exor_scalar_body.
  eapply rw_bind; [apply rw_load|]. intros x _.
  eapply rw_bind; [apply rw_load|]. intros y _.
  eapply rw_bind; [by apply rw_store_in|]. intros _ _. apply rw_ret.
  cbn [exor_inv exor_left ptr_add blk]. split; [done|]. apply u32_step; lia.
Qed.

Lemma rw_exor_u_avx_body b bound s :
  bound + 32 <= 2 ^ 32 -> exor_inv b s -> (let '(i, _, _, _) := s in u32 i <? bound) = true ->
  runs_within b (fun s' => exor_inv b s' /\ (exor_left bound s' < exor_left bound s)%nat)
    (exor_u_avx_body s).
Proof.
  destruct s as [[[i po] p0] p1]. intros Hbound Hpo Hlt. apply Z.ltb_lt in Hlt.
  cbn [exor_inv] in Hpo. unfold exor_u_avx_body, _mm256_loadu_ps, _mm256_storeu_ps.
  eapply rw_bind; [apply rw_load_bytes|]. intros x _.
  eapply rw_bind; [apply rw_load_bytes|]. intros y _.
  eapply rw_bind; [by apply rw_store_bytes_in|]. intros _ _. apply rw_ret.
  cbn [exor_inv exor_left ptr_add blk]. split; [done|]. apply u32_step; lia.
Qed.

Lemma rw_exor_a_avx_body b bound s :
  bound + 32 <= 2 ^ 32 -> exor_inv b s -> (let '(i, _, _, _) := s in u32 i <? bound) = true ->
  runs_within b (fun s' => exor_inv b s' /\ (exor_left bound s' < exor_left bound s)%nat)
    (exor_a_avx_body s).
Proof.
  destruct s as [[[i po] p0] p1]. intros Hbound Hpo Hlt. apply Z.ltb_lt in Hlt.
  cbn [exor_inv] in Hpo. unfold exor_a_avx_body, _mm256_load_ps, _mm256_store_ps.
  eapply rw_bind; [apply rw_load_aligned|]. intros x _.
  eapply rw_bind; [apply rw_load_aligned|]. intros y _.
  eapply rw_bind; [by apply rw_store_aligned|]. intros _ _. apply rw_ret.
  cbn [exor_inv exor_left ptr_add blk]. split; [done|]. apply u32_step; lia.
Qed.

Lemma fast_num_bytes_bound n :
  0 <= n < 2 ^ 32 -> 0 <= Z.land n 0xFFFFFFFE <= n /\ Z.land n 0xFFFFFFFE + 2 <= 2 ^ 32.
Proof.
  intros Hn. rewrite land_fffffffe by done.
  change (2 ^ 32) with 4294967296 in *. Z.div_mod_to_equations. lia.
Qed.

(** A scalar loop, and a vector loop followed by the scalar loop over the
    rest, on the state [(byte, inputPtr, outputPtr)]. *)
Lemma rw_byte_loop b n body s :
  0 <= n < 2 ^ 32 -> pack_inv b s ->
  (forall s, pack_inv b s -> (let '(byte, _, _) := s in byte <? n) = true ->
     runs_within b (fun s' => pack_inv b s' /\ (pack_left n s' < pack_left n s)%nat)
       (body s)) ->
  runs_within b (pack_inv b)
    (while (fuel_for n) (fun '(byte, _, _) => byte <? n) body s).
Proof.
  intros Hn HI Hbody.
  apply (rw_while b (pack_inv b) (pack_left n)); [|done|].
  - intros [[byte pi] po]. apply Hbody.
  - destruct s as [[byte pi] po]. destruct HI as [Hb _].
    unfold fuel_for. cbn [pack_left]. lia.
Qed.

Lemma rw_two_loops b n vbody sbody out_buf in_buf :
  0 <= n < 2 ^ 32 -> blk out_buf = b ->
  (forall s, pack_inv b s ->
     (let '(byte, _, _) := s in byte <? Z.land n 0xFFFFFFFE) = true ->
     runs_within b (fun s' => pack_inv b s' /\
                      (pack_left (Z.land n 0xFFFFFFFE) s'
                       < pack_left (Z.land n 0xFFFFFFFE) s)%nat) (vbody s)) ->
  (forall s, pack_inv b s -> (let '(byte, _, _) := s in byte <? n) = true ->
     runs_within b (fun s' => pack_inv b s' /\ (pack_left n s' < pack_left n s)%nat)
       (sbody s)) ->
  runs_within b (fun _ => True)
    (do s <- while (fuel_for n) (fun '(byte, _, _) => byte <? Z.land n 0xFFFFFFFE)
               vbody (0, in_buf, out_buf);
     do_ while (fuel_for n) (fun '(byte, _, _) => byte <? n) sbody s;
     ret tt).
Proof.
  intros Hn Hb Hv Hs. destruct (fast_num_bytes_bound n Hn) as [Hfast _].
  eapply rw_bind.
  - apply (rw_while b (pack_inv b) (pack_left (Z.land n 0xFFFFFFFE))).
    + intros [[byte pi] po]. apply Hv.
    + by split.
    + unfold fuel_for. cbn [pack_left]. lia.
  - intros s HI. eapply rw_bind; [by apply rw_byte_loop|]. intros _ _. by apply rw_ret.
Qed.

(** A scalar loop on the state [(i, outputVector, inputVector0, inputVector1)]. *)
Lemma rw_exor_loop b n bound body s :
  0 <= n < 2 ^ 32 -> bound <= n -> exor_inv b s ->
  (forall s, exor_inv b s -> (let '(i, _, _, _) := s in u32 i <? bound) = true ->
     runs_within b (fun s' => exor_inv b s' /\ (exor_left bound s' < exor_left bound s)%nat)
       (body s)) ->
  runs_within b (exor_inv b)
    (while (fuel_for n) (fun '(i, _, _, _) => u32 i <? bound) body s).
Proof.
  intros Hn Hbound HI Hbody.
  apply (rw_while b (exor_inv b) (exor_left bound)); [|done|].
  - intros [[[i po] p0] p1]. apply Hbody.
  - destruct s as [[[i po] p0] p1].
    assert (0 <= u32 i) by (unfold u32; apply Z.mod_pos_bound; lia).
    unfold fuel_for. cbn [exor_left]. lia.
Qed.

(** X15. the packing kernels stay in their envelope.  For every memory and
    every pair of pointers, aliased or out of range, each of the three
    variants ends (it returns or faults, it never runs out of fuel), and
    when it returns every access it made lies inside a block, every store
    went to the block of [out_buf], and no block moved or changed size. *)
Theorem pack8_kernels_envelope out_buf in_buf num_bytes :
  0 <= num_bytes < 2 ^ 32 ->
  runs_within (blk out_buf) (fun _ => True)
    (volk_8u_pack8_8u_generic out_buf in_buf num_bytes) /\
  runs_within (blk out_buf) (fun _ => True)
    (volk_8u_pack8_8u_u_ssse3 out_buf in_buf num_bytes) /\
  runs_within (blk out_buf) (fun _ => True)
    (volk_8u_pack8_8u_a_ssse3 out_buf in_buf num_bytes).
Proof.
  intros Hn. destruct (fast_num_bytes_bound num_bytes Hn) as [_ Hfast].
  split; [|split].
  - unfold volk_8u_pack8_8u_generic.
    eapply rw_bind; [|intros _ _; by apply rw_ret].
    apply rw_byte_loop; [done|by split|].
    intros s. apply rw_pack_scalar_body. lia.
  - apply rw_two_loops; [done..| |].
    + intros s. by apply rw_pack_ssse3_body.
    + intros s. apply rw_pack_scalar_body. lia.
  - apply rw_two_loops; [done..| |].
    + intros s. by apply rw_pack_a_ssse3_body.
    + intros s. apply rw_pack_scalar_body. lia.
Qed.

Lemma pack8_kernels_envelope_witness :
  runs_within 0 (fun _ => True) (volk_8u_pack8_8u_generic (Ptr 0 0) (Ptr 0 0) 3) /\
  runs_within 0 (fun _ => True) (volk_8u_pack8_8u_u_ssse3 (Ptr 0 0) (Ptr 0 0) 3) /\
  runs_within 0 (fun _ => True) (volk_8u_pack8_8u_a_ssse3 (Ptr 0 0) (Ptr 0 0) 3).
Proof. apply (pack8_kernels_envelope (Ptr 0 0) (Ptr 0 0) 3). lia. Defined.

(** X16. the unpacking kernels stay in their envelope: for every memory and
    every pair of pointers both variants end, and when one returns every
    access it made lies inside a block, every store went to the block of
    [out_buf], and no block moved or changed size. *)
Theorem unpack8_kernels_envelope out_buf in_buf num_bytes :
  0 <= num_bytes < 2 ^ 32 ->
  runs_within (blk out_buf) (fun _ => True)
    (volk_8u_unpack8_8u_generic out_buf in_buf num_bytes) /\
  runs_within (blk out_buf) (fun _ => True)
    (volk_8u_unpack8_8u_u_ssse3 out_buf in_buf num_bytes).
Proof.
  intros Hn. destruct (fast_num_bytes_bound num_bytes Hn) as [_ Hfast].
  split.
  - unfold volk_8u_unpack8_8u_generic.
    eapply rw_bind; [|intros _ _; by apply rw_ret].
    apply rw_byte_loop; [done|by split|].
    intros s. apply rw_unpack_scalar_body. lia.
  - apply rw_two_loops; [done..| |].
    + intros s. by apply rw_unpack_ssse3_body.
    + intros s. apply rw_unpack_scalar_body. lia.
Qed.

Lemma unpack8_kernels_envelope_witness :
  runs_within 0 (fun _ => True) (volk_8u_unpack8_8u_generic (Ptr 0 0) (Ptr 1 0) 3) /\
  runs_within 0 (fun _ => True) (volk_8u_unpack8_8u_u_ssse3 (Ptr 0 0) (Ptr 1 0) 3).
Proof. apply (unpack8_kernels_envelope (Ptr 0 0) (Ptr 1 0) 3). lia. Defined.

(** X17. the exclusive-or kernels stay in their envelope: for every memory
    and every three pointers, each of the three variants ends, and when it
    returns every access it made lies inside a block, every store went to
    the block of [outputVector], and no block moved or changed size. *)
Theorem exor_kernels_envelope outputVector inputVector0 inputVector1 num_bytes :
  0 <= num_bytes < 2 ^ 32 ->
  runs_within (blk outputVector) (fun _ => True)
    (volk_8u_x2_exor_8u_generic outputVector inputVector0 inputVector1 num_bytes) /\
  runs_within (blk outputVector) (fun _ => True)
    (volk_8u_x2_exor_8u_u_avx outputVector inputVector0 inputVector1 num_bytes) /\
  runs_within (blk outputVector) (fun _ => True)
    (volk_8u_x2_exor_8u_a_avx outputVector inputVector0 inputVector1 num_bytes).
Proof.
  intros Hn.
  assert (Hdiv : num_bytes / 32 <= num_bytes /\ num_bytes / 32 + 32 <= 2 ^ 32).
  { change (2 ^ 32) with 4294967296 in *. Z.div_mod_to_equations. lia. }
  split; [|split].
  - unfold volk_8u_x2_exor_8u_generic.
    eapply rw_bind; [|intros _ _; by apply rw_ret].
    apply (rw_exor_loop _ num_bytes num_bytes); [done|lia|done|].
    intros s. apply rw_exor_scalar_body. lia.
  - unfold volk_8u_x2_exor_8u_u_avx. cbv zeta.
    eapply rw_bind.
    + apply (rw_exor_loop _ num_bytes (num_bytes / 32)); [done|lia|done|].
      intros s. apply rw_exor_u_avx_body. lia.
    + intros s HI. eapply rw_bind; [|intros _ _; by apply rw_ret].
      apply (rw_exor_loop _ num_bytes num_bytes); [done|lia|done|].
      intros s'. apply rw_exor_scalar_body. lia.
  - unfold volk_8u_x2_exor_8u_a_avx. cbv zeta.
    eapply rw_bind.
    + apply (rw_exor_loop _ num_bytes (num_bytes / 32)); [done|lia|done|].
      intros s. apply rw_exor_a_avx_body. lia.
    + intros s HI. eapply rw_bind; [|intros _ _; by apply rw_ret].
      apply (rw_exor_loop _ num_bytes num_bytes); [done|lia|done|].
      intros s'. apply rw_exor_scalar_body. lia.
Qed.

Lemma exor_kernels_envelope_witness :
  runs_within 0 (fun _ => True)
    (volk_8u_x2_exor_8u_generic (Ptr 0 0) (Ptr 0 0) (Ptr 1 0) 33) /\
  runs_within 0 (fun _ => True)
    (volk_8u_x2_exor_8u_u_avx (Ptr 0 0) (Ptr 0 0) (Ptr 1 0) 33) /\
  runs_within 0 (fun _ => True)
    (volk_8u_x2_exor_8u_a_avx (Ptr 0 0) (Ptr 0 0) (Ptr 1 0) 33).
Proof. apply (exor_kernels_envelope (Ptr 0 0) (Ptr 0 0) (Ptr 1 0) 33). lia. Defined.

(** ** Which calls return: the room each kernel needs *)

Lemma ob_ret {A} sz (Q : A -> Prop) a : Q a -> outcome_by sz true Q (ret a).
Proof. intros HQ m Hm. by exists a, m. Qed.

Lemma ob_bind {A B} sz ok1 ok2 (P : A -> Prop) (Q : B -> Prop) (c : M A) (f : A -> M B) :
  outcome_by sz ok1 P c -> (forall a, P a -> outcome_by sz ok2 Q (f a)) ->
  outcome_by sz (ok1 && ok2) Q (bind c f).
Proof.
  intros Hc Hf m Hm. specialize (Hc m Hm). unfold bind. destruct ok1; cbn [andb].
  - destruct Hc as (a & m1 & -> & Hs & HP). exact (Hf a HP m1 Hs).
  - by rewrite Hc.
Qed.

Lemma ob_eq {A} sz ok ok' (Q : A -> Prop) c :
  ok = ok' -> outcome_by sz ok Q c -> outcome_by sz ok' Q c.
Proof. by intros ->. Qed.

Lemma ob_load sz p : outcome_by sz (room sz p 1) (fun _ => True) (load p).
Proof.
  intros m <-. unfold room, sizes, load. rewrite list_lookup_fmap.
  destruct (blocks m !! blk p) as [B|]; cbn [fmap option_fmap option_map]; [|done].
  destruct (cells B !! off p) as [v|] eqn:Hv.
  - apply lookup_lt_Some in Hv.
    replace (off p + 1 <=? length (cells B))%nat with true
      by (symmetry; apply Nat.leb_le; lia).
    by eexists _, _.
  - apply lookup_ge_None in Hv.
    by replace (off p + 1 <=? length (cells B))%nat with false
      by (symmetry; apply Nat.leb_gt; lia).
Qed.

Lemma ob_store sz p v : outcome_by sz (room sz p 1) (fun _ => True) (store p v).
Proof.
  intros m <-. pose proof (rw_store p v m) as Hrw.
  unfold room, sizes, store in *. rewrite list_lookup_fmap.
  destruct (blocks m !! blk p) as [B|]; cbn [fmap option_fmap option_map]; [|done].
  destruct (off p <? length (cells B))%nat eqn:Ho.
  - apply Nat.ltb_lt in Ho.
    replace (off p + 1 <=? length (cells B))%nat with true
      by (symmetry; apply Nat.leb_le; lia).
    destruct Hrw as [(_ & Hs & _) _]. by eexists _, _.
  - apply Nat.ltb_ge in Ho.
    by replace (off p + 1 <=? length (cells B))%nat with false
      by (symmetry; apply Nat.leb_gt; lia).
Qed.

(** Equations between room conditions: case analysis on the blocks, then
    linear arithmetic on the offsets. *)
Ltac room_solve :=
  unfold room; cbn [blk off ptr_add];
  repeat match goal with
         | |- context [?sz !! ?b] => destruct (sz !! b)
         end;
  cbn [andb orb];
  rewrite ?andb_true_r, ?andb_false_r, ?orb_true_r, ?orb_false_r;
  try reflexivity;
  apply Bool.eq_true_iff_eq;
  repeat first [ rewrite andb_true_iff | rewrite orb_true_iff
               | rewrite Nat.leb_le | rewrite Nat.eqb_eq | rewrite Z.eqb_eq ];
  lia.

Lemma ob_or_store sz p v : outcome_by sz (room sz p 1) (fun _ => True) (or_store p v).
Proof.
  unfold or_store. eapply ob_eq; [|eapply ob_bind; [apply ob_load|]].
  2: intros o _; apply ob_store.
  by destruct (room sz p 1).
Qed.

Lemma ob_load_bytes sz n : forall p,
  outcome_by sz ((n =? 0)%nat || room sz p n) (fun l => length l = n) (load_bytes n p).
Proof.
  induction n as [|n IH]; intros p; cbn [load_bytes]; [by apply ob_ret|].
  eapply ob_eq; [|eapply ob_bind; [apply ob_load|]].
  2: { intros v _. eapply ob_bind; [apply IH|]. intros vs Hvs. apply ob_ret.
       cbn [length]. by rewrite Hvs. }
  room_solve.
Qed.

Lemma ob_store_bytes sz vs : forall p,
  outcome_by sz ((length vs =? 0)%nat || room sz p (length vs)) (fun _ => True)
    (store_bytes p vs).
Proof.
  induction vs as [|v vs IH]; intros p; cbn [store_bytes]; [by apply ob_ret|].
  eapply ob_eq; [|eapply ob_bind; [apply ob_store|]].
  2: { intros _ _. apply IH. }
  cbn [length]. room_solve.
Qed.

Lemma ob_while {T} sz (next : T -> T) (turn_ok : T -> bool) cond body :
  (forall s, cond s = true -> outcome_by sz (turn_ok s) (eq (next s)) (body s)) ->
  forall k fuel s, (k < fuel)%nat ->
    (forall j, (j < k)%nat -> cond (after_turns next j s) = true) ->
    cond (after_turns next k s) = false ->
    outcome_by sz (turns_ok next turn_ok k s) (eq (after_turns next k s))
      (while fuel cond body s).
Proof.
  intros Hbody. induction k as [|k IH]; intros fuel s Hf Hlt Hend;
    (destruct fuel as [|fuel]; [lia|]); cbn [while after_turns turns_ok] in *.
  - rewrite Hend. by apply ob_ret.
  - assert (Hc : cond s = true) by (apply (Hlt 0%nat); lia).
    rewrite Hc. eapply (ob_bind _ _ _ _ _ _ _ (Hbody s Hc)).
    intros s' <-. apply IH; [lia| |done].
    intros j Hj. apply (Hlt (S j)). lia.
Qed.

(** Reading the outcome off [outcome_by]. *)
Lemma ob_outcome {A} sz ok (Q : A -> Prop) (c : M A) m :
  outcome_by sz ok Q c -> sizes m = sz ->
  match c m with
  | Done _ _ => ok = true
  | Fault => ok = false
  | Timeout => False
  end.
Proof.
  intros Hc Hm. specialize (Hc m Hm). destruct ok.
  - by destruct Hc as (a & m' & -> & _).
  - by rewrite Hc.
Qed.

(** *** Exclusive or *)

Lemma ob_exor_scalar_body sz s :
  outcome_by sz (exor_turn_ok sz 1 s) (eq (exor_next 1 s)) (exor_scalar_body s).
Proof.
  destruct s as [[[i po] p0] p1]. unfold exor_scalar_body. cbn [exor_turn_ok exor_next].
  eapply ob_eq; [|eapply ob_bind; [apply ob_load|]].
  2: { intros x _. eapply ob_bind; [apply ob_load|]. intros y _.
       eapply ob_bind; [apply ob_store|]. intros _ _. by apply ob_ret. }
  cbn [ptr_add]. by rewrite !andb_true_r, andb_assoc.
Qed.

Lemma ob_exor_u_avx_body sz s :
  outcome_by sz (exor_turn_ok sz 32 s) (eq (exor_next 32 s)) (exor_u_avx_body s).
Proof.
  destruct s as [[[i po] p0] p1].
  unfold exor_u_avx_body, _mm256_loadu_ps, _mm256_storeu_ps, _mm256_xor_ps.
  cbn [exor_turn_ok exor_next].
  eapply ob_eq; [|eapply ob_bind; [apply (ob_load_bytes sz 32)|]].
  2: { intros x Hx. eapply ob_bind; [apply (ob_load_bytes sz 32)|]. intros y Hy.
       eapply ob_bind.
       - eapply ob_eq; [|apply ob_store_bytes].
         cbn beta in Hx, Hy. rewrite length_zip_with, Hx, Hy. reflexivity.
       - intros _ _. by apply ob_ret. }
  cbn [Nat.eqb Nat.min orb]. by rewrite !andb_true_r, andb_assoc.
Qed.

Lemma exor_after_turns d k : forall c po p0 p1,
  after_turns (exor_next d) k (s32 c, po, p0, p1)
  = (s32 (c + Z.of_nat (d * k)), po +ₚ (d * k), p0 +ₚ (d * k), p1 +ₚ (d * k)).
Proof.
  induction k as [|k IH]; intros c po p0 p1; cbn [after_turns exor_next].
  - rewrite Nat.mul_0_r, Z.add_0_r. by destruct po, p0, p1; rewrite !ptr_add_Ptr, !Nat.add_0_r.
  - rewrite s32_add, IH, !ptr_add_add.
    replace (d + d * k)%nat with (d * S k)%nat by lia.
    by replace (c + Z.of_nat d + Z.of_nat (d * k)) with (c + Z.of_nat (d * S k)) by lia.
Qed.

Lemma exor_turns_ok sz d k : forall c po p0 p1,
  (0 < d)%nat ->
  turns_ok (exor_next d) (exor_turn_ok sz d) k (c, po, p0, p1)
  = (k =? 0)%nat || room sz p0 (d * k) && room sz p1 (d * k) && room sz po (d * k).
Proof.
  induction k as [|k IH]; intros c po p0 p1 Hd; cbn [turns_ok exor_next exor_turn_ok];
    [done|].
  rewrite IH by done. replace (d * S k)%nat with (d + d * k)%nat by lia.
  clear IH. destruct k as [|k].
  - rewrite Nat.mul_0_r, Nat.add_0_r. cbn [Nat.eqb orb]. by rewrite andb_true_r.
  - assert (Hk : (0 < d * S k)%nat) by (rewrite Nat.mul_succ_r; lia).
    cbn [Nat.eqb orb]. revert Hk. generalize (d * S k)%nat. intros dk Hk.
    room_solve.
Qed.

Lemma ob_exor_loop sz bound d body k fuel c po p0 p1 :
  (forall s, outcome_by sz (exor_turn_ok sz d s) (eq (exor_next d s)) (body s)) ->
  (0 < d)%nat -> (k < fuel)%nat -> 0 <= c -> c + Z.of_nat (d * k) < 2 ^ 32 ->
  bound <= c + Z.of_nat (d * k) -> (k = 0%nat \/ c + Z.of_nat (d * (k - 1)) < bound) ->
  outcome_by sz
    ((k =? 0)%nat || room sz p0 (d * k) && room sz p1 (d * k) && room sz po (d * k))
    (eq (s32 (c + Z.of_nat (d * k)), po +ₚ (d * k), p0 +ₚ (d * k), p1 +ₚ (d * k)))
    (while fuel (fun '(i, _, _, _) => u32 i <? bound) body (s32 c, po, p0, p1)).
Proof.
  intros Hbody Hd Hf Hc Hmax Hend Hlast.
  rewrite <- (exor_turns_ok sz d k (s32 c)), <- exor_after_turns by done.
  apply ob_while; [by intros s _|done| |].
  - intros j Hj. rewrite exor_after_turns, u32_s32_small by nia.
    apply Z.ltb_lt. destruct Hlast as [->|Hlast]; [lia|]. nia.
  - rewrite exor_after_turns, u32_s32_small by nia. apply Z.ltb_ge. lia.
Qed.

(** X18. which exclusive-or calls return.  For every memory and every three
    pointers, aliased or not, the generic kernel and the unaligned AVX
    variant return exactly when the call is empty or each of the three
    pointers has [num_bytes] cells left in its block; otherwise they
    fault.  The vector variant needs no more room than the generic one. *)
Theorem exor_returns_iff_room outputVector inputVector0 inputVector1 num_bytes m :
  0 <= num_bytes < 2 ^ 32 ->
  match volk_8u_x2_exor_8u_generic outputVector inputVector0 inputVector1 num_bytes m with
  | Done _ _ => exor_room m outputVector inputVector0 inputVector1 num_bytes = true
  | Fault => exor_room m outputVector inputVector0 inputVector1 num_bytes = false
  | Timeout => False
  end /\
  match volk_8u_x2_exor_8u_u_avx outputVector inputVector0 inputVector1 num_bytes m with
  | Done _ _ => exor_room m outputVector inputVector0 inputVector1 num_bytes = true
  | Fault => exor_room m outputVector inputVector0 inputVector1 num_bytes = false
  | Timeout => False
  end.
Proof.
  intros Hn. set (sz := sizes m). set (N := Z.to_nat num_bytes).
  split.
  - apply (ob_outcome sz _ (fun _ => True)); [|done].
    unfold volk_8u_x2_exor_8u_generic. change 0 with (s32 0) at 1.
    eapply ob_eq; [|eapply ob_bind].
    2: { apply (ob_exor_loop sz num_bytes 1 exor_scalar_body N);
           [apply ob_exor_scalar_body|unfold fuel_for; lia..]. }
    2: { intros s _. by apply ob_ret. }
    unfold exor_room. fold sz N. rewrite Nat.mul_1_l, andb_true_r.
    f_equal. apply Bool.eq_true_iff_eq. rewrite Nat.eqb_eq, Z.eqb_eq. lia.
  - apply (ob_outcome sz _ (fun _ => True)); [|done].
    unfold volk_8u_x2_exor_8u_u_avx. cbv zeta. change 0 with (s32 0) at 1.
    set (kv := Z.to_nat ((num_bytes / 32 + 31) / 32)).
    assert (Hkv : Z.of_nat kv = (num_bytes / 32 + 31) / 32).
    { subst kv. change (2 ^ 32) with 4294967296 in Hn. Z.div_mod_to_equations. lia. }
    assert (Hkn : 32 * Z.of_nat kv <= num_bytes /\ num_bytes / 32 <= 32 * Z.of_nat kv
                  /\ (kv = 0%nat \/ 32 * (Z.of_nat kv - 1) < num_bytes / 32)).
    { rewrite Hkv. change (2 ^ 32) with 4294967296 in Hn. Z.div_mod_to_equations. lia. }
    eapply ob_eq; [|eapply ob_bind].
    2: { apply (ob_exor_loop sz (num_bytes / 32) 32 exor_u_avx_body kv (fuel_for num_bytes) 0);
           [apply ob_exor_u_avx_body|unfold fuel_for; lia..]. }
    2: { intros s <-. eapply ob_bind; [|intros s' _; by apply ob_ret].
         apply (ob_exor_loop sz num_bytes 1 exor_scalar_body (N - 32 * kv));
           [apply ob_exor_scalar_body|unfold fuel_for; lia..]. }
    unfold exor_room. fold sz N. rewrite andb_true_r.
    assert (HN : (32 * kv <= N)%nat) by lia.
    assert (HN0 : num_bytes = 0 <-> N = 0%nat) by lia.
    destruct (Z.eqb_spec num_bytes 0) as [H0|H0].
    + replace kv with 0%nat by lia. replace (N - 32 * 0)%nat with 0%nat by lia. done.
    + clearbody N kv sz. room_solve.
Qed.

Lemma exor_returns_iff_room_witness :
  match volk_8u_x2_exor_8u_generic (Ptr 0 0) (Ptr 0 0) (Ptr 1 0) 3
          (Mem [Block 0 [1; 2; 3; 4]; Block 64 [5; 6]] []) with
  | Done _ _ =>
      exor_room (Mem [Block 0 [1; 2; 3; 4]; Block 64 [5; 6]] [])
        (Ptr 0 0) (Ptr 0 0) (Ptr 1 0) 3 = true
  | Fault =>
      exor_room (Mem [Block 0 [1; 2; 3; 4]; Block 64 [5; 6]] [])
        (Ptr 0 0) (Ptr 0 0) (Ptr 1 0) 3 = false
  | Timeout => False
  end /\
  match volk_8u_x2_exor_8u_u_avx (Ptr 0 0) (Ptr 0 0) (Ptr 1 0) 3
          (Mem [Block 0 [1; 2; 3; 4]; Block 64 [5; 6]] []) with
  | Done _ _ =>
      exor_room (Mem [Block 0 [1; 2; 3; 4]; Block 64 [5; 6]] [])
        (Ptr 0 0) (Ptr 0 0) (Ptr 1 0) 3 = true
  | Fault =>
      exor_room (Mem [Block 0 [1; 2; 3; 4]; Block 64 [5; 6]] [])
        (Ptr 0 0) (Ptr 0 0) (Ptr 1 0) 3 = false
  | Timeout => False
  end.
Proof.
  apply (exor_returns_iff_room (Ptr 0 0) (Ptr 0 0) (Ptr 1 0) 3
           (Mem [Block 0 [1; 2; 3; 4]; Block 64 [5; 6]] [])).
  lia.
Defined.

(** *** Packing and unpacking *)

Ltac ob_prim :=
  first [ apply ob_load | apply ob_store | apply ob_or_store ].

Ltac ob_seq :=
  repeat first [ ob_prim
               | eapply ob_bind; [solve [ob_prim]|intros ? _]
               | by apply ob_ret ].

Lemma ob_pack_byte sz out_buf in_buf :
  outcome_by sz (room sz in_buf 8 && room sz out_buf 1) (fun _ => True)
    (pack_byte out_buf in_buf).
Proof. unfold pack_byte. eapply ob_eq; [|ob_seq]. room_solve. Qed.

Lemma ob_unpack_byte sz out_buf in_buf :
  outcome_by sz (room sz in_buf 1 && room sz out_buf 8) (fun _ => True)
    (unpack_byte out_buf in_buf).
Proof. unfold unpack_byte. eapply ob_eq; [|ob_seq]. room_solve. Qed.

Lemma ob_store_u16 sz p v : outcome_by sz (room sz p 2) (fun _ => True) (store_u16 p v).
Proof. unfold store_u16. eapply ob_eq; [|ob_seq]. room_solve. Qed.

Lemma ob_load_s16 sz p : outcome_by sz (room sz p 2) (fun _ => True) (load_s16 p).
Proof. unfold load_s16. eapply ob_eq; [|ob_seq]. room_solve. Qed.

Lemma ob_pack_scalar_body sz s :
  outcome_by sz (byte_turn_ok sz 8 1 s) (eq (byte_next 1 8 1 s)) (pack_scalar_body s).
Proof.
  destruct s as [[byte pi] po]. unfold pack_scalar_body. cbn [byte_turn_ok byte_next].
  eapply ob_eq; [|eapply ob_bind; [apply ob_pack_byte|]].
  2: { intros _ _. by apply ob_ret. }
  by rewrite andb_true_r.
Qed.

Lemma ob_unpack_scalar_body sz s :
  outcome_by sz (byte_turn_ok sz 1 8 s) (eq (byte_next 1 1 8 s)) (unpack_scalar_body s).
Proof.
  destruct s as [[byte pi] po]. unfold unpack_scalar_body. cbn [byte_turn_ok byte_next].
  eapply ob_eq; [|eapply ob_bind; [apply ob_unpack_byte|]].
  2: { intros _ _. by apply ob_ret. }
  by rewrite andb_true_r.
Qed.

Lemma ob_pack_ssse3_body sz s :
  outcome_by sz (byte_turn_ok sz 16 2 s) (eq (byte_next 2 16 2 s)) (pack_ssse3_body s).
Proof.
  destruct s as [[byte pi] po]. unfold pack_ssse3_body, _mm_loadu_si128.
  cbn [byte_turn_ok byte_next].
  eapply ob_eq; [|eapply ob_bind; [apply (ob_load_bytes sz 16)|]].
  2: { intros loaded _. eapply ob_bind; [apply ob_store_u16|].
       intros _ _. by apply ob_ret. }
  cbn [Nat.eqb orb]. by rewrite andb_true_r.
Qed.

Lemma ob_unpack_ssse3_body sz s :
  outcome_by sz (byte_turn_ok sz 2 16 s) (eq (byte_next 2 2 16 s)) (unpack_ssse3_body s).
Proof.
  destruct s as [[byte pi] po]. unfold unpack_ssse3_body, _mm_storeu_si128.
  cbn [byte_turn_ok byte_next].
  eapply ob_eq; [|eapply ob_bind; [apply ob_load_s16|]].
  2: { intros w _. eapply ob_bind.
       - eapply ob_eq; [|apply ob_store_bytes].
         unfold _mm_and_si128, _mm_cmpeq_epi8, _mm_shuffle_epi8.
         rewrite !length_zip_with, length_fmap. reflexivity.
       - intros _ _. by apply ob_ret. }
  cbn [Nat.eqb orb]. by rewrite andb_true_r.
Qed.

Lemma byte_after_turns d d_in d_out k : forall c pi po,
  0 <= c -> c + Z.of_nat (d * k) < 2 ^ 32 ->
  after_turns (byte_next d d_in d_out) k (c, pi, po)
  = (c + Z.of_nat (d * k), pi +ₚ (d_in * k), po +ₚ (d_out * k)).
Proof.
  induction k as [|k IH]; intros c pi po Hc Hmax; cbn [after_turns byte_next].
  - rewrite !Nat.mul_0_r, Z.add_0_r. by destruct pi, po; rewrite !ptr_add_Ptr, !Nat.add_0_r.
  - rewrite u32_small by nia. rewrite IH, !ptr_add_add by nia.
    replace (d_in + d_in * k)%nat with (d_in * S k)%nat by lia.
    replace (d_out + d_out * k)%nat with (d_out * S k)%nat by lia.
    by replace (c + Z.of_nat d + Z.of_nat (d * k)) with (c + Z.of_nat (d * S k)) by lia.
Qed.

Lemma byte_turns_ok sz d d_in d_out k : forall c pi po,
  (0 < d_in)%nat -> (0 < d_out)%nat ->
  turns_ok (byte_next d d_in d_out) (byte_turn_ok sz d_in d_out) k (c, pi, po)
  = (k =? 0)%nat || room sz pi (d_in * k) && room sz po (d_out * k).
Proof.
  induction k as [|k IH]; intros c pi po Hi Ho; cbn [turns_ok byte_next byte_turn_ok];
    [done|].
  rewrite IH by done.
  replace (d_in * S k)%nat with (d_in + d_in * k)%nat by lia.
  replace (d_out * S k)%nat with (d_out + d_out * k)%nat by lia.
  clear IH. destruct k as [|k].
  - rewrite !Nat.mul_0_r, !Nat.add_0_r. cbn [Nat.eqb orb]. by rewrite andb_true_r.
  - assert (Hki : (0 < d_in * S k)%nat) by (rewrite Nat.mul_succ_r; lia).
    assert (Hko : (0 < d_out * S k)%nat) by (rewrite Nat.mul_succ_r; lia).
    cbn [Nat.eqb orb]. revert Hki Hko.
    generalize (d_in * S k)%nat (d_out * S k)%nat. intros ik ok Hki Hko.
    room_solve.
Qed.

Lemma ob_byte_loop sz bound d d_in d_out body k fuel c pi po :
  (forall s, outcome_by sz (byte_turn_ok sz d_in d_out s)
               (eq (byte_next d d_in d_out s)) (body s)) ->
  (0 < d)%nat -> (0 < d_in)%nat -> (0 < d_out)%nat ->
  (k < fuel)%nat -> 0 <= c -> c + Z.of_nat (d * k) < 2 ^ 32 ->
  bound <= c + Z.of_nat (d * k) -> (k = 0%nat \/ c + Z.of_nat (d * (k - 1)) < bound) ->
  outcome_by sz
    ((k =? 0)%nat || room sz pi (d_in * k) && room sz po (d_out * k))
    (eq (c + Z.of_nat (d * k), pi +ₚ (d_in * k), po +ₚ (d_out * k)))
    (while fuel (fun '(byte, _, _) => byte <? bound) body (c, pi, po)).
Proof.
  intros Hbody Hd Hi Ho Hf Hc Hmax Hend Hlast.
  rewrite <- (byte_turns_ok sz d d_in d_out k c), <- (byte_after_turns d) by done.
  apply ob_while; [by intros s _|done| |].
  - intros j Hj. rewrite byte_after_turns by nia.
    apply Z.ltb_lt. destruct Hlast as [->|Hlast]; [lia|]. nia.
  - rewrite byte_after_turns by nia. apply Z.ltb_ge. lia.
Qed.

Lemma ob_two_byte_loops sz n d_in d_out vbody sbody out_buf in_buf :
  0 <= n < 2 ^ 32 -> (0 < d_in)%nat -> (0 < d_out)%nat ->
  (forall s, outcome_by sz (byte_turn_ok sz (2 * d_in) (2 * d_out) s)
               (eq (byte_next 2 (2 * d_in) (2 * d_out) s)) (vbody s)) ->
  (forall s, outcome_by sz (byte_turn_ok sz d_in d_out s)
               (eq (byte_next 1 d_in d_out s)) (sbody s)) ->
  outcome_by sz
    ((n =? 0) || room sz in_buf (d_in * Z.to_nat n) && room sz out_buf (d_out * Z.to_nat n))
    (fun _ => True)
    (do s <- while (fuel_for n) (fun '(byte, _, _) => byte <? Z.land n 0xFFFFFFFE)
               vbody (0, in_buf, out_buf);
     do_ while (fuel_for n) (fun '(byte, _, _) => byte <? n) sbody s;
     ret tt).
Proof.
  intros Hn Hi Ho Hv Hs. rewrite land_fffffffe by done.
  set (N := Z.to_nat n). set (kv := Z.to_nat (n / 2)).
  assert (Hkv : 2 * (n / 2) = Z.of_nat (2 * kv) /\ (2 * kv <= N)%nat).
  { subst kv N. change (2 ^ 32) with 4294967296 in Hn. Z.div_mod_to_equations. lia. }
  destruct Hkv as [Hkv HkN].
  eapply ob_eq; [|eapply ob_bind].
  2: { apply (ob_byte_loop sz (2 * (n / 2)) 2 (2 * d_in) (2 * d_out) vbody kv (fuel_for n) 0);
         [apply Hv|unfold fuel_for; lia..]. }
  2: { intros s <-. eapply ob_bind; [|intros s' _; by apply ob_ret].
       apply (ob_byte_loop sz n 1 d_in d_out sbody (N - 2 * kv));
         [apply Hs|unfold fuel_for; lia..]. }
  rewrite andb_true_r.
  assert (HN0 : n = 0 <-> N = 0%nat) by lia.
  destruct (Z.eqb_spec n 0) as [H0|H0].
  - replace kv with 0%nat by lia. replace (N - 2 * 0)%nat with 0%nat by lia. done.
  - replace (2 * d_in * kv)%nat with (d_in * (2 * kv))%nat by lia.
    replace (2 * d_out * kv)%nat with (d_out * (2 * kv))%nat by lia.
    assert (Hsplit : forall x, (x * N = x * (2 * kv) + x * (N - 2 * kv))%nat).
    { intros x. rewrite <- Nat.mul_add_distr_l. f_equal. lia. }
    rewrite (Hsplit d_in), (Hsplit d_out).
    assert (Hz : (N - 2 * kv = 0 /\ d_in * (N - 2 * kv) = 0 /\ d_out * (N - 2 * kv) = 0)%nat
                 \/ (0 < N - 2 * kv /\ 0 < d_in * (N - 2 * kv) /\ 0 < d_out * (N - 2 * kv))%nat).
    { destruct (N - 2 * kv)%nat; [left; lia|right; rewrite !Nat.mul_succ_r; lia]. }
    assert (Hzv : (kv = 0 /\ d_in * (2 * kv) = 0 /\ d_out * (2 * kv) = 0)%nat
                  \/ (0 < kv /\ 0 < d_in * (2 * kv) /\ 0 < d_out * (2 * kv))%nat).
    { destruct kv; [left; lia|right].
      replace (2 * S kv)%nat with (S (S (2 * kv))) by lia. rewrite !Nat.mul_succ_r. lia. }
    assert (Hnz : (0 < N - 2 * kv \/ 0 < kv)%nat) by lia.
    revert Hz Hzv.
    generalize (d_in * (N - 2 * kv))%nat (d_out * (N - 2 * kv))%nat
               (d_in * (2 * kv))%nat (d_out * (2 * kv))%nat.
    intros a1 a2 a3 a4 Hz Hzv. clear Hsplit.
    clearbody N kv. room_solve.
Qed.

Lemma ob_one_byte_loop sz n d_in d_out sbody out_buf in_buf :
  0 <= n < 2 ^ 32 -> (0 < d_in)%nat -> (0 < d_out)%nat ->
  (forall s, outcome_by sz (byte_turn_ok sz d_in d_out s)
               (eq (byte_next 1 d_in d_out s)) (sbody s)) ->
  outcome_by sz
    ((n =? 0) || room sz in_buf (d_in * Z.to_nat n) && room sz out_buf (d_out * Z.to_nat n))
    (fun _ => True)
    (do_ while (fuel_for n) (fun '(byte, _, _) => byte <? n) sbody (0, in_buf, out_buf);
     ret tt).
Proof.
  intros Hn Hi Ho Hs.
  eapply ob_eq; [|eapply ob_bind].
  2: { apply (ob_byte_loop sz n 1 d_in d_out sbody (Z.to_nat n) (fuel_for n) 0);
         [apply Hs|unfold fuel_for; lia..]. }
  2: { intros s _. by apply ob_ret. }
  rewrite andb_true_r. f_equal.
  apply Bool.eq_true_iff_eq. rewrite Nat.eqb_eq, Z.eqb_eq. lia.
Qed.

(** X19. which packing calls return.  For every memory and every pair of
    pointers, the generic kernel and the unaligned SSSE3 variant return
    exactly when the call is empty or [in_buf] has [8 * num_bytes] cells
    left in its block and [out_buf] has [num_bytes]; otherwise they fault.
    The vector variant reads and writes no further than the generic one. *)
Theorem pack8_returns_iff_room out_buf in_buf num_bytes m :
  0 <= num_bytes < 2 ^ 32 ->
  match volk_8u_pack8_8u_generic out_buf in_buf num_bytes m with
  | Done _ _ => pack8_room m out_buf in_buf num_bytes = true
  | Fault => pack8_room m out_buf in_buf num_bytes = false
  | Timeout => False
  end /\
  match volk_8u_pack8_8u_u_ssse3 out_buf in_buf num_bytes m with
  | Done _ _ => pack8_room m out_buf in_buf num_bytes = true
  | Fault => pack8_room m out_buf in_buf num_bytes = false
  | Timeout => False
  end.
Proof.
  intros Hn. split; apply (ob_outcome (sizes m) _ (fun _ => True)); try done.
  - unfold pack8_room. rewrite <- (Nat.mul_1_l (Z.to_nat num_bytes)) at 2.
    apply (ob_one_byte_loop (sizes m) num_bytes 8 1 pack_scalar_body); [done|lia|lia|].
    apply ob_pack_scalar_body.
  - unfold pack8_room. rewrite <- (Nat.mul_1_l (Z.to_nat num_bytes)) at 2.
    apply (ob_two_byte_loops (sizes m) num_bytes 8 1 pack_ssse3_body pack_scalar_body);
      [done|lia|lia| |].
    + apply ob_pack_ssse3_body.
    + apply ob_pack_scalar_body.
Qed.

Lemma pack8_returns_iff_room_witness :
  match volk_8u_pack8_8u_generic (Ptr 0 0) (Ptr 1 0) 2
          (Mem [Block 0 [0; 0]; Block 64 (replicate 15 1)] []) with
  | Done _ _ =>
      pack8_room (Mem [Block 0 [0; 0]; Block 64 (replicate 15 1)] [])
        (Ptr 0 0) (Ptr 1 0) 2 = true
  | Fault =>
      pack8_room (Mem [Block 0 [0; 0]; Block 64 (replicate 15 1)] [])
        (Ptr 0 0) (Ptr 1 0) 2 = false
  | Timeout => False
  end /\
  match volk_8u_pack8_8u_u_ssse3 (Ptr 0 0) (Ptr 1 0) 2
          (Mem [Block 0 [0; 0]; Block 64 (replicate 15 1)] []) with
  | Done _ _ =>
      pack8_room (Mem [Block 0 [0; 0]; Block 64 (replicate 15 1)] [])
        (Ptr 0 0) (Ptr 1 0) 2 = true
  | Fault =>
      pack8_room (Mem [Block 0 [0; 0]; Block 64 (replicate 15 1)] [])
        (Ptr 0 0) (Ptr 1 0) 2 = false
  | Timeout => False
  end.
Proof.
  apply (pack8_returns_iff_room (Ptr 0 0) (Ptr 1 0) 2
           (Mem [Block 0 [0; 0]; Block 64 (replicate 15 1)] [])).
  lia.
Defined.

(** X20. which unpacking calls return.  For every memory and every pair of
    pointers, the generic kernel and the unaligned SSSE3 variant return
    exactly when the call is empty or [in_buf] has [num_bytes] cells left
    in its block and [out_buf] has [8 * num_bytes]; otherwise they
    fault. *)
Theorem unpack8_returns_iff_room out_buf in_buf num_bytes m :
  0 <= num_bytes < 2 ^ 32 ->
  match volk_8u_unpack8_8u_generic out_buf in_buf num_bytes m with
  | Done _ _ => unpack8_room m out_buf in_buf num_bytes = true
  | Fault => unpack8_room m out_buf in_buf num_bytes = false
  | Timeout => False
  end /\
  match volk_8u_unpack8_8u_u_ssse3 out_buf in_buf num_bytes m with
  | Done _ _ => unpack8_room m out_buf in_buf num_bytes = true
  | Fault => unpack8_room m out_buf in_buf num_bytes = false
  | Timeout => False
  end.
Proof.
  intros Hn. split; apply (ob_outcome (sizes m) _ (fun _ => True)); try done.
  - unfold unpack8_room. rewrite <- (Nat.mul_1_l (Z.to_nat num_bytes)) at 1.
    apply (ob_one_byte_loop (sizes m) num_bytes 1 8 unpack_scalar_body); [done|lia|lia|].
    apply ob_unpack_scalar_body.
  - unfold unpack8_room. rewrite <- (Nat.mul_1_l (Z.to_nat num_bytes)) at 1.
    apply (ob_two_byte_loops (sizes m) num_bytes 1 8 unpack_ssse3_body unpack_scalar_body);
      [done|lia|lia| |].
    + apply ob_unpack_ssse3_body.
    + apply ob_unpack_scalar_body.
Qed.

Lemma unpack8_returns_iff_room_witness :
  match volk_8u_unpack8_8u_generic (Ptr 0 0) (Ptr 1 0) 2
          (Mem [Block 0 (replicate 16 0); Block 64 [165; 90]] []) with
  | Done _ _ =>
      unpack8_room (Mem [Block 0 (replicate 16 0); Block 64 [165; 90]] [])
        (Ptr 0 0) (Ptr 1 0) 2 = true
  | Fault =>
      unpack8_room (Mem [Block 0 (replicate 16 0); Block 64 [165; 90]] [])
        (Ptr 0 0) (Ptr 1 0) 2 = false
  | Timeout => False
  end /\
  match volk_8u_unpack8_8u_u_ssse3 (Ptr 0 0) (Ptr 1 0) 2
          (Mem [Block 0 (replicate 16 0); Block 64 [165; 90]] []) with
  | Done _ _ =>
      unpack8_room (Mem [Block 0 (replicate 16 0); Block 64 [165; 90]] [])
        (Ptr 0 0) (Ptr 1 0) 2 = true
  | Fault =>
      unpack8_room (Mem [Block 0 (replicate 16 0); Block 64 [165; 90]] [])
        (Ptr 0 0) (Ptr 1 0) 2 = false
  | Timeout => False
  end.
Proof.
  apply (unpack8_returns_iff_room (Ptr 0 0) (Ptr 1 0) 2
           (Mem [Block 0 (replicate 16 0); Block 64 [165; 90]] [])).
  lia.
Defined.

(** ** Command-line arguments *)

Lemma substring_all s : String.substring 0 (String.length s) s = s.
Proof. induction s as [|c s IH]; cbn; [done|]. by rewrite IH. Qed.

Lemma string_app_cons c s t : String c s +:+ t = String c (s +:+ t).
Proof. reflexivity. Qed.

Lemma substring_split s : forall m l,
  s = String.substring 0 m s
      +:+ String.substring m l s
      +:+ String.substring (m + l) (String.length s - (m + l)) s.
Proof.
  induction s as [|c s IH]; intros m l.
  - by destruct m, l.
  - destruct m as [|m].
    + destruct l as [|l]; cbn; rewrite ?string_app_cons.
      * by rewrite substring_all.
      * f_equal. rewrite (IH 0%nat l) at 1. by destruct s.
    + cbn. rewrite string_app_cons. f_equal. apply IH.
Qed.

Lemma substring_length s : forall m l,
  String.length (String.substring m l s) = Nat.min l (String.length s - m).
Proof.
  induction s as [|c s IH]; intros m l.
  - destruct m, l; cbn; lia.
  - destruct m as [|m]; [destruct l as [|l]|]; cbn [String.substring String.length Nat.sub].
    + done.
    + rewrite IH. lia.
    + rewrite IH. done.
Qed.

Lemma string_app_length s1 s2 :
  String.length (s1 +:+ s2) = (String.length s1 + String.length s2)%nat.
Proof.
  induction s1 as [|c s1 IH]; [done|].
  rewrite string_app_cons. cbn [String.length]. by rewrite IH.
Qed.

Lemma string_app_assoc s1 s2 s3 : (s1 +:+ s2) +:+ s3 = s1 +:+ s2 +:+ s3.
Proof.
  induction s1 as [|c s1 IH]; [done|]. rewrite !string_app_cons. by rewrite IH.
Qed.

Lemma prefix_app s1 s2 : String.prefix s1 (s1 +:+ s2) = true.
Proof.
  induction s1 as [|c s1 IH]; [by destruct s2|].
  rewrite string_app_cons. cbn [String.prefix].
  by destruct (Ascii.ascii_dec c c).
Qed.

Lemma substr_app s1 s2 : substr (String.length s1) (s1 +:+ s2) = s2.
Proof.
  unfold substr. rewrite string_app_length.
  replace (String.length s1 + String.length s2 - String.length s1)%nat
    with (String.length s2) by lia.
  induction s1 as [|c s1 IH].
  - apply substring_all.
  - rewrite string_app_cons. apply IH.
Qed.

Lemma index_prefix flag v :
  flag ≠ EmptyString -> String.index 0 flag (flag +:+ v) = Some 0%nat.
Proof.
  destruct flag as [|c f]; [done|]. intros _.
  rewrite string_app_cons. cbn [String.index].
  change (String c (f +:+ v)) with (String c f +:+ v). by rewrite prefix_app.
Qed.

(** The first occurrence of a non-empty flag splits the text. *)
Lemma index_split flag text pos :
  String.index 0 flag text = Some pos ->
  text = String.substring 0 pos text +:+ flag
         +:+ substr (pos + String.length flag) text /\
  String.length (String.substring 0 pos text) = pos.
Proof.
  intros Hpos. pose proof (String.index_correct1 _ _ _ _ Hpos) as Hsub.
  assert (Hlen : (pos + String.length flag <= String.length text)%nat).
  { pose proof (substring_length text pos (String.length flag)) as Hl.
    rewrite Hsub in Hl.
    destruct (String.length flag) eqn:Hf; [|lia].
    destruct flag; [|done]. clear Hl Hsub Hf.
    revert pos Hpos. induction text as [|c text IH]; intros pos; cbn.
    - intros [= <-]. done.
    - intros [= <-]. lia. }
  split.
  - rewrite (substring_split text pos (String.length flag)) at 1.
    unfold substr. by rewrite Hsub.
  - rewrite substring_length. lia.
Qed.

(** X21. the value of a flag is what follows its first occurrence.  When
    [get_argument_value] gives a non-empty value, the argument text is
    some prefix, then ["--"], the name and ["="], then that value, and
    the prefix ends where the first occurrence of the flag begins. *)
Theorem get_argument_value_follows_flag arg_text arg_name :
  get_argument_value arg_text arg_name ≠ EmptyString ->
  exists pre,
    arg_text = pre +:+ "--" +:+ arg_name +:+ "="
               +:+ get_argument_value arg_text arg_name /\
    String.index 0 (("--" +:+ arg_name) +:+ "=") arg_text = Some (String.length pre).
Proof.
  unfold get_argument_value. cbv zeta.
  destruct (String.index 0 (("--" +:+ arg_name) +:+ "=") arg_text) as [pos|] eqn:Hpos;
    [|done].
  intros _. destruct (index_split _ _ _ Hpos) as [Hsplit Hlen].
  exists (String.substring 0 pos arg_text). split; [|by rewrite Hlen].
  rewrite Hsplit at 1. f_equal. by rewrite !string_app_assoc.
Qed.

Lemma get_argument_value_follows_flag_witness :
  exists pre,
    "x --vlen=12" = pre +:+ "--" +:+ "vlen" +:+ "="
                     +:+ get_argument_value "x --vlen=12" "vlen" /\
    String.index 0 (("--" +:+ "vlen") +:+ "=") "x --vlen=12" = Some (String.length pre).
Proof. apply (get_argument_value_follows_flag "x --vlen=12" "vlen"). discriminate. Defined.

Lemma get_argument_value_prefix arg_name v :
  get_argument_value ("--" +:+ arg_name +:+ "=" +:+ v) arg_name = v.
Proof.
  unfold get_argument_value. cbv zeta.
  replace ("--" +:+ arg_name +:+ "=" +:+ v)
    with ((("--" +:+ arg_name) +:+ "=") +:+ v) by (by rewrite !string_app_assoc).
  set (flag := ("--" +:+ arg_name) +:+ "=").
  rewrite index_prefix; [apply substr_app|].
  subst flag. intros H. apply (f_equal String.length) in H.
  rewrite !string_app_length in H. cbn [String.length] in H. lia.
Qed.

(** X22. an argument that starts with the flag gives back its value.  For
    every name and every value, the text ["--" name "=" value] has the
    value [value]; nothing of the value is interpreted, so a second flag
    inside it is part of the value. *)
Theorem get_argument_value_round_trip arg_name v :
  get_argument_value ("--" +:+ arg_name +:+ "=" +:+ v) arg_name = v /\
  get_argument_value ("--" +:+ arg_name +:+ "=" +:+ v +:+ "--" +:+ arg_name +:+ "=" +:+ v)
    arg_name
  = v +:+ "--" +:+ arg_name +:+ "=" +:+ v.
Proof. split; apply get_argument_value_prefix. Qed.

Lemma get_argument_value_absent arg_text arg_name :
  contains (("--" +:+ arg_name) +:+ "=") arg_text = false ->
  get_argument_value arg_text arg_name = EmptyString.
Proof.
  unfold contains, get_argument_value. cbv zeta.
  by destruct (String.index 0 (("--" +:+ arg_name) +:+ "=") arg_text).
Qed.

Lemma find_vector_length_skip stoi pre : forall rest,
  Forall (fun arg => get_argument_value arg "vlen" = EmptyString) pre ->
  find_vector_length_argument stoi (pre ++ rest) = find_vector_length_argument stoi rest.
Proof.
  induction pre as [|a pre IH]; intros rest Hpre; [done|].
  apply Forall_cons_1 in Hpre as [Ha Hpre].
  cbn [app find_vector_length_argument]. rewrite Ha. cbn [String.length Nat.ltb Nat.leb].
  by apply IH.
Qed.

(** X23. arguments without a length are skipped.  Arguments that do not
    contain ["--vlen="], and the argument that ends with it, leave the
    search to the arguments after them; when no argument is left the
    length is 131071, and [std::stoi] is not called. *)
Theorem find_vector_length_skips_other_arguments stoi pre rest :
  Forall (fun arg => contains "--vlen=" arg = false \/ arg = "--vlen=") pre ->
  find_vector_length_argument stoi (pre ++ rest) = find_vector_length_argument stoi rest /\
  find_vector_length_argument stoi pre = Some 131071.
Proof.
  intros Hpre.
  assert (Hskip : Forall (fun arg => get_argument_value arg "vlen" = EmptyString) pre).
  { eapply Forall_impl; [exact Hpre|]. intros arg [Hc| ->]; [|done].
    by apply get_argument_value_absent. }
  split; [by apply find_vector_length_skip|].
  rewrite <- (app_nil_r pre). by rewrite find_vector_length_skip.
Qed.

Lemma find_vector_length_skips_other_arguments_witness :
  find_vector_length_argument (fun _ => None)
    (["volk_profile"; "--benchmark_filter=exor"; "--vlen="] ++ ["--vlen=7"])
  = find_vector_length_argument (fun _ => None) ["--vlen=7"] /\
  find_vector_length_argument (fun _ => None)
    ["volk_profile"; "--benchmark_filter=exor"; "--vlen="] = Some 131071.
Proof.
  apply (find_vector_length_skips_other_arguments (fun _ => None)
           ["volk_profile"; "--benchmark_filter=exor"; "--vlen="] ["--vlen=7"]).
  repeat (apply Forall_cons_2; [first [by left | by right]|]). apply Forall_nil_2.
Defined.

(** X24. the first argument with a length decides.  After arguments without
    a length, the argument ["--vlen=" value] with a non-empty value gives
    what [std::stoi] makes of the value, converted to [size_t]; the
    arguments after it are not looked at, the failure of [std::stoi] is
    the failure of the search, and a negative length comes out as a length
    of at least [2^64 - 2^31]. *)
Theorem find_vector_length_first_value stoi pre v rest :
  Forall (fun arg => contains "--vlen=" arg = false \/ arg = "--vlen=") pre ->
  v ≠ EmptyString ->
  find_vector_length_argument stoi (pre ++ ("--vlen=" +:+ v) :: rest)
  = match stoi v with
    | Some x => Some (size_t x)
    | None => None
    end /\
  forall x, stoi v = Some x -> - 2 ^ 31 <= x < 0 ->
    find_vector_length_argument stoi (pre ++ ("--vlen=" +:+ v) :: rest) = Some (2 ^ 64 + x).
Proof.
  intros Hpre Hv.
  assert (Hskip : Forall (fun arg => get_argument_value arg "vlen" = EmptyString) pre).
  { eapply Forall_impl; [exact Hpre|]. intros arg [Hc| ->]; [|done].
    by apply get_argument_value_absent. }
  assert (Hfind : find_vector_length_argument stoi (pre ++ ("--vlen=" +:+ v) :: rest)
                  = match stoi v with Some x => Some (size_t x) | None => None end).
  { rewrite find_vector_length_skip by done. cbn [find_vector_length_argument].
    change ("--vlen=" +:+ v) with ("--" +:+ "vlen" +:+ "=" +:+ v).
    rewrite (get_argument_value_prefix "vlen" v).
    unfold parse_int_argument_value. by destruct v. }
  split; [exact Hfind|].
  intros x Hx Hneg. rewrite Hfind, Hx. f_equal. unfold size_t.
  change (2 ^ 64) with 18446744073709551616. change (2 ^ 31) with 2147483648 in Hneg.
  Z.div_mod_to_equations. lia.
Qed.

Lemma find_vector_length_first_value_witness :
  find_vector_length_argument (fun _ => Some (-1))
    (["volk_profile"] ++ ("--vlen=" +:+ "-1") :: ["--vlen=4"])
  = match (fun _ : string => Some (-1)) "-1" with
    | Some x => Some (size_t x)
    | None => None
    end /\
  forall x, (fun _ : string => Some (-1)) "-1" = Some x -> - 2 ^ 31 <= x < 0 ->
    find_vector_length_argument (fun _ => Some (-1))
      (["volk_profile"] ++ ("--vlen=" +:+ "-1") :: ["--vlen=4"]) = Some (2 ^ 64 + x).
Proof.
  apply (find_vector_length_first_value (fun _ => Some (-1)) ["volk_profile"] "-1" ["--vlen=4"]).
  - apply Forall_cons_2; [by left|apply Forall_nil_2].
  - discriminate.
Defined.

(** ** In-place runs of the profiling harness *)


